(** * The asynchronous request engine of auracle (src/aur/aur.cc)

    A shallow embedding of [aur::Aur]: the engine object, the response
    handlers it allocates, and the two libraries it drives (libcurl's
    multi interface and systemd's sd-event loop), followed by the
    properties of the engine's completion, cancellation and registration
    paths.

    The engine is single threaded.  Every method is a function from the
    state before the call to the state after it (and the method's return
    value).  What the operating system and the network do is not decided
    by the engine: it is supplied to the model as explicit arguments
    (the outcome of [fork], the descriptor returned by [fcntl], the
    sequence of events the reactor sees, what libcurl does inside one
    [curl_multi_add_handle], [curl_multi_socket_action] or
    [curl_multi_remove_handle] call).

    What the model leaves out:
    - a completion callback is taken as a function from its argument to
      the [int] it returns; a callback that calls back into the engine is
      outside the model;
    - libcurl calls the engine's socket and timer callbacks only inside
      [curl_multi_add_handle], [curl_multi_socket_action] and
      [curl_multi_remove_handle], and writes to a handler's body and error
      buffer only inside the first two;
    - C [int]s and [long]s are unbounded integers where the engine only
      negates and compares them; the deadline of the timer, which the
      engine computes, is computed in the 64-bit arithmetic of
      [std::chrono];
    - a pointer that is used after its object was released is undefined
      behaviour in C++, and the program does not go on from there in any
      defined way.  The model records the use in the log, lets the call
      fail and goes on: what it computes after such a use says nothing
      about the program.  A statement about the outcome of a call that can
      come to such a use is therefore made for the runs whose log holds
      none ([defined]). *)

From stdpp Require Import gmap strings list fin_maps pretty.

Open Scope Z_scope.

(** ** Constants of the libraries *)

Definition CURL_POLL_IN : Z := 1.
Definition CURL_POLL_OUT : Z := 2.
Definition CURL_POLL_INOUT : Z := 3.
Definition CURL_POLL_REMOVE : Z := 4.
Definition CURL_SOCKET_TIMEOUT : Z := -1.

Definition CURLE_OK : Z := 0.
Definition CURLE_ABORTED_BY_CALLBACK : Z := 42.

Definition EPOLLIN : Z := 1.
Definition EPOLLOUT : Z := 4.

Definition SD_EVENT_OFF : Z := 0.
Definition SD_EVENT_ON : Z := 1.
Definition SD_EVENT_ONESHOT : Z := -1.

Definition EINVAL : Z := 22.
Definition ESTALE : Z := 116.

(** ** Pointers

    Heap objects are named by allocation counters: a fresh name is never
    reused, so a dangling pointer stays distinguishable from every live
    one. *)

Abbreviation handler_ptr := nat (only parsing).
Abbreviation CURL := nat (only parsing).
Abbreviation sd_event_source := nat (only parsing).

(** ** Response handlers *)

Inductive Response :=
| RpcResponse (body : string)
| RawResponse (body : string)
| CloneResponse (operation : string).

(** [ResponseWrapper(MakeResponse(), status, error)], the single argument
    of a completion callback. *)
Record ResponseWrapper := {
  rw_value : Response;
  rw_status : Z;
  rw_error : string;
}.

(** A completion callback is caller code; the engine only looks at the
    [int] it returns. *)
Definition Callback := ResponseWrapper → Z.

Inductive HandlerType :=
| RpcResponseHandler
| RawResponseHandler
| CloneResponseHandler (operation_ : string).

Record ResponseHandler := {
  body : string;
  error_buffer : string;
  htype : HandlerType;
  callback_ : Callback;
}.

(** [TypedResponseHandler::MakeResponse] and its override in
    [CloneResponseHandler]. *)
Definition MakeResponse (h : ResponseHandler) : Response :=
  match htype h with
  | RpcResponseHandler => RpcResponse (body h)
  | RawResponseHandler => RawResponse (body h)
  | CloneResponseHandler op => CloneResponse op
  end.

(** [TypedResponseHandler::Run]. *)
Definition Run (h : ResponseHandler) (status : Z) (error : string) : Z :=
  callback_ h {| rw_value := MakeResponse h; rw_status := status; rw_error := error |}.

(** ** The Active Request Set *)

(** Modelled from the spec: the declaration of [Aur::ActiveRequests] is in
    aur.hh, which is not part of the sources; the spec describes it as a
    set over a tagged union of a transport handle and a process-watch
    handle. *)
Inductive ActiveRequest :=
| ReqCurl (curl : CURL)
| ReqSource (source : sd_event_source).

#[global] Instance ActiveRequest_eq_dec : EqDecision ActiveRequest.
Proof. solve_decision. Defined.

#[global] Instance ActiveRequest_countable : Countable ActiveRequest.
Proof.
  refine (inj_countable'
            (λ r, match r with ReqCurl c => inl c | ReqSource s => inr s end)
            (λ x, match x with inl c => ReqCurl c | inr s => ReqSource s end) _).
  by intros [].
Defined.

(** ** sd-event: the reactor *)

Inductive SourceKind :=
| SrcIO (fd : Z) (events : Z)
| SrcTime (usec : Z)
| SrcChild (pid : positive) (userdata : handler_ptr).

Record Source := {
  src_kind : SourceKind;
  src_enabled : Z;
}.

(** ** libcurl: easy handles and the multi handle *)

Record Easy := {
  opt_url : string;
  opt_writedata : handler_ptr;
  opt_private : handler_ptr;
  opt_errorbuffer : handler_ptr;
  opt_accept_encoding : string;
  opt_connecttimeout : Z;
  opt_useragent : string;
  opt_debugfunction : bool;
  opt_verbose : bool;
  info_response_code : Z;
}.

(** ** What the engine does that can be seen from outside

    A callback invoked (on which handler, with what argument, returning
    what), a handler deleted, a dead handler, a released event source or a
    cleaned-up easy handle used, a descriptor closed, a child process
    started on an argument vector, request headers written to the debug
    stream. *)

Inductive Obs :=
| ObsCallback (h : handler_ptr) (arg : ResponseWrapper) (ret : Z)
| ObsDelete (h : handler_ptr)
| ObsHandlerFault (h : handler_ptr)
| ObsSourceFault (s : sd_event_source)
| ObsCurlFault (c : CURL)
| ObsClose (fd : Z)
| ObsExec (pid : positive) (argv : option (list string))
| ObsDebugWrite (data : string).

(** ** The engine *)

Inductive DebugLevel := DEBUG_NONE | DEBUG_REQUESTS | DEBUG_VERBOSE_STDERR.

(** The members of [Aur] come first; their declarations are in aur.hh,
    which is not part of the sources, and their types are read off their
    uses in aur.cc.  The remaining fields are the world the object lives
    in: the state of the sd-event loop behind [event_], the state of
    libcurl behind [curl_multi_], the heap of response handlers, and the
    log of observable actions (oldest first). *)
Record Aur := {
  baseurl_ : string;
  debug_level_ : DebugLevel;
  debug_stream_ : option string;
  active_requests_ : gset ActiveRequest;
  active_io_ : gmap Z sd_event_source;
  translate_fds_ : gmap Z Z;
  timer_ : option sd_event_source;
  (* sd-event *)
  sources : gmap sd_event_source Source;
  next_source : nat;
  exit_requested : bool;
  exit_code : Z;
  finished : bool;
  (* libcurl *)
  easies : gmap CURL Easy;
  next_easy : nat;
  multi_handles : gset CURL;
  multi_msgs : list (CURL * Z);
  (* the heap of response handlers *)
  heap : gmap handler_ptr ResponseHandler;
  next_handler : nat;
  trace : list Obs;
}.

Definition set_active_requests (f : gset ActiveRequest → gset ActiveRequest) (a : Aur) : Aur :=
  {| baseurl_ := baseurl_ a; debug_level_ := debug_level_ a; debug_stream_ := debug_stream_ a;
     active_requests_ := f (active_requests_ a);
     active_io_ := active_io_ a; translate_fds_ := translate_fds_ a; timer_ := timer_ a;
     sources := sources a; next_source := next_source a;
     exit_requested := exit_requested a; exit_code := exit_code a; finished := finished a;
     easies := easies a; next_easy := next_easy a;
     multi_handles := multi_handles a; multi_msgs := multi_msgs a;
     heap := heap a; next_handler := next_handler a; trace := trace a |}.

Definition set_active_io (f : gmap Z sd_event_source → gmap Z sd_event_source) (a : Aur) : Aur :=
  {| baseurl_ := baseurl_ a; debug_level_ := debug_level_ a; debug_stream_ := debug_stream_ a;
     active_requests_ := active_requests_ a;
     active_io_ := f (active_io_ a); translate_fds_ := translate_fds_ a; timer_ := timer_ a;
     sources := sources a; next_source := next_source a;
     exit_requested := exit_requested a; exit_code := exit_code a; finished := finished a;
     easies := easies a; next_easy := next_easy a;
     multi_handles := multi_handles a; multi_msgs := multi_msgs a;
     heap := heap a; next_handler := next_handler a; trace := trace a |}.

Definition set_translate_fds (f : gmap Z Z → gmap Z Z) (a : Aur) : Aur :=
  {| baseurl_ := baseurl_ a; debug_level_ := debug_level_ a; debug_stream_ := debug_stream_ a;
     active_requests_ := active_requests_ a;
     active_io_ := active_io_ a; translate_fds_ := f (translate_fds_ a); timer_ := timer_ a;
     sources := sources a; next_source := next_source a;
     exit_requested := exit_requested a; exit_code := exit_code a; finished := finished a;
     easies := easies a; next_easy := next_easy a;
     multi_handles := multi_handles a; multi_msgs := multi_msgs a;
     heap := heap a; next_handler := next_handler a; trace := trace a |}.

Definition set_timer (t : option sd_event_source) (a : Aur) : Aur :=
  {| baseurl_ := baseurl_ a; debug_level_ := debug_level_ a; debug_stream_ := debug_stream_ a;
     active_requests_ := active_requests_ a;
     active_io_ := active_io_ a; translate_fds_ := translate_fds_ a; timer_ := t;
     sources := sources a; next_source := next_source a;
     exit_requested := exit_requested a; exit_code := exit_code a; finished := finished a;
     easies := easies a; next_easy := next_easy a;
     multi_handles := multi_handles a; multi_msgs := multi_msgs a;
     heap := heap a; next_handler := next_handler a; trace := trace a |}.

Definition set_sources (f : gmap sd_event_source Source → gmap sd_event_source Source) (a : Aur) :
    Aur :=
  {| baseurl_ := baseurl_ a; debug_level_ := debug_level_ a; debug_stream_ := debug_stream_ a;
     active_requests_ := active_requests_ a;
     active_io_ := active_io_ a; translate_fds_ := translate_fds_ a; timer_ := timer_ a;
     sources := f (sources a); next_source := next_source a;
     exit_requested := exit_requested a; exit_code := exit_code a; finished := finished a;
     easies := easies a; next_easy := next_easy a;
     multi_handles := multi_handles a; multi_msgs := multi_msgs a;
     heap := heap a; next_handler := next_handler a; trace := trace a |}.

(** Allocation of an event source. *)
Definition new_source (s : Source) (a : Aur) : Aur :=
  {| baseurl_ := baseurl_ a; debug_level_ := debug_level_ a; debug_stream_ := debug_stream_ a;
     active_requests_ := active_requests_ a;
     active_io_ := active_io_ a; translate_fds_ := translate_fds_ a; timer_ := timer_ a;
     sources := <[next_source a := s]> (sources a); next_source := S (next_source a);
     exit_requested := exit_requested a; exit_code := exit_code a; finished := finished a;
     easies := easies a; next_easy := next_easy a;
     multi_handles := multi_handles a; multi_msgs := multi_msgs a;
     heap := heap a; next_handler := next_handler a; trace := trace a |}.

Definition set_exit (requested : bool) (code : Z) (fin : bool) (a : Aur) : Aur :=
  {| baseurl_ := baseurl_ a; debug_level_ := debug_level_ a; debug_stream_ := debug_stream_ a;
     active_requests_ := active_requests_ a;
     active_io_ := active_io_ a; translate_fds_ := translate_fds_ a; timer_ := timer_ a;
     sources := sources a; next_source := next_source a;
     exit_requested := requested; exit_code := code; finished := fin;
     easies := easies a; next_easy := next_easy a;
     multi_handles := multi_handles a; multi_msgs := multi_msgs a;
     heap := heap a; next_handler := next_handler a; trace := trace a |}.

Definition set_easies (f : gmap CURL Easy → gmap CURL Easy) (a : Aur) : Aur :=
  {| baseurl_ := baseurl_ a; debug_level_ := debug_level_ a; debug_stream_ := debug_stream_ a;
     active_requests_ := active_requests_ a;
     active_io_ := active_io_ a; translate_fds_ := translate_fds_ a; timer_ := timer_ a;
     sources := sources a; next_source := next_source a;
     exit_requested := exit_requested a; exit_code := exit_code a; finished := finished a;
     easies := f (easies a); next_easy := next_easy a;
     multi_handles := multi_handles a; multi_msgs := multi_msgs a;
     heap := heap a; next_handler := next_handler a; trace := trace a |}.

(** Allocation of an easy handle. *)
Definition new_easy (e : Easy) (a : Aur) : Aur :=
  {| baseurl_ := baseurl_ a; debug_level_ := debug_level_ a; debug_stream_ := debug_stream_ a;
     active_requests_ := active_requests_ a;
     active_io_ := active_io_ a; translate_fds_ := translate_fds_ a; timer_ := timer_ a;
     sources := sources a; next_source := next_source a;
     exit_requested := exit_requested a; exit_code := exit_code a; finished := finished a;
     easies := <[next_easy a := e]> (easies a); next_easy := S (next_easy a);
     multi_handles := multi_handles a; multi_msgs := multi_msgs a;
     heap := heap a; next_handler := next_handler a; trace := trace a |}.

Definition set_multi (f : gset CURL → gset CURL) (g : list (CURL * Z) → list (CURL * Z))
    (a : Aur) : Aur :=
  {| baseurl_ := baseurl_ a; debug_level_ := debug_level_ a; debug_stream_ := debug_stream_ a;
     active_requests_ := active_requests_ a;
     active_io_ := active_io_ a; translate_fds_ := translate_fds_ a; timer_ := timer_ a;
     sources := sources a; next_source := next_source a;
     exit_requested := exit_requested a; exit_code := exit_code a; finished := finished a;
     easies := easies a; next_easy := next_easy a;
     multi_handles := f (multi_handles a); multi_msgs := g (multi_msgs a);
     heap := heap a; next_handler := next_handler a; trace := trace a |}.

Definition set_heap (f : gmap handler_ptr ResponseHandler → gmap handler_ptr ResponseHandler)
    (a : Aur) : Aur :=
  {| baseurl_ := baseurl_ a; debug_level_ := debug_level_ a; debug_stream_ := debug_stream_ a;
     active_requests_ := active_requests_ a;
     active_io_ := active_io_ a; translate_fds_ := translate_fds_ a; timer_ := timer_ a;
     sources := sources a; next_source := next_source a;
     exit_requested := exit_requested a; exit_code := exit_code a; finished := finished a;
     easies := easies a; next_easy := next_easy a;
     multi_handles := multi_handles a; multi_msgs := multi_msgs a;
     heap := f (heap a); next_handler := next_handler a; trace := trace a |}.

(** [new ResponseHandler(...)]. *)
Definition new_handler (h : ResponseHandler) (a : Aur) : Aur :=
  {| baseurl_ := baseurl_ a; debug_level_ := debug_level_ a; debug_stream_ := debug_stream_ a;
     active_requests_ := active_requests_ a;
     active_io_ := active_io_ a; translate_fds_ := translate_fds_ a; timer_ := timer_ a;
     sources := sources a; next_source := next_source a;
     exit_requested := exit_requested a; exit_code := exit_code a; finished := finished a;
     easies := easies a; next_easy := next_easy a;
     multi_handles := multi_handles a; multi_msgs := multi_msgs a;
     heap := <[next_handler a := h]> (heap a); next_handler := S (next_handler a);
     trace := trace a |}.

Definition log (o : Obs) (a : Aur) : Aur :=
  {| baseurl_ := baseurl_ a; debug_level_ := debug_level_ a; debug_stream_ := debug_stream_ a;
     active_requests_ := active_requests_ a;
     active_io_ := active_io_ a; translate_fds_ := translate_fds_ a; timer_ := timer_ a;
     sources := sources a; next_source := next_source a;
     exit_requested := exit_requested a; exit_code := exit_code a; finished := finished a;
     easies := easies a; next_easy := next_easy a;
     multi_handles := multi_handles a; multi_msgs := multi_msgs a;
     heap := heap a; next_handler := next_handler a; trace := trace a ++ [o] |}.

(** ** The anonymous-namespace helpers *)

(** [std::to_string] on an [int]. *)
Definition to_string (n : Z) : string := pretty n.

(** [ConsumePrefix]: [Some rest] stands for [true] with [*view] advanced to
    [rest], [None] for [false] with [*view] untouched. *)
Definition ConsumePrefix (view : string) (prefix : string) : option string :=
  if String.prefix prefix view
  then Some (String.substring (String.length prefix)
                              (String.length view - String.length prefix) view)
  else None.

(** [fs::path(p) / q] for a relative [q]. *)
Definition path_append (p q : string) : string :=
  if decide (p = "") then q
  else if String.prefix "/" (String.rev p) then p +:+ q
  else p +:+ "/" +:+ q.

(** ** sd-event

    The engine holds the only reference to every event source it creates,
    so [sd_event_source_unref] releases the source.  A call on a released
    source is undefined in C; the model records it as [ObsSourceFault],
    lets the call fail and goes on, and the states it reaches from there
    are states of the model only. *)

Definition EDOM : Z := 33.

Definition sd_event_source_set_enabled (s : sd_event_source) (m : Z) (a : Aur) : Aur * Z :=
  match sources a !! s with
  | Some src => (set_sources <[s := {| src_kind := src_kind src; src_enabled := m |}]> a, 0)
  | None => (log (ObsSourceFault s) a, - EINVAL)
  end.

Definition sd_event_source_set_io_events (s : sd_event_source) (events : Z) (a : Aur) : Aur * Z :=
  match sources a !! s with
  | Some src =>
      match src_kind src with
      | SrcIO fd _ =>
          (set_sources <[s := {| src_kind := SrcIO fd events; src_enabled := src_enabled src |}]>
              a, 0)
      | _ => (a, - EDOM)
      end
  | None => (log (ObsSourceFault s) a, - EINVAL)
  end.

Definition sd_event_source_set_time (s : sd_event_source) (usec : Z) (a : Aur) : Aur * Z :=
  match sources a !! s with
  | Some src =>
      match src_kind src with
      | SrcTime _ =>
          (set_sources <[s := {| src_kind := SrcTime usec; src_enabled := src_enabled src |}]> a, 0)
      | _ => (a, - EDOM)
      end
  | None => (log (ObsSourceFault s) a, - EINVAL)
  end.

Definition sd_event_source_get_io_fd (s : sd_event_source) (a : Aur) : Aur * Z :=
  match sources a !! s with
  | Some src =>
      match src_kind src with
      | SrcIO fd _ => (a, fd)
      | _ => (a, - EDOM)
      end
  | None => (log (ObsSourceFault s) a, - EINVAL)
  end.

Definition sd_event_source_unref (s : sd_event_source) (a : Aur) : Aur :=
  match sources a !! s with
  | Some _ => set_sources (delete s) a
  | None => log (ObsSourceFault s) a
  end.

(** [ok] is whether the registration succeeds (it can fail, for instance
    for lack of memory or an [epoll] error). *)
Definition sd_event_add_io (ok : bool) (fd events : Z) (a : Aur) : Aur * option sd_event_source :=
  if ok
  then (new_source {| src_kind := SrcIO fd events; src_enabled := SD_EVENT_ON |} a,
        Some (next_source a))
  else (a, None).

Definition sd_event_add_time (ok : bool) (usec : Z) (a : Aur) : Aur * option sd_event_source :=
  if ok
  then (new_source {| src_kind := SrcTime usec; src_enabled := SD_EVENT_ONESHOT |} a,
        Some (next_source a))
  else (a, None).

(** [QueueCloneRequest] ignores the result of [sd_event_add_child] and uses
    the source it is given; the model takes the registration to succeed. *)
Definition sd_event_add_child (pid : positive) (userdata : handler_ptr) (a : Aur)
    : Aur * sd_event_source :=
  (new_source {| src_kind := SrcChild pid userdata; src_enabled := SD_EVENT_ONESHOT |} a,
   next_source a).

Definition sd_event_exit (code : Z) (a : Aur) : Aur * Z :=
  if finished a then (a, - ESTALE)
  else (set_exit true code false a, 0).

(** [None] stands for [-ENODATA]: no exit was requested and [*code] is
    left alone. *)
Definition sd_event_get_exit_code (a : Aur) : option Z :=
  if exit_requested a then Some (exit_code a) else None.

(** ** libcurl *)

Definition CURLM_OK : Z := 0.
Definition CURLINFO_HEADER_OUT : Z := 2.

Definition curl_easy_cleanup (c : CURL) (a : Aur) : Aur :=
  set_easies (delete c) a.

Definition curl_multi_info_read (a : Aur) : Aur * option (CURL * Z) :=
  match multi_msgs a with
  | [] => (a, None)
  | m :: rest => (set_multi id (λ _, rest) a, Some m)
  end.

(** ** ResponseHandler *)

Definition delete_handler (h : handler_ptr) (a : Aur) : Aur :=
  match heap a !! h with
  | Some _ => log (ObsDelete h) (set_heap (delete h) a)
  | None => log (ObsHandlerFault h) a
  end.

(** [ResponseHandler::RunCallback]: run the callback, then [delete this].
    Calling it through a dangling pointer is recorded as
    [ObsHandlerFault]. *)
Definition RunCallback (h : handler_ptr) (status : Z) (error : string) (a : Aur) : Aur * Z :=
  match heap a !! h with
  | Some hd =>
      let r := Run hd status error in
      let a := log (ObsCallback h {| rw_value := MakeResponse hd; rw_status := status;
                                     rw_error := error |} r) a in
      (delete_handler h a, r)
  | None => (log (ObsHandlerFault h) a, 0)
  end.

(** [ResponseHandler::BodyCallback]; the return value is the number of
    bytes taken, which is all of them. *)
Definition BodyCallback (data : string) (userdata : handler_ptr) (a : Aur) : Aur :=
  match heap a !! userdata with
  | Some hd =>
      set_heap <[userdata := {| body := body hd +:+ data; error_buffer := error_buffer hd;
                                htype := htype hd; callback_ := callback_ hd |}]> a
  | None => log (ObsHandlerFault userdata) a
  end.

(** [ResponseHandler::DebugCallback]; [userdata] is [&debug_stream_]. *)
Definition DebugCallback (type : Z) (data : string) (a : Aur) : Aur :=
  if decide (type ≠ CURLINFO_HEADER_OUT) then a else log (ObsDebugWrite data) a.

(** libcurl writing a message into the buffer given as
    [CURLOPT_ERRORBUFFER]. *)
Definition write_error_buffer (msg : string) (h : handler_ptr) (a : Aur) : Aur :=
  match heap a !! h with
  | Some hd =>
      set_heap <[h := {| body := body hd; error_buffer := msg;
                         htype := htype hd; callback_ := callback_ hd |}]> a
  | None => log (ObsHandlerFault h) a
  end.

(** [ResponseHandler::aur]: reading [handler->aur_]. *)
Definition handler_aur (h : handler_ptr) (a : Aur) : Aur :=
  match heap a !! h with
  | Some _ => a
  | None => log (ObsHandlerFault h) a
  end.

(** Reading [handler->error_buffer]. *)
Definition read_error_buffer (h : handler_ptr) (a : Aur) : Aur * string :=
  match heap a !! h with
  | Some hd => (a, error_buffer hd)
  | None => (log (ObsHandlerFault h) a, "")
  end.

Definition emplace `{Countable K} {V} (k : K) (v : V) (m : gmap K V) : gmap K V :=
  match m !! k with
  | Some _ => m
  | None => <[k := v]> m
  end.

(** ** Aur *)

(** [Aur::Aur]; [debug] is the value of the environment variable
    AURACLE_DEBUG (empty when unset). *)
Definition Aur_new (baseurl : string) (debug : string) : Aur :=
  let '(level, stream) :=
    match ConsumePrefix debug "requests:" with
    | Some path => (DEBUG_REQUESTS, Some path)
    | None => if decide (debug ≠ "") then (DEBUG_VERBOSE_STDERR, None) else (DEBUG_NONE, None)
    end in
  {| baseurl_ := baseurl; debug_level_ := level; debug_stream_ := stream;
     active_requests_ := ∅; active_io_ := ∅; translate_fds_ := ∅; timer_ := None;
     sources := ∅; next_source := 0;
     exit_requested := false; exit_code := 0; finished := false;
     easies := ∅; next_easy := 0; multi_handles := ∅; multi_msgs := [];
     heap := ∅; next_handler := 0; trace := [] |}.

Definition action_to_revents (action : Z) : Z :=
  if decide (action = CURL_POLL_IN) then EPOLLIN
  else if decide (action = CURL_POLL_OUT) then EPOLLOUT
  else if decide (action = CURL_POLL_INOUT) then Z.lor EPOLLIN EPOLLOUT
  else 0.

Definition close (fd : Z) (a : Aur) : Aur := log (ObsClose fd) a.

(** [Aur::SocketCallback].  [dupfd] is what [fcntl(s, F_DUPFD_CLOEXEC, 3)]
    returns and [add_ok] whether [sd_event_add_io] succeeds, should the
    call get there. *)
Definition SocketCallback (dupfd : Z) (add_ok : bool) (s : Z) (action : Z) (a : Aur) : Aur * Z :=
  let io := active_io_ a !! s in
  let a :=
    if decide (action = CURL_POLL_REMOVE) then
      match io with
      | Some io =>
          let '(a, fd) := sd_event_source_get_io_fd io a in
          let '(a, _) := sd_event_source_set_enabled io SD_EVENT_OFF a in
          let a := sd_event_source_unref io a in
          let a := set_active_io (delete s) a in
          let a := set_translate_fds (delete fd) a in
          close fd a
      | None => a
      end
    else a in
  let events := action_to_revents action in
  match io with
  | Some io =>
      let '(a, r) := sd_event_source_set_io_events io events a in
      if r <? 0 then (a, -1) else
      let '(a, r) := sd_event_source_set_enabled io SD_EVENT_ON a in
      if r <? 0 then (a, -1) else (a, 0)
  | None =>
      let fd := dupfd in
      if fd <? 0 then (a, -1) else
      match sd_event_add_io add_ok fd events a with
      | (a, None) => (a, -1)
      | (a, Some io) =>
          let a := set_active_io (emplace s io) a in
          let a := set_translate_fds (emplace fd s) a in
          (a, 0)
      end
  end.

(** The 64-bit integers of [std::chrono] and of sd-event: a value that
    does not fit wraps around. *)
Definition to_int64 (z : Z) : Z := (z + 2 ^ 63) mod 2 ^ 64 - 2 ^ 63.
Definition to_uint64 (z : Z) : Z := z mod 2 ^ 64.

(** [steady_clock::now() + std::chrono::milliseconds(timeout_ms)]: the
    clock counts nanoseconds, so the milliseconds are converted to
    nanoseconds and added, both in [int64_t]. *)
Definition steady_clock_plus_ms (now : Z) (timeout_ms : Z) : Z :=
  to_int64 (now + to_int64 (1000000 * timeout_ms)).

(** [TimepointTo<std::chrono::microseconds>] on a time point of
    [steady_clock]: the cast divides the nanoseconds by 1000, rounding
    towards zero. *)
Definition TimepointTo_usec (tp : Z) : Z := tp ÷ 1000.

(** [Aur::TimerCallback]; [now] is the reading of the steady clock, in
    nanoseconds.  sd-event takes the deadline as a [uint64_t]. *)
Definition TimerCallback (now : Z) (add_ok : bool) (timeout_ms : Z) (a : Aur) : Aur * Z :=
  if timeout_ms <? 0 then
    match timer_ a with
    | Some t =>
        let '(a, r) := sd_event_source_set_enabled t SD_EVENT_OFF a in
        if r <? 0 then (a, -1) else (a, 0)
    | None => (a, 0)
    end
  else
    let usec := TimepointTo_usec (steady_clock_plus_ms now timeout_ms) in
    match timer_ a with
    | Some t =>
        let '(a, r) := sd_event_source_set_time t (to_uint64 usec) a in
        if r <? 0 then (a, -1) else
        let '(a, r) := sd_event_source_set_enabled t SD_EVENT_ONESHOT a in
        if r <? 0 then (a, -1) else (a, 0)
    | None =>
        match sd_event_add_time add_ok (to_uint64 usec) a with
        | (a, None) => (a, -1)
        | (a, Some t) => (set_timer (Some t) a, 0)
        end
    end.

(** ** Requests (external collaborators) *)

(** Modelled from the spec: the request classes are declared outside the
    sources; every request exposes [Build(baseUrl)], a sequence of URL
    strings, and a clone request also names its repository. *)
Record HttpRequest := {
  Build : string → list string;
}.

Record CloneRequest := {
  reponame : string;
  clone_Build : string → list string;
}.

Record RequestTraits := {
  ResponseHandlerType : HandlerType;
  kEncoding : string;
}.

Definition RpcRequestTraits : RequestTraits :=
  {| ResponseHandlerType := RpcResponseHandler; kEncoding := "" |}.
Definition RawRequestTraits : RequestTraits :=
  {| ResponseHandlerType := RawResponseHandler; kEncoding := "" |}.
Definition TarballRequestTraits : RequestTraits :=
  {| ResponseHandlerType := RawResponseHandler; kEncoding := "identity" |}.

(** ** What happens around the engine *)

(** One thing libcurl does while the engine is inside
    [curl_multi_add_handle] or [curl_multi_socket_action]: it calls the
    socket callback (with what [fcntl] and [sd_event_add_io] will answer)
    or the timer callback (with the reading of the clock, in nanoseconds,
    and what [sd_event_add_time] will answer), hands body bytes or debug
    data of a transfer to the engine, writes a transfer's error buffer, or
    reports a transfer done. *)
Inductive CurlAct :=
| CaSocket (s : Z) (action : Z) (dupfd : Z) (add_ok : bool)
| CaTimer (timeout_ms : Z) (now : Z) (add_ok : bool)
| CaBody (c : CURL) (data : string)
| CaDebug (c : CURL) (type : Z) (data : string)
| CaError (c : CURL) (msg : string)
| CaDone (c : CURL) (result : Z) (response_code : Z).

(** One thing libcurl does while the engine is inside
    [curl_multi_remove_handle]: it tells the engine, through the socket
    callback, that a socket of the transfer is gone, or, through the timer
    callback, what its timer is to be.  It moves no data there and reports
    nothing done. *)
Inductive CurlNotice :=
| NtSocket (s : Z) (action : Z) (dupfd : Z) (add_ok : bool)
| NtTimer (timeout_ms : Z) (now : Z) (add_ok : bool).

Definition notice_act (n : CurlNotice) : CurlAct :=
  match n with
  | NtSocket s action dupfd add_ok => CaSocket s action dupfd add_ok
  | NtTimer timeout_ms now add_ok => CaTimer timeout_ms now add_ok
  end.

(** All of one [curl_multi_socket_action] call, and the code it returns. *)
Record CurlReaction := {
  acts : list CurlAct;
  mcode : Z;
}.

(** What one [sd_event_run] call finds.  For a socket or the timer it
    comes with libcurl's part: [reaction sockfd ev_bitmask] is what libcurl
    does when the engine calls [curl_multi_socket_action] with these
    arguments. *)
Inductive Event :=
| EvNothing
| EvFail (errno : positive)
| EvIO (source : sd_event_source) (revents : Z) (reaction : Z → Z → CurlReaction)
| EvTimer (source : sd_event_source) (reaction : Z → Z → CurlReaction)
| EvChild (source : sd_event_source) (si_status : Z).

Inductive ForkResult :=
| ForkFailed (errno : positive)
| Forked (pid : positive).

(** The operating system as [QueueCloneRequest] meets it. *)
Record CloneEnv := {
  fs_exists : string → bool;
  fork : ForkResult;
}.

(** The chain of [if]s in [Aur::OnCurlIO]: the reactor's event mask
    translated into the action handed to libcurl. *)
Definition revents_to_action (revents : Z) : Z :=
  if decide (Z.land revents (Z.lor EPOLLIN EPOLLOUT) = Z.lor EPOLLIN EPOLLOUT)
  then CURL_POLL_INOUT
  else if decide (Z.land revents EPOLLIN ≠ 0) then CURL_POLL_IN
  else if decide (Z.land revents EPOLLOUT ≠ 0) then CURL_POLL_OUT
  else 0.

(** ** libcurl calling the engine *)

Definition pending (c : CURL) (a : Aur) : bool :=
  bool_decide (c ∈ (multi_msgs a).*1).

(** An easy handle libcurl is still transferring: added to the multi
    handle and not yet reported done. *)
Definition in_flight (c : CURL) (a : Aur) : option Easy :=
  if bool_decide (c ∈ multi_handles a) && negb (pending c a) then easies a !! c else None.

Definition set_response_code (code : Z) (e : Easy) : Easy :=
  {| opt_url := opt_url e; opt_writedata := opt_writedata e; opt_private := opt_private e;
     opt_errorbuffer := opt_errorbuffer e; opt_accept_encoding := opt_accept_encoding e;
     opt_connecttimeout := opt_connecttimeout e; opt_useragent := opt_useragent e;
     opt_debugfunction := opt_debugfunction e; opt_verbose := opt_verbose e;
     info_response_code := code |}.

Definition curl_act (act : CurlAct) (a : Aur) : Aur :=
  match act with
  | CaSocket s action dupfd add_ok => (SocketCallback dupfd add_ok s action a).1
  | CaTimer timeout_ms now add_ok => (TimerCallback now add_ok timeout_ms a).1
  | CaBody c data =>
      match in_flight c a with
      | Some e => BodyCallback data (opt_writedata e) a
      | None => a
      end
  | CaDebug c type data =>
      match in_flight c a with
      | Some e => if opt_debugfunction e then DebugCallback type data a else a
      | None => a
      end
  | CaError c msg =>
      match in_flight c a with
      | Some e => write_error_buffer msg (opt_errorbuffer e) a
      | None => a
      end
  | CaDone c result response_code =>
      match in_flight c a with
      | Some e =>
          set_multi id (λ q, q ++ [(c, result)])
            (set_easies <[c := set_response_code response_code e]> a)
      | None => a
      end
  end.

(** The engine after libcurl has told it [notices]. *)
Definition notified (notices : list CurlNotice) (a : Aur) : Aur :=
  foldl (λ a act, curl_act act a) a (notice_act <$> notices).

(** [curl_multi_remove_handle]: the handle leaves the multi handle, and
    with it the completion message it may still have in the queue; then
    libcurl tells the engine which sockets are gone and what its timer is
    to be.  [notices] is what it tells before it returns. *)
Definition curl_multi_remove_handle (notices : list CurlNotice) (c : CURL) (a : Aur) : Aur :=
  notified notices (set_multi (λ hs, hs ∖ {[c]}) (filter (λ m, m.1 ≠ c)) a).

Section Engine.

(** What libcurl does inside [curl_multi_remove_handle], for each
    handle. *)
Variable on_remove : CURL → list CurlNotice.

(** The message tables of libcurl and of the C library. *)
Variable curl_easy_strerror : Z → string.
Variable strerror : positive → string.

(** [Aur::FinishRequest] on a [CURL] handle. *)
Definition FinishRequest_curl (curl : CURL) (result : Z) (dispatch_callback : bool) (a : Aur)
    : Aur * Z :=
  match easies a !! curl with
  | None =>
      (* not a live easy handle *)
      (set_active_requests (λ s, s ∖ {[ReqCurl curl]}) (log (ObsCurlFault curl) a), 0)
  | Some e =>
      let handler := opt_private e in
      let '(a, r) :=
        if dispatch_callback then
          let response_code := info_response_code e in
          let '(a, error) :=
            if decide (result ≠ CURLE_OK) then
              let '(a, error) := read_error_buffer handler a in
              if decide (error = "") then (a, curl_easy_strerror result) else (a, error)
            else (a, "") in
          RunCallback handler response_code error a
        else (delete_handler handler a, 0) in
      let a := set_active_requests (λ s, s ∖ {[ReqCurl curl]}) a in
      let a := curl_multi_remove_handle (on_remove curl) curl a in
      let a := curl_easy_cleanup curl a in
      (a, r)
  end.

(** [Aur::FinishRequest] on an [sd_event_source]. *)
Definition FinishRequest_source (source : sd_event_source) (a : Aur) : Aur * Z :=
  let a := set_active_requests (λ s, s ∖ {[ReqSource source]}) a in
  let a := sd_event_source_unref source a in
  (a, 0).

(** [Aur::Cancel]. *)
Definition Cancel (request : ActiveRequest) (a : Aur) : Aur :=
  match request with
  | ReqCurl curl => (FinishRequest_curl curl CURLE_ABORTED_BY_CALLBACK false a).1
  | ReqSource source => (FinishRequest_source source a).1
  end.

(** The loop of [Aur::CancelAll]: [*active_requests_.begin()] is the first
    element in the set's iteration order. *)
Fixpoint CancelAll_loop (fuel : nat) (a : Aur) : option Aur :=
  match head (elements (active_requests_ a)) with
  | None => Some a
  | Some request =>
      match fuel with
      | O => None
      | S fuel => CancelAll_loop fuel (Cancel request a)
      end
  end.

(** [Aur::CancelAll].  Every iteration removes the request it cancels, so
    the loop ends within as many iterations as the set has members
    ([CancelAll_loop_total]). *)
Definition CancelAll (a : Aur) : Aur :=
  let a := default a (CancelAll_loop (size (active_requests_ a)) a) in
  (sd_event_exit 1 a).1.

(** The loop of [Aur::CheckFinished]. *)
Fixpoint CheckFinished_loop (fuel : nat) (a : Aur) : option (Aur * Z) :=
  match curl_multi_info_read a with
  | (a, None) => Some (a, 0)
  | (a, Some (easy_handle, result)) =>
      match fuel with
      | O => None
      | S fuel =>
          let '(a, r) := FinishRequest_curl easy_handle result true a in
          if r <? 0 then Some (CancelAll a, r)
          else CheckFinished_loop fuel a
      end
  end.

(** [Aur::CheckFinished].  Every iteration takes a message off libcurl's
    queue, so the loop ends within as many iterations as there are
    messages ([CheckFinished_loop_total]). *)
Definition CheckFinished (a : Aur) : Aur * Z :=
  default (a, 0) (CheckFinished_loop (length (multi_msgs a)) a).

(** *** libcurl at work *)

(** [curl_multi_add_handle]: the handle joins the multi handle, and
    libcurl may at once ask the engine for a timer or for sockets;
    [reaction] is what it does before it returns. *)
Definition curl_multi_add_handle (reaction : list CurlAct) (c : CURL) (a : Aur) : Aur :=
  foldl (λ a act, curl_act act a) (set_multi (λ hs, {[c]} ∪ hs) id a) reaction.

(** [curl_multi_socket_action]: libcurl, told that [sockfd] has the events
    [ev_bitmask], acts on the transfers it holds (it never touches a handle
    that is not in the multi handle or that it has already reported done)
    and returns a code. *)
Definition curl_multi_socket_action (reaction : Z → Z → CurlReaction) (sockfd : Z)
    (ev_bitmask : Z) (a : Aur) : Aur * Z :=
  let r := reaction sockfd ev_bitmask in
  (foldl (λ a act, curl_act act a) a (acts r), mcode r).

(** [Aur::OnCurlIO]. *)
Definition OnCurlIO (reaction : Z → Z → CurlReaction) (fd : Z) (revents : Z) (a : Aur)
    : Aur * Z :=
  (* [translate_fds_[fd]] default-constructs a missing entry *)
  let translated_fd := default 0 (translate_fds_ a !! fd) in
  let a := set_translate_fds (emplace fd 0) a in
  let action := revents_to_action revents in
  let '(a, rc) := curl_multi_socket_action reaction translated_fd action a in
  if decide (rc ≠ CURLM_OK) then (a, - EINVAL)
  else CheckFinished a.

(** [Aur::OnCurlTimer]. *)
Definition OnCurlTimer (reaction : Z → Z → CurlReaction) (a : Aur) : Aur * Z :=
  let '(a, rc) := curl_multi_socket_action reaction CURL_SOCKET_TIMEOUT 0 a in
  if decide (rc ≠ CURLM_OK) then (a, - EINVAL)
  else CheckFinished a.

(** [Aur::OnCloneExit]. *)
Definition OnCloneExit (source : sd_event_source) (si_status : Z) (userdata : handler_ptr)
    (a : Aur) : Aur * Z :=
  let handler := userdata in
  let a := (FinishRequest_source source (handler_aur handler a)).1 in
  let error :=
    if decide (si_status ≠ 0)
    then "git exited with unexpected exit status " +:+ to_string si_status
    else "" in
  RunCallback handler si_status error a.

(** *** The reactor *)

(** sd-event switches a one-shot source off before it calls its handler. *)
Definition oneshot_off (s : sd_event_source) (enabled : Z) (a : Aur) : Aur :=
  if decide (enabled = SD_EVENT_ONESHOT) then (sd_event_source_set_enabled s SD_EVENT_OFF a).1
  else a.

(** sd-event after the handler of [s] returned [r]: the value is logged
    and dropped, and a source that is still there is switched off when its
    handler failed. *)
Definition after_dispatch (s : sd_event_source) (r : Z) (a : Aur) : Aur :=
  if r <? 0 then
    match sources a !! s with
    | Some _ => (sd_event_source_set_enabled s SD_EVENT_OFF a).1
    | None => a
    end
  else a.

(** One event reaching the loop.  Only a source that is registered and
    enabled is dispatched; the result is what [sd_event_run] returns. *)
Definition sd_event_dispatch (ev : Event) (a : Aur) : Aur * Z :=
  match ev with
  | EvNothing => (a, 0)
  | EvFail errno => (a, - Z.pos errno)
  | EvIO s revents reaction =>
      match sources a !! s with
      | Some {| src_kind := SrcIO fd _; src_enabled := en |} =>
          if decide (en = SD_EVENT_OFF) then (a, 0) else
          let a := oneshot_off s en a in
          let '(a, r) := OnCurlIO reaction fd revents a in
          (after_dispatch s r a, 1)
      | _ => (a, 0)
      end
  | EvTimer s reaction =>
      match sources a !! s with
      | Some {| src_kind := SrcTime _; src_enabled := en |} =>
          if decide (en = SD_EVENT_OFF) then (a, 0) else
          let a := oneshot_off s en a in
          let '(a, r) := OnCurlTimer reaction a in
          (after_dispatch s r a, 1)
      | _ => (a, 0)
      end
  | EvChild s si_status =>
      match sources a !! s with
      | Some {| src_kind := SrcChild _ userdata; src_enabled := en |} =>
          if decide (en = SD_EVENT_OFF) then (a, 0) else
          let a := oneshot_off s en a in
          let '(a, r) := OnCloneExit s si_status userdata a in
          (after_dispatch s r a, 1)
      | _ => (a, 0)
      end
  end.

(** [sd_event_run(event_, 0)].  A finished loop refuses to run; a loop
    asked to exit finishes; otherwise the next event of the script is
    handled.  [None]: the script has no more events to offer. *)
Definition sd_event_run (script : list Event) (a : Aur) : option (Aur * Z * list Event) :=
  if finished a then Some (a, - ESTALE, script)
  else if exit_requested a then Some (set_exit true (exit_code a) true a, 1, script)
  else
    match script with
    | [] => None
    | ev :: rest => let '(a, r) := sd_event_dispatch ev a in Some (a, r, rest)
    end.

(** The loop of [Aur::Wait].  The boolean tells whether the loop was left
    ([true]) or is still waiting for events the script does not have
    ([false]). *)
Fixpoint Wait_loop (fuel : nat) (script : list Event) (a : Aur)
    : option (Aur * list Event * bool) :=
  if decide (active_requests_ a = ∅) then Some (a, script, true)
  else
    match fuel with
    | O => None
    | S fuel =>
        match sd_event_run script a with
        | None => Some (a, script, false)
        | Some (a', r, rest) =>
            if r <? 0 then Some (a', rest, true)
            else Wait_loop fuel rest a'
        end
    end.

(** [Aur::Wait] against a script of events: the state when it returns,
    the events it did not consume, and the value returned ([None] while it
    is still in its loop).  The loop makes at most two more rounds than the
    script has events ([Wait_loop_total]). *)
Definition Wait (script : list Event) (a : Aur) : Aur * list Event * option Z :=
  match Wait_loop (length script + 2) script a with
  | Some (a, rest, true) =>
      let r := default 0 (sd_event_get_exit_code a) in
      (a, rest, Some (- r))
  | Some (a, rest, false) => (a, rest, None)
  | None => (a, script, None)
  end.

(** *** Submission *)

(** The body of the loop of [Aur::QueueHttpRequest<RequestTraits>], for
    the URL [r]: [curl_easy_init] and the [curl_easy_setopt] calls build
    the easy handle.  [libcurl c] is what libcurl does inside
    [curl_multi_add_handle] for the handle [c]. *)
Definition QueueHttpRequest_body (traits : RequestTraits) (libcurl : CURL → list CurlAct)
    (callback : Callback) (a : Aur) (r : string) : Aur :=
  let curl := next_easy a in
  let response_handler := next_handler a in
  let a := new_handler {| body := ""; error_buffer := "";
                          htype := ResponseHandlerType traits;
                          callback_ := callback |} a in
  let a := new_easy {| opt_url := r;
                       opt_writedata := response_handler;
                       opt_private := response_handler;
                       opt_errorbuffer := response_handler;
                       opt_accept_encoding := kEncoding traits;
                       opt_connecttimeout := 10;
                       opt_useragent := "Auracle/0";
                       opt_debugfunction :=
                         match debug_level_ a with DEBUG_REQUESTS => true | _ => false end;
                       opt_verbose :=
                         match debug_level_ a with DEBUG_NONE => false | _ => true end;
                       info_response_code := 0 |} a in
  let a := curl_multi_add_handle (libcurl curl) curl a in
  set_active_requests (λ s, {[ReqCurl curl]} ∪ s) a.

(** [Aur::QueueHttpRequest<RequestTraits>]. *)
Definition QueueHttpRequest (traits : RequestTraits) (libcurl : CURL → list CurlAct)
    (request : HttpRequest) (callback : Callback) (a : Aur) : Aur :=
  foldl (QueueHttpRequest_body traits libcurl callback) a (Build request (baseurl_ a)).

Definition QueueRawRequest := QueueHttpRequest RawRequestTraits.
Definition QueueRpcRequest := QueueHttpRequest RpcRequestTraits.
Definition QueueTarballRequest := QueueHttpRequest TarballRequestTraits.

(** The child side of the [fork] in [QueueCloneRequest]: the argument
    vector handed to [execvp].  [None]: [Build] returned no URL and taking
    its first element is undefined. *)
Definition git_argv (update : bool) (request : CloneRequest) (baseurl : string)
    : option (list string) :=
  match clone_Build request baseurl with
  | [] => None
  | url :: _ =>
      Some ("git" :: (if update
                      then ["-C"; reponame request; "pull"; "--quiet"; "--ff-only"]
                      else ["clone"; "--quiet"; url]))
  end.

(** [Aur::QueueCloneRequest], the parent side. *)
Definition QueueCloneRequest (os : CloneEnv) (request : CloneRequest) (callback : Callback)
    (a : Aur) : Aur :=
  let update := fs_exists os (path_append (reponame request) ".git") in
  let response_handler := next_handler a in
  let a := new_handler {| body := ""; error_buffer := "";
                          htype := CloneResponseHandler (if update then "update" else "clone");
                          callback_ := callback |} a in
  match fork os with
  | ForkFailed errno =>
      (RunCallback response_handler (- Z.pos errno)
         ("failed to fork new process for git: " +:+ strerror errno) a).1
  | Forked pid =>
      let a := log (ObsExec pid (git_argv update request (baseurl_ a))) a in
      let '(a, child) := sd_event_add_child pid response_handler a in
      set_active_requests (λ s, {[ReqSource child]} ∪ s) a
  end.

(** ** Runs of the engine *)

(** A call of the public interface, with what its environment does. *)
Inductive Call :=
| CallQueueRpcRequest (libcurl : CURL → list CurlAct)
    (request : HttpRequest) (callback : Callback)
| CallQueueRawRequest (libcurl : CURL → list CurlAct)
    (request : HttpRequest) (callback : Callback)
| CallQueueTarballRequest (libcurl : CURL → list CurlAct)
    (request : HttpRequest) (callback : Callback)
| CallQueueCloneRequest (os : CloneEnv) (request : CloneRequest) (callback : Callback)
| CallCancelAll
| CallWait (script : list Event).

Definition call (c : Call) (a : Aur) : Aur :=
  match c with
  | CallQueueRpcRequest libcurl request callback =>
      QueueRpcRequest libcurl request callback a
  | CallQueueRawRequest libcurl request callback =>
      QueueRawRequest libcurl request callback a
  | CallQueueTarballRequest libcurl request callback =>
      QueueTarballRequest libcurl request callback a
  | CallQueueCloneRequest os request callback => QueueCloneRequest os request callback a
  | CallCancelAll => CancelAll a
  | CallWait script => (Wait script a).1.1
  end.

Definition run (calls : list Call) (a : Aur) : Aur :=
  foldl (λ a c, call c a) a calls.

End Engine.

(** ** Reading the log *)

(** The handlers whose callback ran, in order. *)
Definition callbacks (t : list Obs) : list handler_ptr :=
  omap (λ o, match o with ObsCallback h _ _ => Some h | _ => None end) t.

Definition handler_faults (t : list Obs) : list handler_ptr :=
  omap (λ o, match o with ObsHandlerFault h => Some h | _ => None end) t.

Definition source_faults (t : list Obs) : list sd_event_source :=
  omap (λ o, match o with ObsSourceFault s => Some s | _ => None end) t.

(** What the socket and timer callbacks can add to the log: the close of
    a descriptor and the use of a released event source. *)
Definition notice_obs (o : Obs) : Prop :=
  match o with
  | ObsClose _ | ObsSourceFault _ => True
  | _ => False
  end.

(** No released event source was used: up to here the run of the model is
    a run of the program. *)
Definition defined (a : Aur) : Prop := source_faults (trace a) = [].

(** Every callback entry of the log is directly followed by the deletion
    of the same handler. *)
Fixpoint callback_then_delete (t : list Obs) : Prop :=
  match t with
  | [] => True
  | ObsCallback h _ _ :: rest =>
      match rest with
      | ObsDelete h' :: _ => h = h' ∧ callback_then_delete rest
      | _ => False
      end
  | _ :: rest => callback_then_delete rest
  end.

(** The values the callbacks returned, in order. *)
Definition returns (t : list Obs) : list Z :=
  omap (λ o, match o with ObsCallback _ _ ret => Some ret | _ => None end) t.

(** How many times the callback of handler [h] ran. *)
Definition times_called (h : handler_ptr) (t : list Obs) : nat :=
  length (filter (λ h', h' = h) (callbacks t)).

(** How many callbacks of the handlers [hs] ran. *)
Definition times_called_among (hs : list handler_ptr) (t : list Obs) : nat :=
  length (filter (λ h', h' ∈ hs) (callbacks t)).

(** ** What a submission creates *)

(** The options set on an easy handle (all of it but the response code,
    which libcurl fills in). *)
Definition options (e : Easy) :=
  (opt_url e, opt_writedata e, opt_private e, opt_errorbuffer e, opt_accept_encoding e,
   opt_connecttimeout e, opt_useragent e, opt_debugfunction e, opt_verbose e).

(** The transfers, the handlers and the Active Request Set: the part of
    the state that libcurl's socket and timer notifications leave alone. *)
Definition submissions (a : Aur) :=
  (easies a, next_easy a, heap a, next_handler a, active_requests_ a, multi_handles a,
   multi_msgs a).

(** [steady a a']: from [a] to [a'] nothing was submitted, finished or
    cancelled; every transfer keeps its options and every handler its type
    and callback. *)
Record steady (a a' : Aur) : Prop := {
  st_next_easy : next_easy a' = next_easy a;
  st_next_handler : next_handler a' = next_handler a;
  st_active : active_requests_ a' = active_requests_ a;
  st_multi_handles : multi_handles a' = multi_handles a;
  st_easies : ∀ c e, easies a !! c = Some e →
      ∃ e', easies a' !! c = Some e' ∧ options e' = options e;
  st_heap : ∀ h hd, heap a !! h = Some hd →
      ∃ hd', heap a' !! h = Some hd' ∧ htype hd' = htype hd ∧ callback_ hd' = callback_ hd;
}.

Arguments st_next_easy {a a'} _.
Arguments st_next_handler {a a'} _.
Arguments st_active {a a'} _.
Arguments st_multi_handles {a a'} _.
Arguments st_easies {a a'} _.
Arguments st_heap {a a'} _.

(** ** Example data

    Concrete collaborators and environments, used to run the engine on
    explicit inputs. *)

(** libcurl built without verbose strings describes every failure as
    "Error". *)
Definition example_curl_strerror (code : Z) : string :=
  if decide (code = CURLE_OK) then "No error" else "Error".

Definition example_strerror (errno : positive) : string :=
  if decide (errno = 11%positive) then "Resource temporarily unavailable"
  else "Cannot allocate memory".

Definition example_baseurl : string := "https://aur.archlinux.org".

(** A freshly constructed engine, AURACLE_DEBUG unset. *)
Definition example_engine : Aur := Aur_new example_baseurl "".

(** An RPC request for one package: one URL. *)
Definition example_request : HttpRequest :=
  {| Build := λ b, [b +:+ "/rpc?v=5&type=info&arg[]=auracle-git"] |}.

Definition example_clone_request : CloneRequest :=
  {| reponame := "auracle-git"; clone_Build := λ b, [b +:+ "/auracle-git.git"] |}.

(** libcurl asking for an immediate timeout when a handle is added (the
    clock reads 1000000 nanoseconds). *)
Definition example_libcurl (c : CURL) : list CurlAct := [CaTimer 0 1000000 true].

(** libcurl switching its timer off when a handle is removed. *)
Definition example_removal (c : CURL) : list CurlNotice := [NtTimer (-1) 2000000 true].

(** [fork] fails with EAGAIN (11); nothing is checked out yet. *)
Definition example_fork_failure : CloneEnv :=
  {| fs_exists := λ _, false; fork := ForkFailed 11 |}.

(** [fork] succeeds; nothing is checked out yet. *)
Definition example_fork_fresh : CloneEnv :=
  {| fs_exists := λ _, false; fork := Forked 4242 |}.

(** [fork] succeeds; the repository is checked out already. *)
Definition example_fork_existing : CloneEnv :=
  {| fs_exists := λ p, bool_decide (p = "auracle-git/.git"); fork := Forked 4242 |}.

(** libcurl, called for its timeout, finding that it cannot resolve the
    host: the transfer of handle 0 is done with result 6
    (CURLE_COULDNT_RESOLVE_HOST) before any socket is opened. *)
Definition example_reaction_unresolved (sockfd ev_bitmask : Z) : CurlReaction :=
  {| acts := [CaError 0 "Could not resolve host: aur.archlinux.org"; CaDone 0 6 0];
     mcode := CURLM_OK |}.

(** The reactor sees the timer (event source 0) fire. *)
Definition example_script : list Event := [EvTimer 0 example_reaction_unresolved].

(** A request for two tarballs: two URLs. *)
Definition example_request2 : HttpRequest :=
  {| Build := λ b, [b +:+ "/cgit/aur.git/snapshot/auracle-git.tar.gz";
                    b +:+ "/cgit/aur.git/snapshot/pacman-git.tar.gz"] |}.

(** An RPC request and a clone request are submitted; the timer libcurl
    asked for is event source 0, the child watch is event source 1. *)
Definition example_calls : list Call :=
  [CallQueueRpcRequest example_libcurl example_request (λ _, 0);
   CallQueueCloneRequest example_fork_fresh example_clone_request (λ _, 0)].

(** ** The handler a request is paired with *)

Definition easy_handler (a : Aur) (c : CURL) : option handler_ptr :=
  opt_private <$> easies a !! c.

Definition child_handler (a : Aur) (s : sd_event_source) : option handler_ptr :=
  match sources a !! s with
  | Some src =>
      match src_kind src with
      | SrcChild _ userdata => Some userdata
      | _ => None
      end
  | None => None
  end.

(** [CURLINFO_PRIVATE] of a transfer, the [userdata] of a child watch. *)
Definition handler_of (a : Aur) (r : ActiveRequest) : option handler_ptr :=
  match r with
  | ReqCurl c => easy_handler a c
  | ReqSource s => child_handler a s
  end.

(** ** The invariant of the engine

    [Hinv X T a]: every handler a transfer or a child watch points to is
    alive and no two point to the same one; a handler whose callback ran
    is gone; the log has each callback once, followed by the deletion, and
    no use of a dead handler; the loop's exit code, once requested, is 1.
    [X] is a set of handlers that were allocated, are referenced by
    nothing and have not been called; [T] is a prefix of the log. *)
Record Hinv (X : handler_ptr → Prop) (T : list Obs) (a : Aur) : Prop := {
  hi_live : ∀ r h, handler_of a r = Some h → is_Some (heap a !! h);
  hi_inj : ∀ r1 r2 h, handler_of a r1 = Some h → handler_of a r2 = Some h → r1 = r2;
  hi_same : ∀ c e, easies a !! c = Some e →
      opt_writedata e = opt_private e ∧ opt_errorbuffer e = opt_private e;
  hi_bound : ∀ h, is_Some (heap a !! h) → (h < next_handler a)%nat;
  hi_called : ∀ h, h ∈ callbacks (trace a) → heap a !! h = None ∧ (h < next_handler a)%nat;
  hi_nodup : NoDup (callbacks (trace a));
  hi_paired : callback_then_delete (trace a);
  hi_no_fault : handler_faults (trace a) = [];
  hi_X : ∀ h, X h →
      (h < next_handler a)%nat ∧ (h ∉ callbacks (trace a)) ∧ (∀ r, handler_of a r ≠ Some h);
  hi_prefix : T `prefix_of` (trace a);
  hi_exit_code : exit_requested a = true → exit_code a = 1;
  hi_finished : finished a = true → exit_requested a = true;
}.

Arguments hi_live {X T a} _.
Arguments hi_inj {X T a} _.
Arguments hi_same {X T a} _.
Arguments hi_bound {X T a} _.
Arguments hi_called {X T a} _.
Arguments hi_nodup {X T a} _.
Arguments hi_paired {X T a} _.
Arguments hi_no_fault {X T a} _.
Arguments hi_X {X T a} _.
Arguments hi_prefix {X T a} _.
Arguments hi_exit_code {X T a} _.
Arguments hi_finished {X T a} _.

(** [quiet a a']: from [a] to [a'] no handler was allocated, deleted or
    called, references to handlers were at most dropped, and the loop's
    exit state is the same. *)
Record quiet (a a' : Aur) : Prop := {
  q_easy : ∀ c e', easies a' !! c = Some e' →
      ∃ e, easies a !! c = Some e ∧ opt_private e' = opt_private e ∧
           opt_writedata e' = opt_writedata e ∧ opt_errorbuffer e' = opt_errorbuffer e;
  q_child : ∀ s h, child_handler a' s = Some h → child_handler a s = Some h;
  q_heap : ∀ h, is_Some (heap a' !! h) ↔ is_Some (heap a !! h);
  q_next : next_handler a' = next_handler a;
  q_trace : ∃ t, trace a' = trace a ++ t ∧ callbacks t = [] ∧ handler_faults t = [];
  q_exit_requested : exit_requested a' = exit_requested a;
  q_exit_code : exit_code a' = exit_code a;
  q_finished : finished a' = finished a;
}.

Arguments q_easy {a a'} _.
Arguments q_child {a a'} _.
Arguments q_heap {a a'} _.
Arguments q_next {a a'} _.
Arguments q_trace {a a'} _.
Arguments q_exit_requested {a a'} _.
Arguments q_exit_code {a a'} _.
Arguments q_finished {a a'} _.

(** ** The environment *)

(** [GetEnv]: the value of an environment variable, empty when it is
    unset. *)
Definition GetEnv (env : gmap string string) (name : string) : string :=
  default "" (env !! name).

(** ** Steps that only touch response handlers *)

(** All of the state but the heap of handlers and the log. *)
Definition engine_frame (a : Aur) :=
  (baseurl_ a, debug_level_ a, debug_stream_ a, active_requests_ a, active_io_ a,
   translate_fds_ a, timer_ a, sources a, next_source a, exit_requested a, exit_code a,
   finished a, easies a, next_easy a, multi_handles a, multi_msgs a, next_handler a).

Definition handler_obs (o : Obs) : Prop :=
  match o with
  | ObsCallback _ _ _ | ObsDelete _ | ObsHandlerFault _ => True
  | _ => False
  end.

(** [handler_step a a']: from [a] to [a'] only handlers were written,
    called or deleted. *)
Record handler_step (a a' : Aur) : Prop := {
  hs_frame : engine_frame a' = engine_frame a;
  hs_trace : ∃ t, trace a' = trace a ++ t ∧ Forall handler_obs t;
}.

Arguments hs_frame {a a'} _.
Arguments hs_trace {a a'} _.

(** ** Views of the state *)

(** The registration of the shared timer, if there is one. *)
Definition timer_state (a : Aur) : option Source :=
  match timer_ a with
  | Some t => sources a !! t
  | None => None
  end.

(** A handler after [data] was appended to its body. *)
Definition with_body (hd : ResponseHandler) (data : string) : ResponseHandler :=
  {| body := body hd +:+ data; error_buffer := error_buffer hd;
     htype := htype hd; callback_ := callback_ hd |}.

(** The two tables [SocketCallback] keeps. *)
Definition fd_tables (a : Aur) := (active_io_ a, translate_fds_ a).

(** What libcurl does other than notifying a socket. *)
Definition not_socket (act : CurlAct) : Prop :=
  match act with
  | CaSocket _ _ _ _ => False
  | _ => True
  end.

(** ** The resources of the engine

    What the engine holds in libcurl and in the reactor, against what its
    own members say it holds. *)

Inductive SourceTag := TagIO | TagTime | TagChild.

Definition source_tag (src : Source) : SourceTag :=
  match src_kind src with
  | SrcIO _ _ => TagIO
  | SrcTime _ => TagTime
  | SrcChild _ _ => TagChild
  end.

(** The kind of the event source [s], if it is registered. *)
Definition tag_of (a : Aur) (s : sd_event_source) : option SourceTag :=
  source_tag <$> sources a !! s.

(** What the constructor fixes. *)
Definition settings (a : Aur) := (baseurl_ a, debug_level_ a, debug_stream_ a).

Definition curl_faults (t : list Obs) : list CURL :=
  omap (λ o, match o with ObsCurlFault c => Some c | _ => None end) t.

Definition debug_writes (t : list Obs) : list string :=
  omap (λ o, match o with ObsDebugWrite data => Some data | _ => None end) t.

Definition plain_obs (o : Obs) : Prop :=
  match o with
  | ObsCurlFault _ | ObsSourceFault _ | ObsDebugWrite _ => False
  | _ => True
  end.

(** Every use of a released event source in the log comes directly after
    the close of a descriptor ([after_close]: the entry before [t] was a
    close). *)
Fixpoint faults_follow_close (after_close : bool) (t : list Obs) : Prop :=
  match t with
  | [] => True
  | ObsSourceFault _ :: rest => after_close = true ∧ faults_follow_close false rest
  | ObsClose _ :: rest => faults_follow_close true rest
  | _ :: rest => faults_follow_close false rest
  end.

(** The options [QueueHttpRequest] sets the same way on every transfer. *)
Definition transfer_options (level : DebugLevel) (e : Easy) : Prop :=
  opt_connecttimeout e = 10 ∧ opt_useragent e = "Auracle/0" ∧
  opt_verbose e = match level with DEBUG_NONE => false | _ => true end ∧
  opt_debugfunction e = match level with DEBUG_REQUESTS => true | _ => false end ∧
  (opt_accept_encoding e = "" ∨ opt_accept_encoding e = "identity").

(** The transfers: the easy handles that exist are those in the multi
    handle, and those in the Active Request Set but for the ones in
    [adding], which [QueueHttpRequest] is about to enter; libcurl's
    completion messages name transfers that exist, each at most once. *)
Record Gcurl (level : DebugLevel) (adding : gset CURL) (a : Aur) : Prop := {
  gc_active : ∀ c, ReqCurl c ∈ active_requests_ a → is_Some (easies a !! c);
  gc_held : ∀ c, is_Some (easies a !! c) → ReqCurl c ∈ active_requests_ a ∨ c ∈ adding;
  gc_multi : ∀ c, c ∈ multi_handles a ↔ is_Some (easies a !! c);
  gc_msgs : ∀ c, c ∈ (multi_msgs a).*1 → is_Some (easies a !! c);
  gc_msgs_nodup : NoDup (multi_msgs a).*1;
  gc_bound : ∀ c, is_Some (easies a !! c) → (c < next_easy a)%nat;
  gc_options : ∀ c e, easies a !! c = Some e → transfer_options level e;
}.

Arguments gc_active {level adding a} _.
Arguments gc_held {level adding a} _.
Arguments gc_multi {level adding a} _.
Arguments gc_msgs {level adding a} _.
Arguments gc_msgs_nodup {level adding a} _.
Arguments gc_bound {level adding a} _.
Arguments gc_options {level adding a} _.

(** The event sources: the child watches are those in the Active Request
    Set, the I/O sources are those in [active_io_], one for each socket,
    and the only time source is [timer_]. *)
Record Gsrc (a : Aur) : Prop := {
  gs_child : ∀ s, ReqSource s ∈ active_requests_ a ↔ tag_of a s = Some TagChild;
  gs_io : ∀ s io, active_io_ a !! s = Some io → tag_of a io = Some TagIO;
  gs_io_inj : ∀ s1 s2 io,
      active_io_ a !! s1 = Some io → active_io_ a !! s2 = Some io → s1 = s2;
  gs_io_all : ∀ io, tag_of a io = Some TagIO → ∃ s, active_io_ a !! s = Some io;
  gs_timer : ∀ t, tag_of a t = Some TagTime ↔ timer_ a = Some t;
  gs_bound : ∀ s, is_Some (tag_of a s) → (s < next_source a)%nat;
}.

Arguments gs_child {a} _.
Arguments gs_io {a} _.
Arguments gs_io_inj {a} _.
Arguments gs_io_all {a} _.
Arguments gs_timer {a} _.
Arguments gs_bound {a} _.

(** The log: no cleaned-up easy handle is used, a released event source
    only directly after a close, and the debug stream is written only at
    the debug level that asks for it. *)
Record Gtrace (level : DebugLevel) (t : list Obs) : Prop := {
  gt_curl_faults : curl_faults t = [];
  gt_source_faults : faults_follow_close false t;
  gt_debug_writes : level ≠ DEBUG_REQUESTS → debug_writes t = [];
}.

Arguments gt_curl_faults {level t} _.
Arguments gt_source_faults {level t} _.
Arguments gt_debug_writes {level t} _.

Record Ginv (cfg : string * DebugLevel * option string) (adding : gset CURL) (a : Aur)
    : Prop := {
  gi_settings : settings a = cfg;
  gi_curl : Gcurl cfg.1.2 adding a;
  gi_src : Gsrc a;
  gi_trace : Gtrace cfg.1.2 (trace a);
}.

Arguments gi_settings {cfg adding a} _.
Arguments gi_curl {cfg adding a} _.
Arguments gi_src {cfg adding a} _.
Arguments gi_trace {cfg adding a} _.

(** [calm a a']: from [a] to [a'] no transfer and no event source was
    created or released, and nothing went wrong. *)
Record calm (a a' : Aur) : Prop := {
  cm_settings : settings a' = settings a;
  cm_active : active_requests_ a' = active_requests_ a;
  cm_easies : easies a' = easies a;
  cm_next_easy : next_easy a' = next_easy a;
  cm_multi_handles : multi_handles a' = multi_handles a;
  cm_multi_msgs : multi_msgs a' = multi_msgs a;
  cm_active_io : active_io_ a' = active_io_ a;
  cm_timer : timer_ a' = timer_ a;
  cm_tags : ∀ s, tag_of a' s = tag_of a s;
  cm_next_source : next_source a' = next_source a;
  cm_trace : ∃ t, trace a' = trace a ++ t ∧ Forall plain_obs t;
}.

Arguments cm_settings {a a'} _.
Arguments cm_active {a a'} _.
Arguments cm_easies {a a'} _.
Arguments cm_next_easy {a a'} _.
Arguments cm_multi_handles {a a'} _.
Arguments cm_multi_msgs {a a'} _.
Arguments cm_active_io {a a'} _.
Arguments cm_timer {a a'} _.
Arguments cm_tags {a a'} _.
Arguments cm_next_source {a a'} _.
Arguments cm_trace {a a'} _.

(** ** No callback is lost *)

(** As long as the loop has not been told to exit, every handler that was
    ever allocated either has had its callback called or is still pointed
    to by a transfer or a child watch. *)
Definition none_lost (a : Aur) : Prop :=
  exit_requested a = false →
  ∀ h, (h < next_handler a)%nat →
       h ∈ callbacks (trace a) ∨ ∃ r, handler_of a r = Some h.

(** [keeps a a']: from [a] to [a'] no pointer to a handler was dropped and
    no handler allocated. *)
Record keeps (a a' : Aur) : Prop := {
  kp_refs : ∀ r h, handler_of a r = Some h → handler_of a' r = Some h;
  kp_callbacks : ∀ h, h ∈ callbacks (trace a) → h ∈ callbacks (trace a');
  kp_next : next_handler a' = next_handler a;
  kp_exit : exit_requested a' = false → exit_requested a = false;
}.

Arguments kp_refs {a a'} _.
Arguments kp_callbacks {a a'} _.
Arguments kp_next {a a'} _.
Arguments kp_exit {a a'} _.

(** The reactor does not fail. *)
Definition no_failure (ev : Event) : Prop :=
  match ev with
  | EvFail _ => False
  | _ => True
  end.

(** ** Completions waiting in libcurl's queue *)

(** The handlers of the transfers libcurl has reported done, in the order
    of its queue. *)
Definition completed_handlers (a : Aur) : list handler_ptr :=
  omap (λ m, easy_handler a m.1) (multi_msgs a).

(** ** More example data *)

(** Two calls of the public interface: [CancelAll], then a request for one
    URL. *)
Definition example_calls_cancelled : list Call :=
  [CallCancelAll; CallQueueRpcRequest example_libcurl example_request (λ _, 0)].

(** libcurl announcing socket 5 (duplicated as descriptor 9) and asking
    for its removal, all inside [curl_multi_add_handle]. *)
Definition example_libcurl_removal (c : CURL) : list CurlAct :=
  [CaSocket 5 CURL_POLL_IN 9 true; CaSocket 5 CURL_POLL_REMOVE 0 true].

Definition example_calls_removal : list Call :=
  [CallQueueRpcRequest example_libcurl_removal example_request (λ _, 0)].

(** One request for one URL. *)
Definition example_calls_rpc : list Call :=
  [CallQueueRpcRequest example_libcurl example_request (λ _, 0)].

(** A request for two tarballs. *)
Definition example_calls_tarballs : list Call :=
  [CallQueueTarballRequest example_libcurl example_request2 (λ _, 0)].

(** libcurl finding that it cannot connect (result 7) for the transfers of
    handles 0 and 1, and switching its timer off. *)
Definition example_acts_failed : list CurlAct :=
  [CaDone 0 7 0; CaDone 1 7 0; CaTimer (-1) 2000000 true].

(** An engine constructed with AURACLE_DEBUG set to log request headers. *)
Definition example_engine_logging : Aur := Aur_new example_baseurl "requests:/tmp/auracle.log".

(** libcurl reporting the transfer of handle 0 done while its call
    fails. *)
Definition example_reaction_failing : CurlReaction :=
  {| acts := [CaDone 0 CURLE_OK 200]; mcode := 1 |}.

(** ** Lemmas on the log *)

Lemma callbacks_app t1 t2 : callbacks (t1 ++ t2) = callbacks t1 ++ callbacks t2.
Proof. unfold callbacks. apply omap_app. Qed.

Lemma handler_faults_app t1 t2 :
  handler_faults (t1 ++ t2) = handler_faults t1 ++ handler_faults t2.
Proof. unfold handler_faults. apply omap_app. Qed.


Lemma callback_then_delete_quiet t1 t2 :
  callback_then_delete t1 → callbacks t2 = [] → callback_then_delete (t1 ++ t2).
Proof.
  intros H1 H2. induction t1 as [|o t1 IH]; simpl.
  - induction t2 as [|o t2 IH]; [done|].
    destruct o; simpl in *; try done; by apply IH.
  - destruct o; simpl in *; try (by apply IH).
    destruct t1 as [|o' t1]; [done|].
    destruct o'; simpl in *; try done.
    destruct H1 as [-> H1]. split; [done|]. by apply IH.
Qed.

Lemma callback_then_delete_call t h arg ret :
  callback_then_delete t →
  callback_then_delete (t ++ [ObsCallback h arg ret; ObsDelete h]).
Proof.
  intros H1. induction t as [|o t IH]; simpl; [done|].
  destruct o; simpl in *; try (by apply IH).
  destruct t as [|o' t]; [done|].
  destruct o'; simpl in *; try done.
  destruct H1 as [-> H1]. split; [done|]. by apply IH.
Qed.

Lemma returns_app t1 t2 : returns (t1 ++ t2) = returns t1 ++ returns t2.
Proof. unfold returns. apply omap_app. Qed.

Lemma returns_no_callback t : callbacks t = [] → returns t = [].
Proof.
  induction t as [|o t IH]; [done|]. destruct o; simpl; try done; exact IH.
Qed.

Lemma callbacks_notices t : Forall notice_obs t → callbacks t = [].
Proof.
  induction 1 as [|o t Ho _ IH]; [done|]. destruct o; simpl; try done; exact IH.
Qed.

Lemma returns_notices t : Forall notice_obs t → returns t = [].
Proof.
  induction 1 as [|o t Ho _ IH]; [done|]. destruct o; simpl; try done; exact IH.
Qed.

(** A step that runs no callback returns no value. *)
Lemma returns_grow t t' :
  t `prefix_of` t' → callbacks t' = callbacks t → returns t' = returns t.
Proof.
  intros [k ->]. rewrite callbacks_app, returns_app. intros Hc.
  rewrite <-(app_nil_r (callbacks t)) in Hc at 2. apply app_inv_head in Hc.
  by rewrite (returns_no_callback _ Hc), app_nil_r.
Qed.

(** ** [quiet] is a preorder that keeps the invariant *)

Lemma quiet_refl a : quiet a a.
Proof.
  split; try done.
  - intros c e' ?. by exists e'.
  - exists []. by rewrite app_nil_r.
Qed.

Lemma quiet_trans a1 a2 a3 : quiet a1 a2 → quiet a2 a3 → quiet a1 a3.
Proof.
  intros [E1 C1 H1 N1 [t1 (T1 & K1 & F1)] X1 Y1 Z1] [E2 C2 H2 N2 [t2 (T2 & K2 & F2)] X2 Y2 Z2].
  split; try congruence.
  - intros c e3 He3. destruct (E2 _ _ He3) as (e2 & He2 & ? & ? & ?).
    destruct (E1 _ _ He2) as (e1 & He1 & ? & ? & ?).
    exists e1. repeat split; congruence.
  - auto.
  - intros h. by rewrite H2.
  - exists (t1 ++ t2). rewrite T2, T1, callbacks_app, handler_faults_app, K1, K2, F1, F2.
    by rewrite app_assoc.
Qed.

#[global] Instance quiet_preorder : PreOrder quiet.
Proof. split; [exact quiet_refl|exact quiet_trans]. Qed.

Lemma quiet_handler_of a a' r h :
  quiet a a' → handler_of a' r = Some h → handler_of a r = Some h.
Proof.
  intros Q. destruct r as [c|s]; simpl; [|apply Q].
  unfold easy_handler. destruct (easies a' !! c) as [e'|] eqn:E; [|done].
  destruct (q_easy Q _ _ E) as (e & -> & ? & _). simpl. congruence.
Qed.

Lemma Hinv_quiet X T a a' : Hinv X T a → quiet a a' → Hinv X T a'.
Proof.
  intros I Q. destruct (q_trace Q) as (t & Ht & Hc & Hf).
  assert (Hcb : callbacks (trace a') = callbacks (trace a))
    by (by rewrite Ht, callbacks_app, Hc, app_nil_r).
  split.
  - intros r h Hr. rewrite (q_heap Q). apply (hi_live I r). by eapply quiet_handler_of.
  - intros r1 r2 h H1 H2. eapply (hi_inj I); by eapply quiet_handler_of.
  - intros c e' He'. destruct (q_easy Q _ _ He') as (e & He & -> & -> & ->).
    by apply (hi_same I c).
  - intros h. rewrite (q_heap Q), (q_next Q). apply (hi_bound I).
  - intros h. rewrite Hcb, (q_next Q). intros Hh.
    destruct (hi_called I _ Hh) as [Hn ?]. split; [|done].
    destruct (heap a' !! h) eqn:E; [|done].
    assert (is_Some (heap a !! h)) as [? ?] by (apply (q_heap Q); eauto). congruence.
  - rewrite Hcb. apply (hi_nodup I).
  - rewrite Ht. apply callback_then_delete_quiet; [apply (hi_paired I)|done].
  - rewrite Ht, handler_faults_app, Hf, app_nil_r. apply (hi_no_fault I).
  - intros h Hh. destruct (hi_X I _ Hh) as (? & ? & Hr).
    rewrite Hcb, (q_next Q). repeat split; [done..|].
    intros r Hr'. eapply Hr. by eapply quiet_handler_of.
  - rewrite Ht. etrans; [apply (hi_prefix I)|]. by apply prefix_app_r.
  - rewrite (q_exit_requested Q), (q_exit_code Q). apply (hi_exit_code I).
  - rewrite (q_exit_requested Q), (q_finished Q). apply (hi_finished I).
Qed.

(** ** The library calls are quiet *)

Lemma quiet_same a a' :
  easies a' = easies a → sources a' = sources a → heap a' = heap a →
  next_handler a' = next_handler a → trace a' = trace a →
  exit_requested a' = exit_requested a → exit_code a' = exit_code a →
  finished a' = finished a →
  quiet a a'.
Proof.
  intros He Hs Hh Hn Ht ???. split; try done.
  - intros c e'. rewrite He. by exists e'.
  - intros s h. unfold child_handler. by rewrite Hs.
  - intros h. by rewrite Hh.
  - exists []. by rewrite app_nil_r.
Qed.

Lemma quiet_set_active_requests f a : quiet a (set_active_requests f a).
Proof. by apply quiet_same. Qed.

Lemma quiet_set_active_io f a : quiet a (set_active_io f a).
Proof. by apply quiet_same. Qed.

Lemma quiet_set_translate_fds f a : quiet a (set_translate_fds f a).
Proof. by apply quiet_same. Qed.

Lemma quiet_set_timer t a : quiet a (set_timer t a).
Proof. by apply quiet_same. Qed.

Lemma quiet_set_multi f g a : quiet a (set_multi f g a).
Proof. by apply quiet_same. Qed.

Lemma quiet_log o a :
  callbacks [o] = [] → handler_faults [o] = [] → quiet a (log o a).
Proof.
  intros Hc Hf. split; try done.
  - intros c e' ?. by exists e'.
  - by exists [o].
Qed.

Lemma quiet_set_sources f a :
  (∀ s src', f (sources a) !! s = Some src' →
     ∀ pid h, src_kind src' = SrcChild pid h →
     ∃ src, sources a !! s = Some src ∧ src_kind src = SrcChild pid h) →
  quiet a (set_sources f a).
Proof.
  intros Hf. split; try done.
  - intros c e' ?. by exists e'.
  - intros s h. unfold child_handler. simpl.
    destruct (f (sources a) !! s) as [src'|] eqn:E; [|done].
    destruct (src_kind src') as [| |pid ud] eqn:K; try done.
    intros [= ->]. destruct (Hf _ _ E _ _ K) as (src & -> & ->). done.
  - exists []. by rewrite app_nil_r.
Qed.

Lemma quiet_new_source src a :
  (∀ pid h, src_kind src ≠ SrcChild pid h) → quiet a (new_source src a).
Proof.
  intros Hk. split; try done.
  - intros c e' ?. by exists e'.
  - intros s h. unfold child_handler. simpl.
    destruct (decide (s = next_source a)) as [->|Hne].
    + rewrite lookup_insert_eq. destruct (src_kind src) eqn:K; try done.
      by destruct (Hk pid userdata).
    + by rewrite lookup_insert_ne.
  - exists []. by rewrite app_nil_r.
Qed.

Lemma quiet_sd_event_source_set_enabled s m a :
  quiet a (sd_event_source_set_enabled s m a).1.
Proof.
  unfold sd_event_source_set_enabled. destruct (sources a !! s) as [src|] eqn:E; simpl.
  - apply quiet_set_sources. intros s' src' Hs' pid h K.
    destruct (decide (s' = s)) as [->|Hne].
    + rewrite lookup_insert_eq in Hs'. simplify_eq/=. eauto.
    + rewrite lookup_insert_ne in Hs' by done. eauto.
  - by apply quiet_log.
Qed.

Lemma quiet_sd_event_source_set_io_events s ev a :
  quiet a (sd_event_source_set_io_events s ev a).1.
Proof.
  unfold sd_event_source_set_io_events. destruct (sources a !! s) as [src|] eqn:E; simpl.
  - destruct (src_kind src) eqn:K; simpl; try apply quiet_refl.
    apply quiet_set_sources. intros s' src' Hs' pid h K'.
    destruct (decide (s' = s)) as [->|Hne].
    + rewrite lookup_insert_eq in Hs'. by simplify_eq/=.
    + rewrite lookup_insert_ne in Hs' by done. eauto.
  - by apply quiet_log.
Qed.

Lemma quiet_sd_event_source_set_time s usec a :
  quiet a (sd_event_source_set_time s usec a).1.
Proof.
  unfold sd_event_source_set_time. destruct (sources a !! s) as [src|] eqn:E; simpl.
  - destruct (src_kind src) eqn:K; simpl; try apply quiet_refl.
    apply quiet_set_sources. intros s' src' Hs' pid h K'.
    destruct (decide (s' = s)) as [->|Hne].
    + rewrite lookup_insert_eq in Hs'. by simplify_eq/=.
    + rewrite lookup_insert_ne in Hs' by done. eauto.
  - by apply quiet_log.
Qed.

Lemma quiet_sd_event_source_get_io_fd s a :
  quiet a (sd_event_source_get_io_fd s a).1.
Proof.
  unfold sd_event_source_get_io_fd. destruct (sources a !! s) as [src|] eqn:E; simpl.
  - destruct (src_kind src); apply quiet_refl.
  - by apply quiet_log.
Qed.

Lemma quiet_sd_event_source_unref s a : quiet a (sd_event_source_unref s a).
Proof.
  unfold sd_event_source_unref. destruct (sources a !! s) as [src|] eqn:E.
  - apply quiet_set_sources. intros s' src' Hs' pid h K.
    apply lookup_delete_Some in Hs' as [_ Hs']. eauto.
  - by apply quiet_log.
Qed.

Lemma quiet_sd_event_add_io ok fd ev a : quiet a (sd_event_add_io ok fd ev a).1.
Proof.
  unfold sd_event_add_io. destruct ok; simpl; [|apply quiet_refl].
  by apply quiet_new_source.
Qed.

Lemma quiet_sd_event_add_time ok usec a : quiet a (sd_event_add_time ok usec a).1.
Proof.
  unfold sd_event_add_time. destruct ok; simpl; [|apply quiet_refl].
  by apply quiet_new_source.
Qed.

Lemma quiet_close fd a : quiet a (close fd a).
Proof. by apply quiet_log. Qed.

Lemma quiet_curl_easy_cleanup c a : quiet a (curl_easy_cleanup c a).
Proof.
  split; try done.
  - intros c' e' He'. simpl in He'. apply lookup_delete_Some in He' as [_ He']. by exists e'.
  - exists []. by rewrite app_nil_r.
Qed.

Lemma quiet_DebugCallback type data a : quiet a (DebugCallback type data a).
Proof.
  unfold DebugCallback. case_decide; [apply quiet_refl|by apply quiet_log].
Qed.

(** A step composed of quiet steps. *)
Ltac quiet_step :=
  first
    [ apply quiet_set_active_requests | apply quiet_set_active_io
    | apply quiet_set_translate_fds | apply quiet_set_timer | apply quiet_set_multi
    | apply quiet_close
    | apply quiet_sd_event_source_set_enabled | apply quiet_sd_event_source_set_io_events
    | apply quiet_sd_event_source_set_time | apply quiet_sd_event_source_get_io_fd
    | apply quiet_sd_event_source_unref | apply quiet_sd_event_add_io
    | apply quiet_sd_event_add_time
    | apply quiet_curl_easy_cleanup | apply quiet_DebugCallback ].

Lemma quiet_SocketCallback dupfd add_ok s action a :
  quiet a (SocketCallback dupfd add_ok s action a).1.
Proof.
  unfold SocketCallback.
  set (a1 := if decide (action = CURL_POLL_REMOVE) then _ else a).
  assert (Q1 : quiet a a1).
  { subst a1. case_decide; [|apply quiet_refl].
    destruct (active_io_ a !! s) as [io|]; [|apply quiet_refl].
    pose proof (quiet_sd_event_source_get_io_fd io a) as Q2.
    destruct (sd_event_source_get_io_fd io a) as [a2 fd]; simpl in Q2.
    pose proof (quiet_sd_event_source_set_enabled io SD_EVENT_OFF a2) as Q3.
    destruct (sd_event_source_set_enabled io SD_EVENT_OFF a2) as [a3 r3]; simpl in Q3.
    repeat (etrans; [|quiet_step]). by etrans. }
  clearbody a1.
  destruct (active_io_ a !! s) as [io|].
  - pose proof (quiet_sd_event_source_set_io_events io (action_to_revents action) a1) as Q2.
    destruct (sd_event_source_set_io_events io _ a1) as [a2 r2]; simpl in Q2.
    case_match; simpl; [by etrans|].
    pose proof (quiet_sd_event_source_set_enabled io SD_EVENT_ON a2) as Q3.
    destruct (sd_event_source_set_enabled io _ a2) as [a3 r3]; simpl in Q3.
    case_match; simpl; etrans; try done; by etrans.
  - case_match; simpl; [done|].
    pose proof (quiet_sd_event_add_io add_ok dupfd (action_to_revents action) a1) as Q2.
    destruct (sd_event_add_io add_ok dupfd _ a1) as [a2 [io|]]; simpl in *.
    + repeat (etrans; [|quiet_step]). by etrans.
    + by etrans.
Qed.

Lemma quiet_TimerCallback now add_ok timeout_ms a :
  quiet a (TimerCallback now add_ok timeout_ms a).1.
Proof.
  unfold TimerCallback. case_match.
  - destruct (timer_ a) as [t|]; [|done].
    pose proof (quiet_sd_event_source_set_enabled t SD_EVENT_OFF a) as Q.
    destruct (sd_event_source_set_enabled t SD_EVENT_OFF a) as [a1 r]. by case_match.
  - destruct (timer_ a) as [t|].
    + pose proof (quiet_sd_event_source_set_time t
                    (to_uint64 (TimepointTo_usec (steady_clock_plus_ms now timeout_ms))) a)
        as Q1.
      destruct (sd_event_source_set_time t _ a) as [a1 r1]; simpl in Q1.
      case_match; [done|].
      pose proof (quiet_sd_event_source_set_enabled t SD_EVENT_ONESHOT a1) as Q2.
      destruct (sd_event_source_set_enabled t _ a1) as [a2 r2]; simpl in Q2.
      case_match; simpl; by etrans.
    + pose proof (quiet_sd_event_add_time add_ok
                    (to_uint64 (TimepointTo_usec (steady_clock_plus_ms now timeout_ms))) a)
        as Q1.
      destruct (sd_event_add_time add_ok _ a) as [a1 [t|]]; simpl in *; [|done].
      etrans; [exact Q1|quiet_step].
Qed.

Lemma quiet_FinishRequest_source s a : quiet a (FinishRequest_source s a).1.
Proof. unfold FinishRequest_source; simpl. etrans; quiet_step. Qed.

Lemma quiet_set_heap_live h hd a :
  is_Some (heap a !! h) → quiet a (set_heap <[h := hd]> a).
Proof.
  intros Hl. split; try done.
  - intros c e' ?. by exists e'.
  - intros h'. simpl. rewrite lookup_insert_is_Some.
    split; [intros [->|[_ ?]]; done|].
    intros ?. destruct (decide (h = h')); auto.
  - exists []. by rewrite app_nil_r.
Qed.

Lemma quiet_BodyCallback data h a :
  is_Some (heap a !! h) → quiet a (BodyCallback data h a).
Proof.
  intros Hl. unfold BodyCallback. destruct Hl as [hd Hl]. rewrite Hl.
  apply quiet_set_heap_live. eauto.
Qed.

Lemma quiet_write_error_buffer msg h a :
  is_Some (heap a !! h) → quiet a (write_error_buffer msg h a).
Proof.
  intros Hl. unfold write_error_buffer. destruct Hl as [hd Hl]. rewrite Hl.
  apply quiet_set_heap_live. eauto.
Qed.

Lemma read_error_buffer_live h hd a :
  heap a !! h = Some hd → read_error_buffer h a = (a, error_buffer hd).
Proof. intros Hl. unfold read_error_buffer. by rewrite Hl. Qed.

(** ** Steps that allocate, call or delete a handler *)

Lemma Hinv_weaken (X X' : handler_ptr → Prop) T T' a :
  (∀ h, X' h → X h) → T' `prefix_of` T → Hinv X T a → Hinv X' T' a.
Proof.
  intros HX HT I. split; try apply I.
  - intros h Hh. apply (hi_X I). auto.
  - etrans; [done|apply I].
Qed.

Lemma Hinv_extend X T a h :
  Hinv X T a → (h < next_handler a)%nat → h ∉ callbacks (trace a) →
  (∀ r, handler_of a r ≠ Some h) →
  Hinv (λ h', X h' ∨ h' = h) T a.
Proof.
  intros I ???. split; try apply I.
  intros h' [Hh| ->]; [by apply (hi_X I)|done].
Qed.

Lemma Hinv_live_not_called X T a h :
  Hinv X T a → is_Some (heap a !! h) → h ∉ callbacks (trace a).
Proof. intros I [hd Hl] Hc. destruct (hi_called I _ Hc). congruence. Qed.

Lemma Hinv_referenced_not_X X T a r h :
  Hinv X T a → handler_of a r = Some h → ¬ X h.
Proof. intros I Hr HX. by destruct (hi_X I _ HX) as (_ & _ & Hn); destruct (Hn r). Qed.

Lemma Hinv_fresh X T a :
  Hinv X T a →
  heap a !! next_handler a = None ∧ (∀ r, handler_of a r ≠ Some (next_handler a)) ∧
  ¬ X (next_handler a) ∧ next_handler a ∉ callbacks (trace a).
Proof.
  intros I. assert (Hn : heap a !! next_handler a = None).
  { destruct (heap a !! next_handler a) eqn:E; [|done].
    assert (next_handler a < next_handler a)%nat by (apply (hi_bound I); eauto). lia. }
  repeat split; [done|..].
  - intros r Hr. destruct (hi_live I _ _ Hr). congruence.
  - intros HX. destruct (hi_X I _ HX). lia.
  - intros Hc. destruct (hi_called I _ Hc). lia.
Qed.

Lemma Hinv_new_handler X T hd a : Hinv X T a → Hinv X T (new_handler hd a).
Proof.
  intros I. destruct (Hinv_fresh _ _ _ I) as (Hn & Hr & HX & Hc).
  split; simpl; try apply I.
  - intros r h Hh. rewrite lookup_insert_is_Some'. right. by apply (hi_live I r).
  - intros h. rewrite lookup_insert_is_Some'. intros [->|Hh]; [lia|].
    apply (hi_bound I) in Hh. lia.
  - intros h Hh. destruct (hi_called I _ Hh). split; [|lia].
    rewrite lookup_insert_ne; [done|lia].
  - intros h Hh. destruct (hi_X I _ Hh) as (? & ? & ?). repeat split; [lia|done..].
Qed.

(** The callback of a live handler that nothing points to any more. *)
Lemma Hinv_RunCallback X T a h status error :
  Hinv X T a → is_Some (heap a !! h) → (∀ r, handler_of a r ≠ Some h) → ¬ X h →
  Hinv X T (RunCallback h status error a).1.
Proof.
  intros I [hd Hl] Hr HX. unfold RunCallback. rewrite Hl. simpl.
  unfold delete_handler. simpl. rewrite Hl.
  pose proof (Hinv_live_not_called _ _ _ h I (ltac:(eauto))) as Hnc.
  split; simpl.
  - intros r h' Hh'. rewrite lookup_delete_is_Some. split; [|by apply (hi_live I r)].
    intros ->. by destruct (Hr r).
  - apply (hi_inj I).
  - apply (hi_same I).
  - intros h'. rewrite lookup_delete_is_Some. intros [_ ?]. by apply (hi_bound I).
  - intros h'. rewrite <-app_assoc, callbacks_app. simpl.
    rewrite elem_of_app, list_elem_of_singleton. intros [Hh'| ->].
    + destruct (hi_called I _ Hh'). split; [|done]. by apply lookup_delete_None; right.
    + split; [by apply lookup_delete_None; left|]. apply (hi_bound I). eauto.
  - rewrite <-app_assoc, callbacks_app. simpl. apply NoDup_app. split; [apply (hi_nodup I)|].
    split; [|apply NoDup_singleton]. intros h' Hh' ->%list_elem_of_singleton. done.
  - rewrite <-app_assoc. simpl. apply callback_then_delete_call, (hi_paired I).
  - rewrite <-app_assoc, handler_faults_app. simpl. rewrite app_nil_r. apply (hi_no_fault I).
  - intros h' Hh'. destruct (hi_X I _ Hh') as (? & ? & ?). repeat split; [done| |done].
    rewrite <-app_assoc, callbacks_app. simpl.
    rewrite elem_of_app, list_elem_of_singleton. intros [?| ->]; done.
  - rewrite <-app_assoc. etrans; [apply (hi_prefix I)|]. by apply prefix_app_r.
  - apply (hi_exit_code I).
  - apply (hi_finished I).
Qed.

(** Deleting, without calling it, a live handler that nothing points to:
    it joins the handlers that are never called. *)
Lemma Hinv_delete_handler X T a h :
  Hinv X T a → is_Some (heap a !! h) → (∀ r, handler_of a r ≠ Some h) →
  Hinv (λ h', X h' ∨ h' = h) T (delete_handler h a).
Proof.
  intros I [hd Hl] Hr. unfold delete_handler. rewrite Hl.
  pose proof (Hinv_live_not_called _ _ _ h I (ltac:(eauto))) as Hnc.
  split; simpl.
  - intros r h' Hh'. rewrite lookup_delete_is_Some. split; [|by apply (hi_live I r)].
    intros ->. by destruct (Hr r).
  - apply (hi_inj I).
  - apply (hi_same I).
  - intros h'. rewrite lookup_delete_is_Some. intros [_ ?]. by apply (hi_bound I).
  - intros h'. rewrite callbacks_app. simpl. rewrite app_nil_r. intros Hh'.
    destruct (hi_called I _ Hh'). split; [|done]. by apply lookup_delete_None; right.
  - rewrite callbacks_app. simpl. rewrite app_nil_r. apply (hi_nodup I).
  - apply callback_then_delete_quiet; [apply (hi_paired I)|done].
  - rewrite handler_faults_app. simpl. rewrite app_nil_r. apply (hi_no_fault I).
  - rewrite callbacks_app. simpl. rewrite app_nil_r.
    intros h' [Hh'| ->]; [by apply (hi_X I)|].
    repeat split; [|done..]. apply (hi_bound I). eauto.
  - etrans; [apply (hi_prefix I)|]. by apply prefix_app_r.
  - apply (hi_exit_code I).
  - apply (hi_finished I).
Qed.

(** Pointing a new transfer or child watch [r0] to a live handler that
    nothing points to yet. *)
Lemma Hinv_add_ref X T a a' r0 h :
  Hinv X T a → is_Some (heap a !! h) → (∀ r, handler_of a r ≠ Some h) → ¬ X h →
  (∀ r, handler_of a' r = if decide (r = r0) then Some h else handler_of a r) →
  (∀ c e, easies a' !! c = Some e →
     opt_writedata e = opt_private e ∧ opt_errorbuffer e = opt_private e) →
  heap a' = heap a → next_handler a' = next_handler a → trace a' = trace a →
  exit_requested a' = exit_requested a → exit_code a' = exit_code a →
  finished a' = finished a →
  Hinv X T a'.
Proof.
  intros I Hl Hr HX Hof Hsame Hh Hn Ht He1 He2 He3.
  split; rewrite ?Hh, ?Hn, ?Ht, ?He1, ?He2, ?He3; try apply I; try done.
  - intros r h'. rewrite Hof. case_decide; [by intros [= <-]|]. apply (hi_live I).
  - intros r1 r2 h'. rewrite !Hof. repeat case_decide; subst; try done.
    + intros [= <-] ?. by destruct (Hr r2).
    + intros ? [= <-]. by destruct (Hr r1).
    + apply (hi_inj I).
  - intros h' Hh'. destruct (hi_X I _ Hh') as (? & ? & Hn'). repeat split; [done..|].
    intros r. rewrite Hof. case_decide; [|done]. intros [= <-]. done.
Qed.

Lemma handler_of_new_easy e a r :
  handler_of (new_easy e a) r =
  if decide (r = ReqCurl (next_easy a)) then Some (opt_private e) else handler_of a r.
Proof.
  destruct r as [c|s]; [|by rewrite decide_False].
  unfold handler_of, easy_handler. destruct (decide (c = next_easy a)) as [->|Hne].
  - rewrite decide_True by done. simpl. by rewrite lookup_insert_eq.
  - rewrite decide_False by congruence. simpl. by rewrite lookup_insert_ne.
Qed.

Lemma handler_of_add_child pid h a r :
  handler_of (sd_event_add_child pid h a).1 r =
  if decide (r = ReqSource (next_source a)) then Some h else handler_of a r.
Proof.
  destruct r as [c|s]; [by rewrite decide_False|].
  unfold handler_of, child_handler. destruct (decide (s = next_source a)) as [->|Hne].
  - rewrite decide_True by done. simpl. by rewrite lookup_insert_eq.
  - rewrite decide_False by congruence. simpl. by rewrite lookup_insert_ne.
Qed.

Lemma Hinv_new_easy X T a e :
  Hinv X T a → is_Some (heap a !! opt_private e) →
  (∀ r, handler_of a r ≠ Some (opt_private e)) → ¬ X (opt_private e) →
  opt_writedata e = opt_private e → opt_errorbuffer e = opt_private e →
  Hinv X T (new_easy e a).
Proof.
  intros I Hl Hr HX Hw He.
  eapply (Hinv_add_ref X T a); try done.
  - apply handler_of_new_easy.
  - intros c e'. simpl. destruct (decide (c = next_easy a)) as [->|Hne].
    + rewrite lookup_insert_eq. by intros [= <-].
    + rewrite lookup_insert_ne by done. apply (hi_same I).
Qed.

Lemma Hinv_add_child X T a pid h :
  Hinv X T a → is_Some (heap a !! h) → (∀ r, handler_of a r ≠ Some h) → ¬ X h →
  Hinv X T (sd_event_add_child pid h a).1.
Proof.
  intros I Hl Hr HX.
  eapply (Hinv_add_ref X T a); try done.
  - apply handler_of_add_child.
  - apply (hi_same I).
Qed.

(** ** What libcurl tells the engine inside [curl_multi_remove_handle]

    The socket and timer callbacks leave the transfers, the handlers and
    the Active Request Set alone, so the notices of a removal can be
    taken after the rest of [FinishRequest]. *)

Lemma sd_event_source_set_enabled_submissions s m a :
  submissions (sd_event_source_set_enabled s m a).1 = submissions a.
Proof. unfold sd_event_source_set_enabled. by destruct (sources a !! s). Qed.

Lemma sd_event_source_set_io_events_submissions s ev a :
  submissions (sd_event_source_set_io_events s ev a).1 = submissions a.
Proof.
  unfold sd_event_source_set_io_events.
  destruct (sources a !! s) as [src|]; [|done]. by destruct (src_kind src).
Qed.

Lemma sd_event_source_set_time_submissions s usec a :
  submissions (sd_event_source_set_time s usec a).1 = submissions a.
Proof.
  unfold sd_event_source_set_time.
  destruct (sources a !! s) as [src|]; [|done]. by destruct (src_kind src).
Qed.

Lemma sd_event_source_get_io_fd_submissions s a :
  submissions (sd_event_source_get_io_fd s a).1 = submissions a.
Proof.
  unfold sd_event_source_get_io_fd.
  destruct (sources a !! s) as [src|]; [|done]. by destruct (src_kind src).
Qed.

Lemma sd_event_source_unref_submissions s a :
  submissions (sd_event_source_unref s a) = submissions a.
Proof. unfold sd_event_source_unref. by destruct (sources a !! s). Qed.

Lemma SocketCallback_submissions dupfd add_ok s action a :
  submissions (SocketCallback dupfd add_ok s action a).1 = submissions a.
Proof.
  unfold SocketCallback.
  set (a1 := if decide (action = CURL_POLL_REMOVE) then _ else a).
  assert (H1 : submissions a1 = submissions a).
  { subst a1. case_decide; [|done]. destruct (active_io_ a !! s) as [io|]; [|done].
    pose proof (sd_event_source_get_io_fd_submissions io a) as H2.
    destruct (sd_event_source_get_io_fd io a) as [a2 fd]; simpl in H2.
    pose proof (sd_event_source_set_enabled_submissions io SD_EVENT_OFF a2) as H3.
    destruct (sd_event_source_set_enabled io SD_EVENT_OFF a2) as [a3 r3]; simpl in H3.
    rewrite <-H2, <-H3. apply (sd_event_source_unref_submissions io a3). }
  clearbody a1. rewrite <-H1.
  destruct (active_io_ a !! s) as [io|].
  - pose proof (sd_event_source_set_io_events_submissions io (action_to_revents action) a1)
      as H2.
    destruct (sd_event_source_set_io_events io _ a1) as [a2 r2]; simpl in H2.
    case_match; [done|].
    pose proof (sd_event_source_set_enabled_submissions io SD_EVENT_ON a2) as H3.
    destruct (sd_event_source_set_enabled io _ a2) as [a3 r3]; simpl in H3.
    case_match; simpl; congruence.
  - case_match; [done|]. unfold sd_event_add_io. by destruct add_ok.
Qed.

Lemma TimerCallback_submissions now add_ok timeout_ms a :
  submissions (TimerCallback now add_ok timeout_ms a).1 = submissions a.
Proof.
  unfold TimerCallback. case_match.
  - destruct (timer_ a) as [t|]; [|done].
    pose proof (sd_event_source_set_enabled_submissions t SD_EVENT_OFF a) as H1.
    destruct (sd_event_source_set_enabled t SD_EVENT_OFF a) as [a1 r]. by case_match.
  - destruct (timer_ a) as [t|].
    + pose proof (sd_event_source_set_time_submissions t
                    (to_uint64 (TimepointTo_usec (steady_clock_plus_ms now timeout_ms))) a)
        as H1.
      destruct (sd_event_source_set_time t _ a) as [a1 r1]; simpl in H1.
      case_match; [done|].
      pose proof (sd_event_source_set_enabled_submissions t SD_EVENT_ONESHOT a1) as H2.
      destruct (sd_event_source_set_enabled t _ a1) as [a2 r2]; simpl in H2.
      case_match; simpl; congruence.
    + unfold sd_event_add_time. by destruct add_ok.
Qed.

Lemma quiet_notified ns a : quiet a (notified ns a).
Proof.
  unfold notified. revert a. induction ns as [|n ns IH]; intros a; simpl; [done|].
  etrans; [|apply IH].
  destruct n; simpl; [apply quiet_SocketCallback|apply quiet_TimerCallback].
Qed.

Lemma quiet_curl_multi_remove_handle ns c a : quiet a (curl_multi_remove_handle ns c a).
Proof. unfold curl_multi_remove_handle. etrans; [apply quiet_set_multi|apply quiet_notified]. Qed.

Lemma notified_submissions ns a : submissions (notified ns a) = submissions a.
Proof.
  unfold notified. revert a. induction ns as [|n ns IH]; intros a; simpl; [done|].
  rewrite IH. destruct n; simpl;
    [apply SocketCallback_submissions|apply TimerCallback_submissions].
Qed.

Lemma SocketCallback_set_easies f dupfd add_ok s action a :
  SocketCallback dupfd add_ok s action (set_easies f a) =
  (set_easies f (SocketCallback dupfd add_ok s action a).1,
   (SocketCallback dupfd add_ok s action a).2).
Proof.
  unfold SocketCallback. simpl.
  assert (E1 : ∀ io a, sd_event_source_get_io_fd io (set_easies f a) =
                       (set_easies f (sd_event_source_get_io_fd io a).1,
                        (sd_event_source_get_io_fd io a).2)).
  { intros io b. unfold sd_event_source_get_io_fd. simpl.
    destruct (sources b !! io) as [src|]; [|done]. by destruct (src_kind src). }
  assert (E2 : ∀ io m a, sd_event_source_set_enabled io m (set_easies f a) =
                         (set_easies f (sd_event_source_set_enabled io m a).1,
                          (sd_event_source_set_enabled io m a).2)).
  { intros io m b. unfold sd_event_source_set_enabled. simpl.
    by destruct (sources b !! io). }
  assert (E3 : ∀ io a, sd_event_source_unref io (set_easies f a) =
                       set_easies f (sd_event_source_unref io a)).
  { intros io b. unfold sd_event_source_unref. simpl. by destruct (sources b !! io). }
  assert (E4 : ∀ io ev a, sd_event_source_set_io_events io ev (set_easies f a) =
                          (set_easies f (sd_event_source_set_io_events io ev a).1,
                           (sd_event_source_set_io_events io ev a).2)).
  { intros io ev b. unfold sd_event_source_set_io_events. simpl.
    destruct (sources b !! io) as [src|]; [|done]. by destruct (src_kind src). }
  set (a1 := if decide (action = CURL_POLL_REMOVE) then _ else set_easies f a).
  set (a1' := if decide (action = CURL_POLL_REMOVE) then _ else a).
  assert (H1 : a1 = set_easies f a1').
  { subst a1 a1'. case_decide; [|done]. destruct (active_io_ a !! s) as [io|]; [|done].
    rewrite E1. destruct (sd_event_source_get_io_fd io a) as [a2 fd]. simpl.
    rewrite E2. destruct (sd_event_source_set_enabled io SD_EVENT_OFF a2) as [a3 r3]. simpl.
    by rewrite E3. }
  clearbody a1 a1'. subst a1.
  destruct (active_io_ a !! s) as [io|].
  - rewrite E4. destruct (sd_event_source_set_io_events io _ a1') as [a2 r2]. simpl.
    case_match; [done|].
    rewrite E2. destruct (sd_event_source_set_enabled io SD_EVENT_ON a2) as [a3 r3]. simpl.
    by case_match.
  - case_match; [done|]. unfold sd_event_add_io. by destruct add_ok.
Qed.

Lemma TimerCallback_set_easies f now add_ok timeout_ms a :
  TimerCallback now add_ok timeout_ms (set_easies f a) =
  (set_easies f (TimerCallback now add_ok timeout_ms a).1,
   (TimerCallback now add_ok timeout_ms a).2).
Proof.
  unfold TimerCallback. simpl.
  assert (E2 : ∀ t m a, sd_event_source_set_enabled t m (set_easies f a) =
                        (set_easies f (sd_event_source_set_enabled t m a).1,
                         (sd_event_source_set_enabled t m a).2)).
  { intros t m b. unfold sd_event_source_set_enabled. simpl.
    by destruct (sources b !! t). }
  assert (E5 : ∀ t usec a, sd_event_source_set_time t usec (set_easies f a) =
                           (set_easies f (sd_event_source_set_time t usec a).1,
                            (sd_event_source_set_time t usec a).2)).
  { intros t usec b. unfold sd_event_source_set_time. simpl.
    destruct (sources b !! t) as [src|]; [|done]. by destruct (src_kind src). }
  case_match.
  - destruct (timer_ a) as [t|]; [|done].
    rewrite E2. destruct (sd_event_source_set_enabled t SD_EVENT_OFF a) as [a1 r1]. simpl.
    by case_match.
  - destruct (timer_ a) as [t|].
    + rewrite E5. destruct (sd_event_source_set_time t _ a) as [a1 r1]. simpl.
      case_match; [done|].
      rewrite E2. destruct (sd_event_source_set_enabled t SD_EVENT_ONESHOT a1) as [a2 r2].
      simpl. by case_match.
    + unfold sd_event_add_time. by destruct add_ok.
Qed.

(** The notices do not look at the easy handles. *)
Lemma notified_set_easies f ns a : notified ns (set_easies f a) = set_easies f (notified ns a).
Proof.
  unfold notified. revert a. induction ns as [|n ns IH]; intros a; simpl; [done|].
  rewrite <-IH. f_equal. destruct n; simpl.
  - by rewrite SocketCallback_set_easies.
  - by rewrite TimerCallback_set_easies.
Qed.

Lemma notified_active ns a : active_requests_ (notified ns a) = active_requests_ a.
Proof. pose proof (notified_submissions ns a) as H. unfold submissions in H. congruence. Qed.

Lemma notified_easies ns a : easies (notified ns a) = easies a.
Proof. pose proof (notified_submissions ns a) as H. unfold submissions in H. congruence. Qed.

Lemma notified_heap ns a : heap (notified ns a) = heap a.
Proof. pose proof (notified_submissions ns a) as H. unfold submissions in H. congruence. Qed.

Lemma notified_multi_msgs ns a : multi_msgs (notified ns a) = multi_msgs a.
Proof. pose proof (notified_submissions ns a) as H. unfold submissions in H. congruence. Qed.

(** What the notices add to the log. *)
Lemma notice_trace_trans a1 a2 a3 :
  (∃ t, trace a2 = trace a1 ++ t ∧ Forall notice_obs t) →
  (∃ t, trace a3 = trace a2 ++ t ∧ Forall notice_obs t) →
  ∃ t, trace a3 = trace a1 ++ t ∧ Forall notice_obs t.
Proof.
  intros (t1 & E1 & F1) (t2 & E2 & F2). exists (t1 ++ t2).
  split; [by rewrite E2, E1, app_assoc|by apply Forall_app].
Qed.

Lemma notice_trace_same a a' :
  trace a' = trace a → ∃ t, trace a' = trace a ++ t ∧ Forall notice_obs t.
Proof. intros ->. exists []. by rewrite app_nil_r. Qed.

Lemma sd_event_source_set_enabled_trace s m a :
  ∃ t, trace (sd_event_source_set_enabled s m a).1 = trace a ++ t ∧ Forall notice_obs t.
Proof.
  unfold sd_event_source_set_enabled. destruct (sources a !! s); simpl.
  - by apply notice_trace_same.
  - exists [ObsSourceFault s]. split; [done|]. by repeat constructor.
Qed.

Lemma sd_event_source_set_io_events_trace s ev a :
  ∃ t, trace (sd_event_source_set_io_events s ev a).1 = trace a ++ t ∧ Forall notice_obs t.
Proof.
  unfold sd_event_source_set_io_events. destruct (sources a !! s) as [src|]; simpl.
  - destruct (src_kind src); by apply notice_trace_same.
  - exists [ObsSourceFault s]. split; [done|]. by repeat constructor.
Qed.

Lemma sd_event_source_set_time_trace s usec a :
  ∃ t, trace (sd_event_source_set_time s usec a).1 = trace a ++ t ∧ Forall notice_obs t.
Proof.
  unfold sd_event_source_set_time. destruct (sources a !! s) as [src|]; simpl.
  - destruct (src_kind src); by apply notice_trace_same.
  - exists [ObsSourceFault s]. split; [done|]. by repeat constructor.
Qed.

Lemma sd_event_source_get_io_fd_trace s a :
  ∃ t, trace (sd_event_source_get_io_fd s a).1 = trace a ++ t ∧ Forall notice_obs t.
Proof.
  unfold sd_event_source_get_io_fd. destruct (sources a !! s) as [src|]; simpl.
  - destruct (src_kind src); by apply notice_trace_same.
  - exists [ObsSourceFault s]. split; [done|]. by repeat constructor.
Qed.

Lemma sd_event_source_unref_trace s a :
  ∃ t, trace (sd_event_source_unref s a) = trace a ++ t ∧ Forall notice_obs t.
Proof.
  unfold sd_event_source_unref. destruct (sources a !! s); simpl.
  - by apply notice_trace_same.
  - exists [ObsSourceFault s]. split; [done|]. by repeat constructor.
Qed.

Lemma SocketCallback_trace dupfd add_ok s action a :
  ∃ t, trace (SocketCallback dupfd add_ok s action a).1 = trace a ++ t ∧
       Forall notice_obs t.
Proof.
  unfold SocketCallback.
  set (a1 := if decide (action = CURL_POLL_REMOVE) then _ else a).
  assert (H1 : ∃ t, trace a1 = trace a ++ t ∧ Forall notice_obs t).
  { subst a1. case_decide; [|by apply notice_trace_same].
    destruct (active_io_ a !! s) as [io|]; [|by apply notice_trace_same].
    pose proof (sd_event_source_get_io_fd_trace io a) as H2.
    destruct (sd_event_source_get_io_fd io a) as [a2 fd]; simpl in H2.
    pose proof (sd_event_source_set_enabled_trace io SD_EVENT_OFF a2) as H3.
    destruct (sd_event_source_set_enabled io SD_EVENT_OFF a2) as [a3 r3]; simpl in H3.
    pose proof (sd_event_source_unref_trace io a3) as H4.
    eapply notice_trace_trans; [exact H2|]. eapply notice_trace_trans; [exact H3|].
    eapply notice_trace_trans; [exact H4|].
    exists [ObsClose fd]. split; [done|]. by repeat constructor. }
  clearbody a1. eapply notice_trace_trans; [exact H1|].
  destruct (active_io_ a !! s) as [io|].
  - pose proof (sd_event_source_set_io_events_trace io (action_to_revents action) a1) as H2.
    destruct (sd_event_source_set_io_events io _ a1) as [a2 r2]; simpl in H2.
    case_match; [done|].
    pose proof (sd_event_source_set_enabled_trace io SD_EVENT_ON a2) as H3.
    destruct (sd_event_source_set_enabled io _ a2) as [a3 r3]; simpl in H3.
    case_match; simpl; by eapply notice_trace_trans.
  - case_match; [by apply notice_trace_same|]. unfold sd_event_add_io.
    destruct add_ok; by apply notice_trace_same.
Qed.

Lemma TimerCallback_trace now add_ok timeout_ms a :
  ∃ t, trace (TimerCallback now add_ok timeout_ms a).1 = trace a ++ t ∧
       Forall notice_obs t.
Proof.
  unfold TimerCallback. case_match.
  - destruct (timer_ a) as [t|]; [|by apply notice_trace_same].
    pose proof (sd_event_source_set_enabled_trace t SD_EVENT_OFF a) as H1.
    destruct (sd_event_source_set_enabled t SD_EVENT_OFF a) as [a1 r]. by case_match.
  - destruct (timer_ a) as [t|].
    + pose proof (sd_event_source_set_time_trace t
                    (to_uint64 (TimepointTo_usec (steady_clock_plus_ms now timeout_ms))) a)
        as H1.
      destruct (sd_event_source_set_time t _ a) as [a1 r1]; simpl in H1.
      case_match; [done|].
      pose proof (sd_event_source_set_enabled_trace t SD_EVENT_ONESHOT a1) as H2.
      destruct (sd_event_source_set_enabled t _ a1) as [a2 r2]; simpl in H2.
      case_match; simpl; by eapply notice_trace_trans.
    + unfold sd_event_add_time. destruct add_ok; by apply notice_trace_same.
Qed.

Lemma notified_trace ns a :
  ∃ t, trace (notified ns a) = trace a ++ t ∧ Forall notice_obs t.
Proof.
  unfold notified. revert a. induction ns as [|n ns IH]; intros a; simpl.
  - by apply notice_trace_same.
  - eapply notice_trace_trans; [|apply IH].
    destruct n; simpl; [apply SocketCallback_trace|apply TimerCallback_trace].
Qed.

Lemma notified_callbacks ns a : callbacks (trace (notified ns a)) = callbacks (trace a).
Proof.
  destruct (q_trace (quiet_notified ns a)) as (t & -> & Hc & _).
  by rewrite callbacks_app, Hc, app_nil_r.
Qed.

(** ** [FinishRequest] *)

(** What [FinishRequest] does to a transfer whose handler is alive, when
    it dispatches the callback ... *)
Lemma FinishRequest_curl_dispatch on_remove curl_easy_strerror a c e hd result :
  easies a !! c = Some e → heap a !! opt_private e = Some hd →
  FinishRequest_curl on_remove curl_easy_strerror c result true a =
  let error :=
    if decide (result ≠ CURLE_OK)
    then (if decide (error_buffer hd = "") then curl_easy_strerror result else error_buffer hd)
    else "" in
  let arg := {| rw_value := MakeResponse hd; rw_status := info_response_code e;
                rw_error := error |} in
  (notified (on_remove c)
     (curl_easy_cleanup c (curl_multi_remove_handle [] c
        (set_active_requests (λ s, s ∖ {[ReqCurl c]})
           (RunCallback (opt_private e) (info_response_code e) error a).1))),
   callback_ hd arg).
Proof.
  intros He Hl. unfold FinishRequest_curl. rewrite He.
  rewrite (read_error_buffer_live _ _ _ Hl).
  case_decide; [case_decide|]; simpl; unfold RunCallback; rewrite Hl; simpl;
    unfold curl_easy_cleanup, curl_multi_remove_handle; by rewrite notified_set_easies.
Qed.

(** ... and when it does not. *)
Lemma FinishRequest_curl_cancel on_remove curl_easy_strerror a c e result :
  easies a !! c = Some e →
  FinishRequest_curl on_remove curl_easy_strerror c result false a =
  (notified (on_remove c)
     (curl_easy_cleanup c (curl_multi_remove_handle [] c
        (set_active_requests (λ s, s ∖ {[ReqCurl c]}) (delete_handler (opt_private e) a)))),
   0).
Proof.
  intros He. unfold FinishRequest_curl. rewrite He. simpl.
  unfold curl_easy_cleanup, curl_multi_remove_handle. by rewrite notified_set_easies.
Qed.

Lemma FinishRequest_curl_dead on_remove curl_easy_strerror a c result dispatch :
  easies a !! c = None →
  FinishRequest_curl on_remove curl_easy_strerror c result dispatch a =
  (set_active_requests (λ s, s ∖ {[ReqCurl c]}) (log (ObsCurlFault c) a), 0).
Proof. intros He. unfold FinishRequest_curl. by rewrite He. Qed.

Lemma cleanup_unreferences X T a c e :
  Hinv X T a → easies a !! c = Some e →
  ∀ r, handler_of (curl_easy_cleanup c a) r ≠ Some (opt_private e).
Proof.
  intros I He r Hr.
  assert (Hr' : handler_of a r = Some (opt_private e))
    by (eapply quiet_handler_of; [apply quiet_curl_easy_cleanup|done]).
  assert (r = ReqCurl c) as ->.
  { apply (hi_inj I _ _ _ Hr'). simpl. unfold easy_handler. by rewrite He. }
  simpl in Hr. unfold easy_handler in Hr. simpl in Hr. by rewrite lookup_delete_eq in Hr.
Qed.

Lemma Hinv_FinishRequest_curl on_remove curl_easy_strerror X T a c result dispatch :
  Hinv X T a → Hinv X T (FinishRequest_curl on_remove curl_easy_strerror c result dispatch a).1.
Proof.
  intros I. destruct (easies a !! c) as [e|] eqn:He.
  - assert (Hof : handler_of a (ReqCurl c) = Some (opt_private e))
      by (simpl; unfold easy_handler; by rewrite He).
    destruct (hi_live I _ _ Hof) as [hd Hl].
    pose proof (cleanup_unreferences _ _ _ _ _ I He) as Hun.
    pose proof (Hinv_quiet _ _ _ _ I (quiet_curl_easy_cleanup c a)) as I'.
    destruct dispatch.
    + rewrite (FinishRequest_curl_dispatch _ _ _ _ _ _ _ He Hl). simpl.
      set (error := if decide (result ≠ CURLE_OK) then _ else _).
      eapply Hinv_quiet; [|apply quiet_notified].
      eapply Hinv_quiet;
        [apply (Hinv_RunCallback X T (curl_easy_cleanup c a) (opt_private e)
                  (info_response_code e) error I')|].
      * simpl. eauto.
      * done.
      * apply (Hinv_referenced_not_X X T a (ReqCurl c) _ I Hof).
      * unfold RunCallback. simpl. rewrite Hl. simpl. unfold delete_handler. simpl.
        rewrite Hl. apply quiet_same; done.
    + rewrite (FinishRequest_curl_cancel _ _ _ _ _ _ He). simpl.
      eapply Hinv_quiet; [|apply quiet_notified].
      eapply Hinv_quiet;
        [eapply Hinv_weaken;
           [| |apply (Hinv_delete_handler X T (curl_easy_cleanup c a) (opt_private e) I')]|].
      * intros h ?. by left.
      * done.
      * simpl. eauto.
      * done.
      * unfold delete_handler. simpl. rewrite Hl. apply quiet_same; done.
  - rewrite FinishRequest_curl_dead by done. simpl.
    eapply Hinv_quiet; [done|]. etrans; [|quiet_step]. by apply quiet_log.
Qed.

Lemma RunCallback_active h status error a :
  active_requests_ (RunCallback h status error a).1 = active_requests_ a.
Proof.
  unfold RunCallback, delete_handler. destruct (heap a !! h) eqn:E; simpl; [|done].
  by rewrite E.
Qed.

Lemma delete_handler_active h a :
  active_requests_ (delete_handler h a) = active_requests_ a.
Proof. unfold delete_handler. by destruct (heap a !! h). Qed.

Lemma read_error_buffer_active h a :
  active_requests_ (read_error_buffer h a).1 = active_requests_ a.
Proof. unfold read_error_buffer. by destruct (heap a !! h). Qed.

Lemma sd_event_source_unref_active s a :
  active_requests_ (sd_event_source_unref s a) = active_requests_ a.
Proof. unfold sd_event_source_unref. by destruct (sources a !! s). Qed.

Lemma FinishRequest_curl_active on_remove curl_easy_strerror c result dispatch a :
  active_requests_ (FinishRequest_curl on_remove curl_easy_strerror c result dispatch a).1 =
  active_requests_ a ∖ {[ReqCurl c]}.
Proof.
  unfold FinishRequest_curl. destruct (easies a !! c) as [e|]; [|done].
  destruct dispatch; simpl.
  - case_decide.
    + pose proof (read_error_buffer_active (opt_private e) a) as Hr.
      destruct (read_error_buffer (opt_private e) a) as [a1 error]; simpl in Hr.
      case_decide.
      * pose proof (RunCallback_active (opt_private e) (info_response_code e)
                      (curl_easy_strerror result) a1) as Hc.
        destruct (RunCallback _ _ _ a1) as [a2 r]; simpl in *.
        unfold curl_multi_remove_handle. rewrite notified_active. simpl. congruence.
      * pose proof (RunCallback_active (opt_private e) (info_response_code e) error a1) as Hc.
        destruct (RunCallback _ _ _ a1) as [a2 r]; simpl in *.
        unfold curl_multi_remove_handle. rewrite notified_active. simpl. congruence.
    + pose proof (RunCallback_active (opt_private e) (info_response_code e) "" a) as Hc.
      destruct (RunCallback _ _ _ a) as [a2 r]; simpl in *.
      unfold curl_multi_remove_handle. rewrite notified_active. simpl. congruence.
  - unfold curl_multi_remove_handle. rewrite notified_active. simpl.
    by rewrite delete_handler_active.
Qed.

Lemma FinishRequest_source_active s a :
  active_requests_ (FinishRequest_source s a).1 = active_requests_ a ∖ {[ReqSource s]}.
Proof. unfold FinishRequest_source. simpl. by rewrite sd_event_source_unref_active. Qed.

(** ** [Cancel] and [CancelAll] *)

Lemma Cancel_active on_remove curl_easy_strerror request a :
  active_requests_ (Cancel on_remove curl_easy_strerror request a) = active_requests_ a ∖
      {[request]}.
Proof.
  destruct request; simpl;
    [apply FinishRequest_curl_active|apply FinishRequest_source_active].
Qed.

Lemma head_elements_None (s : gset ActiveRequest) : head (elements s) = None → s = ∅.
Proof.
  intros H. apply leibniz_equiv, elements_empty_inv. destruct (elements s); [done|discriminate].
Qed.

Lemma head_elements_Some (s : gset ActiveRequest) r : head (elements s) = Some r → r ∈ s.
Proof.
  intros H. apply elem_of_elements. destruct (elements s) as [|r' l]; [done|].
  injection H as ->. by left.
Qed.

(** The loop of [CancelAll] ends, with the set empty. *)
Lemma CancelAll_loop_total on_remove curl_easy_strerror fuel a :
  (size (active_requests_ a) ≤ fuel)%nat →
  ∃ a', CancelAll_loop on_remove curl_easy_strerror fuel a = Some a' ∧ active_requests_ a' = ∅.
Proof.
  revert a. induction fuel as [|fuel IH]; intros a Hs; simpl.
  - assert (active_requests_ a = ∅) as He by (apply leibniz_equiv, size_empty_inv; lia).
    rewrite He, elements_empty. simpl. eauto.
  - destruct (head (elements (active_requests_ a))) as [r|] eqn:Hh.
    + apply IH. rewrite Cancel_active.
      apply head_elements_Some in Hh.
      rewrite size_difference, size_singleton by set_solver.
      assert (size (active_requests_ a) ≠ 0)%nat
        by (apply size_non_empty_iff; set_solver).
      lia.
    + apply head_elements_None in Hh. eauto.
Qed.

Lemma sd_event_exit_active code a :
  active_requests_ (sd_event_exit code a).1 = active_requests_ a.
Proof. unfold sd_event_exit. by destruct (finished a). Qed.

Lemma CancelAll_active on_remove curl_easy_strerror a :
  active_requests_ (CancelAll on_remove curl_easy_strerror a) = ∅.
Proof.
  unfold CancelAll.
  destruct (CancelAll_loop_total on_remove curl_easy_strerror (size (active_requests_ a)) a)
    as (a' & -> & He); [done|].
  simpl. by rewrite sd_event_exit_active.
Qed.

Lemma Hinv_Cancel on_remove curl_easy_strerror X T request a :
  Hinv X T a → Hinv X T (Cancel on_remove curl_easy_strerror request a).
Proof.
  intros I. destruct request as [c|s]; simpl.
  - by apply Hinv_FinishRequest_curl.
  - eapply Hinv_quiet; [done|apply quiet_FinishRequest_source].
Qed.

(** A cancelled request's handler joins the handlers that are never
    called. *)
Lemma Hinv_Cancel_ext on_remove curl_easy_strerror X T request h a :
  Hinv X T a → handler_of a request = Some h →
  Hinv (λ h', X h' ∨ h' = h) T (Cancel on_remove curl_easy_strerror request a).
Proof.
  intros I Hof. destruct request as [c|s]; simpl in Hof; unfold Cancel.
  - unfold easy_handler in Hof. destruct (easies a !! c) as [e|] eqn:He; [|done].
    injection Hof as <-.
    assert (Hof : handler_of a (ReqCurl c) = Some (opt_private e))
      by (simpl; unfold easy_handler; by rewrite He).
    destruct (hi_live I _ _ Hof) as [hd Hl].
    pose proof (cleanup_unreferences _ _ _ _ _ I He) as Hun.
    pose proof (Hinv_quiet _ _ _ _ I (quiet_curl_easy_cleanup c a)) as I'.
    rewrite (FinishRequest_curl_cancel _ _ _ _ _ _ He). simpl.
    eapply Hinv_quiet; [|apply quiet_notified].
    eapply Hinv_quiet;
      [apply (Hinv_delete_handler X T (curl_easy_cleanup c a) (opt_private e) I')|].
    + simpl. eauto.
    + done.
    + unfold delete_handler. simpl. rewrite Hl. apply quiet_same; done.
  - set (a' := (FinishRequest_source s a).1).
    assert (Q : quiet a a') by apply quiet_FinishRequest_source.
    pose proof (Hinv_quiet _ _ _ _ I Q) as I'.
    assert (Hof' : handler_of a (ReqSource s) = Some h) by done.
    apply Hinv_extend; [done|..].
    + rewrite (q_next Q). apply (hi_bound I), (hi_live I _ _ Hof').
    + eapply Hinv_live_not_called; [done|]. apply (q_heap Q), (hi_live I _ _ Hof').
    + intros r Hr. pose proof (quiet_handler_of _ _ _ _ Q Hr) as Hr'.
      assert (r = ReqSource s) as -> by apply (hi_inj I _ _ _ Hr' Hof').
      subst a'. simpl in Hr.
      unfold child_handler, FinishRequest_source, sd_event_source_unref in Hr.
      simpl in Hr. unfold child_handler in Hof.
      destruct (sources a !! s) eqn:Es; [|done]. simpl in Hr.
      by rewrite lookup_delete_eq in Hr.
Qed.

Lemma Hinv_CancelAll_loop on_remove curl_easy_strerror X T fuel a a' :
  Hinv X T a → CancelAll_loop on_remove curl_easy_strerror fuel a = Some a' → Hinv X T a'.
Proof.
  revert a. induction fuel as [|fuel IH]; intros a I; simpl;
    destruct (head (elements (active_requests_ a))) as [r|]; simpl;
    try (by intros [= <-]); try discriminate.
  apply IH. by apply Hinv_Cancel.
Qed.

Lemma Hinv_sd_event_exit X T a : Hinv X T a → Hinv X T (sd_event_exit 1 a).1.
Proof.
  intros I. unfold sd_event_exit. destruct (finished a) eqn:E; simpl; [done|].
  split; try apply I; done.
Qed.

Lemma Hinv_CancelAll on_remove curl_easy_strerror X T a :
  Hinv X T a → Hinv X T (CancelAll on_remove curl_easy_strerror a).
Proof.
  intros I. unfold CancelAll.
  destruct (CancelAll_loop_total on_remove curl_easy_strerror (size (active_requests_ a)) a)
    as (a' & Ha' & He); [done|].
  rewrite Ha'. simpl. apply Hinv_sd_event_exit. by eapply Hinv_CancelAll_loop.
Qed.

(** ** [CheckFinished] *)

Lemma RunCallback_msgs h status error a :
  multi_msgs (RunCallback h status error a).1 = multi_msgs a.
Proof.
  unfold RunCallback, delete_handler. destruct (heap a !! h) eqn:E; simpl; [|done].
  by rewrite E.
Qed.

Lemma delete_handler_msgs h a : multi_msgs (delete_handler h a) = multi_msgs a.
Proof. unfold delete_handler. by destruct (heap a !! h). Qed.

Lemma read_error_buffer_msgs h a : multi_msgs (read_error_buffer h a).1 = multi_msgs a.
Proof. unfold read_error_buffer. by destruct (heap a !! h). Qed.

Lemma FinishRequest_curl_msgs on_remove curl_easy_strerror c result dispatch a :
  (length (multi_msgs (FinishRequest_curl on_remove curl_easy_strerror c result dispatch a).1)
   ≤ length (multi_msgs a))%nat.
Proof.
  unfold FinishRequest_curl. destruct (easies a !! c) as [e|]; [|done].
  destruct dispatch; simpl.
  - case_decide.
    + pose proof (read_error_buffer_msgs (opt_private e) a) as Hr.
      destruct (read_error_buffer (opt_private e) a) as [a1 error]; simpl in Hr.
      case_decide.
      * pose proof (RunCallback_msgs (opt_private e) (info_response_code e)
                      (curl_easy_strerror result) a1) as Hc.
        destruct (RunCallback _ _ _ a1) as [a2 r]; simpl in *.
        unfold curl_multi_remove_handle. rewrite notified_multi_msgs. simpl.
        rewrite Hc, Hr. apply length_filter.
      * pose proof (RunCallback_msgs (opt_private e) (info_response_code e) error a1) as Hc.
        destruct (RunCallback _ _ _ a1) as [a2 r]; simpl in *.
        unfold curl_multi_remove_handle. rewrite notified_multi_msgs. simpl.
        rewrite Hc, Hr. apply length_filter.
    + pose proof (RunCallback_msgs (opt_private e) (info_response_code e) "" a) as Hc.
      destruct (RunCallback _ _ _ a) as [a2 r]; simpl in *.
      unfold curl_multi_remove_handle. rewrite notified_multi_msgs. simpl.
      rewrite Hc. apply length_filter.
  - unfold curl_multi_remove_handle. rewrite notified_multi_msgs. simpl.
    rewrite delete_handler_msgs. apply length_filter.
Qed.

(** The loop of [CheckFinished] ends. *)
Lemma CheckFinished_loop_total on_remove curl_easy_strerror fuel a :
  (length (multi_msgs a) ≤ fuel)%nat →
  is_Some (CheckFinished_loop on_remove curl_easy_strerror fuel a).
Proof.
  revert a. induction fuel as [|fuel IH]; intros a Hl;
    unfold CheckFinished_loop, curl_multi_info_read; fold CheckFinished_loop;
    destruct (multi_msgs a) as [|[c result] rest] eqn:Hm; simpl in *; eauto; [lia|].
  pose proof (FinishRequest_curl_msgs on_remove curl_easy_strerror c result true
                (set_multi id (λ _, rest) a)) as Hf.
  destruct (FinishRequest_curl _ _ c result true _) as [a1 r]; simpl in Hf.
  case_match; [eauto|]. apply IH. lia.
Qed.

Lemma quiet_curl_multi_info_read a : quiet a (curl_multi_info_read a).1.
Proof. unfold curl_multi_info_read. destruct (multi_msgs a); [done|]. apply quiet_set_multi. Qed.

Lemma Hinv_CheckFinished_loop on_remove curl_easy_strerror X T fuel a a' r :
  Hinv X T a → CheckFinished_loop on_remove curl_easy_strerror fuel a = Some (a', r) → Hinv X T a'.
Proof.
  revert a. induction fuel as [|fuel IH]; intros a I;
    unfold CheckFinished_loop; fold CheckFinished_loop;
    pose proof (quiet_curl_multi_info_read a) as Q;
    destruct (curl_multi_info_read a) as [a1 [[c result]|]]; simpl in Q;
    try discriminate; try (intros [= <- <-]; by eapply Hinv_quiet).
  pose proof (Hinv_FinishRequest_curl on_remove curl_easy_strerror X T a1 c result true
                (Hinv_quiet _ _ _ _ I Q)) as I2.
  destruct (FinishRequest_curl _ _ c result true a1) as [a2 r2]; simpl in I2.
  case_match.
  - intros [= <- <-]. by apply Hinv_CancelAll.
  - by apply IH.
Qed.

Lemma Hinv_CheckFinished on_remove curl_easy_strerror X T a :
  Hinv X T a → Hinv X T (CheckFinished on_remove curl_easy_strerror a).1.
Proof.
  intros I. unfold CheckFinished.
  destruct (CheckFinished_loop_total on_remove curl_easy_strerror (length (multi_msgs a)) a)
    as [[a' r] Ha']; [done|].
  rewrite Ha'. simpl. by eapply Hinv_CheckFinished_loop.
Qed.

(** ** libcurl at work *)

Lemma in_flight_Some c a e : in_flight c a = Some e → easies a !! c = Some e.
Proof. unfold in_flight. by case_match. Qed.

Lemma Hinv_easy_live X T a c e :
  Hinv X T a → easies a !! c = Some e →
  is_Some (heap a !! opt_private e) ∧
  opt_writedata e = opt_private e ∧ opt_errorbuffer e = opt_private e.
Proof.
  intros I He. split; [|by apply (hi_same I c)].
  apply (hi_live I (ReqCurl c)). simpl. unfold easy_handler. by rewrite He.
Qed.

Lemma quiet_set_response_code c e code a :
  easies a !! c = Some e → quiet a (set_easies <[c := set_response_code code e]> a).
Proof.
  intros He. split; try done.
  - intros c' e'. simpl. destruct (decide (c' = c)) as [->|Hne].
    + rewrite lookup_insert_eq. intros [= <-]. by exists e.
    + rewrite lookup_insert_ne by done. intros ?. by exists e'.
  - exists []. by rewrite app_nil_r.
Qed.

Lemma Hinv_curl_act X T act a : Hinv X T a → Hinv X T (curl_act act a).
Proof.
  intros I. destruct act; simpl.
  - eapply Hinv_quiet; [done|apply quiet_SocketCallback].
  - eapply Hinv_quiet; [done|apply quiet_TimerCallback].
  - destruct (in_flight c a) as [e|] eqn:E; [|done]. apply in_flight_Some in E.
    destruct (Hinv_easy_live _ _ _ _ _ I E) as (Hl & -> & _).
    eapply Hinv_quiet; [done|by apply quiet_BodyCallback].
  - destruct (in_flight c a) as [e|] eqn:E; [|done]. case_match; [|done].
    eapply Hinv_quiet; [done|apply quiet_DebugCallback].
  - destruct (in_flight c a) as [e|] eqn:E; [|done]. apply in_flight_Some in E.
    destruct (Hinv_easy_live _ _ _ _ _ I E) as (Hl & _ & ->).
    eapply Hinv_quiet; [done|by apply quiet_write_error_buffer].
  - destruct (in_flight c a) as [e|] eqn:E; [|done]. apply in_flight_Some in E.
    eapply Hinv_quiet; [done|]. etrans; [|apply quiet_set_multi].
    by apply quiet_set_response_code.
Qed.

Lemma Hinv_curl_acts X T l a :
  Hinv X T a → Hinv X T (foldl (λ a act, curl_act act a) a l).
Proof.
  revert a. induction l as [|act l IH]; intros a I; simpl; [done|].
  apply IH. by apply Hinv_curl_act.
Qed.

Lemma Hinv_curl_multi_add_handle X T reaction c a :
  Hinv X T a → Hinv X T (curl_multi_add_handle reaction c a).
Proof.
  intros I. apply Hinv_curl_acts. eapply Hinv_quiet; [done|apply quiet_set_multi].
Qed.

Lemma Hinv_curl_multi_socket_action X T reaction sockfd ev_bitmask a :
  Hinv X T a → Hinv X T (curl_multi_socket_action reaction sockfd ev_bitmask a).1.
Proof.
  unfold curl_multi_socket_action. simpl. apply Hinv_curl_acts.
Qed.

Lemma Hinv_OnCurlIO on_remove curl_easy_strerror X T reaction fd revents a :
  Hinv X T a → Hinv X T (OnCurlIO on_remove curl_easy_strerror reaction fd revents a).1.
Proof.
  intros I. unfold OnCurlIO.
  match goal with |- context [curl_multi_socket_action reaction ?x ?y ?z] =>
    pose proof (Hinv_curl_multi_socket_action X T reaction x y z
                  (Hinv_quiet _ _ _ _ I (quiet_set_translate_fds _ a))) as I2;
    destruct (curl_multi_socket_action reaction x y z) as [a2 rc] end.
  simpl in I2. case_decide; [done|]. by apply Hinv_CheckFinished.
Qed.

Lemma Hinv_OnCurlTimer on_remove curl_easy_strerror X T reaction a :
  Hinv X T a → Hinv X T (OnCurlTimer on_remove curl_easy_strerror reaction a).1.
Proof.
  intros I. unfold OnCurlTimer.
  pose proof (Hinv_curl_multi_socket_action X T reaction CURL_SOCKET_TIMEOUT 0 a I) as I2.
  destruct (curl_multi_socket_action reaction _ _ a) as [a2 rc].
  simpl in I2. case_decide; [done|]. by apply Hinv_CheckFinished.
Qed.

(** ** [OnCloneExit] *)

Lemma FinishRequest_source_unreferences X T a s h :
  Hinv X T a → child_handler a s = Some h →
  ∀ r, handler_of (FinishRequest_source s a).1 r ≠ Some h.
Proof.
  intros I Hof r Hr.
  pose proof (quiet_handler_of _ _ _ _ (quiet_FinishRequest_source s a) Hr) as Hr'.
  assert (r = ReqSource s) as -> by (by apply (hi_inj I _ _ _ Hr')).
  simpl in Hr. unfold child_handler, FinishRequest_source, sd_event_source_unref in Hr.
  simpl in Hr. unfold child_handler in Hof.
  destruct (sources a !! s) eqn:Es; [|done]. simpl in Hr.
  by rewrite lookup_delete_eq in Hr.
Qed.

Lemma Hinv_OnCloneExit X T s si_status h a :
  Hinv X T a → child_handler a s = Some h →
  Hinv X T (OnCloneExit s si_status h a).1.
Proof.
  intros I Hof. unfold OnCloneExit.
  assert (Hof' : handler_of a (ReqSource s) = Some h) by done.
  destruct (hi_live I _ _ Hof') as [hd Hl].
  unfold handler_aur. rewrite Hl. simpl.
  pose proof (quiet_FinishRequest_source s a) as Q.
  apply Hinv_RunCallback.
  - by eapply Hinv_quiet.
  - apply (q_heap Q). eauto.
  - by eapply FinishRequest_source_unreferences.
  - by eapply Hinv_referenced_not_X.
Qed.

(** ** The reactor *)

Lemma child_handler_set_enabled s m a s' :
  child_handler (sd_event_source_set_enabled s m a).1 s' = child_handler a s'.
Proof.
  unfold sd_event_source_set_enabled, child_handler.
  destruct (sources a !! s) as [src|] eqn:E; simpl; [|done].
  destruct (decide (s' = s)) as [->|Hne].
  - by rewrite lookup_insert_eq, E.
  - by rewrite lookup_insert_ne.
Qed.

Lemma quiet_oneshot_off s en a : quiet a (oneshot_off s en a).
Proof. unfold oneshot_off. case_decide; [quiet_step|done]. Qed.

Lemma child_handler_oneshot_off s en a s' :
  child_handler (oneshot_off s en a) s' = child_handler a s'.
Proof. unfold oneshot_off. case_decide; [apply child_handler_set_enabled|done]. Qed.

Lemma quiet_after_dispatch s r a : quiet a (after_dispatch s r a).
Proof.
  unfold after_dispatch. case_match; [|done].
  destruct (sources a !! s); [quiet_step|done].
Qed.

Lemma Hinv_sd_event_dispatch on_remove curl_easy_strerror X T ev a :
  Hinv X T a → Hinv X T (sd_event_dispatch on_remove curl_easy_strerror ev a).1.
Proof.
  intros I. destruct ev as [|errno|s revents reaction|s reaction|s si_status]; simpl; try done.
  - destruct (sources a !! s) as [[[fd events|usec|pid userdata] en]|] eqn:Es; try done.
    case_decide; [done|].
    pose proof (Hinv_OnCurlIO on_remove curl_easy_strerror X T reaction fd revents _
                  (Hinv_quiet _ _ _ _ I (quiet_oneshot_off s en a))) as I2.
    destruct (OnCurlIO _ _ reaction fd revents _) as [a2 r]; simpl in *.
    eapply Hinv_quiet; [done|apply quiet_after_dispatch].
  - destruct (sources a !! s) as [[[fd events|usec|pid userdata] en]|] eqn:Es; try done.
    case_decide; [done|].
    pose proof (Hinv_OnCurlTimer on_remove curl_easy_strerror X T reaction _
                  (Hinv_quiet _ _ _ _ I (quiet_oneshot_off s en a))) as I2.
    destruct (OnCurlTimer _ _ reaction _) as [a2 r]; simpl in *.
    eapply Hinv_quiet; [done|apply quiet_after_dispatch].
  - destruct (sources a !! s) as [[[fd events|usec|pid userdata] en]|] eqn:Es; try done.
    case_decide; [done|].
    assert (Hc : child_handler (oneshot_off s en a) s = Some userdata).
    { rewrite child_handler_oneshot_off. unfold child_handler. by rewrite Es. }
    pose proof (Hinv_OnCloneExit X T s si_status userdata _
                  (Hinv_quiet _ _ _ _ I (quiet_oneshot_off s en a)) Hc) as I2.
    destruct (OnCloneExit s si_status userdata _) as [a2 r]; simpl in *.
    eapply Hinv_quiet; [done|apply quiet_after_dispatch].
Qed.

Lemma Hinv_sd_event_run on_remove curl_easy_strerror X T script a a' r rest :
  Hinv X T a → sd_event_run on_remove curl_easy_strerror script a = Some (a', r, rest) → Hinv X T
      a'.
Proof.
  intros I. unfold sd_event_run.
  destruct (finished a) eqn:Ef; [by intros [= <- <- <-]|].
  destruct (exit_requested a) eqn:Ee.
  - intros [= <- <- <-]. split; try apply I; simpl; [|done].
    intros _. by apply (hi_exit_code I).
  - destruct script as [|ev rest']; [done|].
    pose proof (Hinv_sd_event_dispatch on_remove curl_easy_strerror X T ev a I) as I2.
    destruct (sd_event_dispatch _ _ ev a) as [a2 r2]. by intros [= <- <- <-].
Qed.

Lemma Hinv_Wait_loop on_remove curl_easy_strerror X T fuel script a a' rest b :
  Hinv X T a → Wait_loop on_remove curl_easy_strerror fuel script a = Some (a', rest, b) →
  Hinv X T a'.
Proof.
  revert script a. induction fuel as [|fuel IH]; intros script a I; simpl;
    (case_decide; [by intros [= <- <- <-]|]); [done|].
  destruct (sd_event_run _ _ script a) as [[[a2 r2] rest2]|] eqn:Er;
    [|by intros [= <- <- <-]].
  pose proof (Hinv_sd_event_run _ _ _ _ _ _ _ _ _ I Er) as I2.
  case_match; [by intros [= <- <- <-]|]. by apply IH.
Qed.

(** The loop of [Wait] ends or reaches the end of the script. *)
Lemma Wait_loop_total on_remove curl_easy_strerror fuel script a :
  ((if finished a then 1 else length script + 2) ≤ fuel)%nat →
  is_Some (Wait_loop on_remove curl_easy_strerror fuel script a).
Proof.
  revert script a. induction fuel as [|fuel IH]; intros script a Hf; simpl;
    (case_decide; [by eauto|]).
  - destruct (finished a); lia.
  - unfold sd_event_run. destruct (finished a) eqn:Ef; [by eauto|].
    destruct (exit_requested a) eqn:Ee; simpl.
    + apply IH. simpl. lia.
    + destruct script as [|ev rest]; [by eauto|].
      destruct (sd_event_dispatch _ _ ev a) as [a2 r2].
      case_match; [by eauto|]. apply IH. simpl in Hf. destruct (finished a2); lia.
Qed.

(** The fuel [Wait] gives its loop is enough. *)
Lemma Wait_fuel_enough on_remove curl_easy_strerror script a :
  is_Some (Wait_loop on_remove curl_easy_strerror (length script + 2) script a).
Proof. apply Wait_loop_total. destruct (finished a); lia. Qed.

Lemma Hinv_Wait on_remove curl_easy_strerror X T script a :
  Hinv X T a → Hinv X T (Wait on_remove curl_easy_strerror script a).1.1.
Proof.
  intros I. unfold Wait.
  destruct (Wait_loop _ _ _ script a) as [[[a' rest] []]|] eqn:E; simpl; try done;
    by eapply Hinv_Wait_loop.
Qed.

(** ** Submission *)

Lemma Hinv_QueueHttpRequest X T traits libcurl request callback a :
  Hinv X T a → Hinv X T (QueueHttpRequest traits libcurl request callback a).
Proof.
  unfold QueueHttpRequest. generalize (Build request (baseurl_ a)). intros l.
  revert a. induction l as [|url l IH]; intros a I; simpl; [done|].
  apply IH. destruct (Hinv_fresh _ _ _ I) as (Hn & Hr & HX & Hc).
  unfold QueueHttpRequest_body.
  eapply Hinv_quiet; [|apply quiet_set_active_requests].
  apply Hinv_curl_multi_add_handle.
  apply Hinv_new_easy; simpl; try done.
  - by apply Hinv_new_handler.
  - rewrite lookup_insert_eq. eauto.
Qed.

Lemma Hinv_QueueCloneRequest strerror X T os request callback a :
  Hinv X T a → Hinv X T (QueueCloneRequest strerror os request callback a).
Proof.
  intros I. unfold QueueCloneRequest. destruct (Hinv_fresh _ _ _ I) as (Hn & Hr & HX & Hc).
  destruct (fork os) as [errno|pid].
  - apply Hinv_RunCallback; simpl; try done.
    + by apply Hinv_new_handler.
    + rewrite lookup_insert_eq. eauto.
  - eapply Hinv_quiet; [|apply quiet_set_active_requests].
    apply Hinv_add_child; simpl; try done.
    + eapply Hinv_quiet; [by apply Hinv_new_handler|]. by apply quiet_log.
    + rewrite lookup_insert_eq. eauto.
Qed.

(** ** Runs *)

Lemma Hinv_call on_remove curl_easy_strerror strerror X T c a :
  Hinv X T a → Hinv X T (call on_remove curl_easy_strerror strerror c a).
Proof.
  intros I. destruct c; simpl.
  - by apply Hinv_QueueHttpRequest.
  - by apply Hinv_QueueHttpRequest.
  - by apply Hinv_QueueHttpRequest.
  - by apply Hinv_QueueCloneRequest.
  - by apply Hinv_CancelAll.
  - by apply Hinv_Wait.
Qed.

Lemma Hinv_run on_remove curl_easy_strerror strerror X T calls a :
  Hinv X T a → Hinv X T (run on_remove curl_easy_strerror strerror calls a).
Proof.
  unfold run. revert a. induction calls as [|c calls IH]; intros a I; simpl; [done|].
  apply IH. by apply Hinv_call.
Qed.

Lemma Hinv_Aur_new baseurl debug : Hinv (λ _, False) [] (Aur_new baseurl debug).
Proof.
  unfold Aur_new.
  destruct (match ConsumePrefix debug "requests:" with
            | Some path => (DEBUG_REQUESTS, Some path)
            | None => if decide (debug ≠ "") then (DEBUG_VERBOSE_STDERR, None)
                      else (DEBUG_NONE, None)
            end) as [level stream].
  split; simpl; try done.
  - intros [c|s] h; simpl; [unfold easy_handler|unfold child_handler]; simpl;
      by rewrite lookup_empty.
  - intros [c|s] r2 h; simpl; [unfold easy_handler|unfold child_handler]; simpl;
      by rewrite lookup_empty.
  - intros h [? Hh]. by rewrite lookup_empty in Hh.
  - intros h Hh. by apply elem_of_nil in Hh.
  - constructor.
Qed.

(** ** Counting callbacks *)

Lemma times_called_NoDup (l : list nat) h :
  NoDup l → h ∈ l → length (filter (λ h', h' = h) l) = 1%nat.
Proof.
  induction 1 as [|x l Hx Hl IH]; [by intros ?%elem_of_nil|].
  rewrite elem_of_cons, filter_cons. intros [->|Hin].
  - rewrite decide_True by done. simpl. f_equal.
    destruct (filter (λ h', h' = x) l) as [|y k] eqn:E; [done|].
    assert (y ∈ filter (λ h', h' = x) l) as [-> ?]%list_elem_of_filter
      by (rewrite E; left). done.
  - case_decide as Hd; [|by apply IH]. subst. done.
Qed.

Lemma times_called_absent (l : list nat) h :
  h ∉ l → length (filter (λ h', h' = h) l) = 0%nat.
Proof.
  intros Hn. destruct (filter (λ h', h' = h) l) as [|y k] eqn:E; [done|].
  assert (y ∈ filter (λ h', h' = h) l) as [-> ?]%list_elem_of_filter
    by (rewrite E; left). done.
Qed.

(** A handler called within the prefix [T] of the log has been called
    exactly once. *)
Lemma Hinv_called_once X T a h :
  Hinv X T a → h ∈ callbacks T → times_called h (trace a) = 1%nat.
Proof.
  intros I Hh. apply times_called_NoDup; [apply (hi_nodup I)|].
  destruct (hi_prefix I) as [k ->]. rewrite callbacks_app, elem_of_app. by left.
Qed.

Lemma Hinv_never_called X T a h : Hinv X T a → X h → times_called h (trace a) = 0%nat.
Proof. intros I Hh. apply times_called_absent. by destruct (hi_X I _ Hh) as (_ & ? & _). Qed.

Lemma Hinv_here X T a : Hinv X T a → Hinv X (trace a) a.
Proof. intros I. split; try apply I. done. Qed.

(** ** [Wait] on an engine without active requests *)

Lemma Wait_loop_idle on_remove curl_easy_strerror fuel script a :
  active_requests_ a = ∅ →
  Wait_loop on_remove curl_easy_strerror fuel script a = Some (a, script, true).
Proof. intros He. destruct fuel; simpl; by rewrite decide_True. Qed.

Lemma Wait_idle on_remove curl_easy_strerror script a :
  active_requests_ a = ∅ →
  Wait on_remove curl_easy_strerror script a =
  (a, script, Some (- default 0 (sd_event_get_exit_code a))).
Proof. intros He. unfold Wait. by rewrite Wait_loop_idle. Qed.


Lemma CancelAll_exit on_remove curl_easy_strerror X T a :
  Hinv X T a →
  sd_event_get_exit_code (CancelAll on_remove curl_easy_strerror a) = Some 1.
Proof.
  intros I. unfold CancelAll.
  destruct (CancelAll_loop_total on_remove curl_easy_strerror (size (active_requests_ a)) a)
    as (a' & Ha' & He); [done|].
  rewrite Ha'. simpl. pose proof (Hinv_CancelAll_loop _ _ _ _ _ _ _ I Ha') as I'.
  unfold sd_event_exit, sd_event_get_exit_code.
  destruct (finished a') eqn:Ef; simpl; [|done].
  rewrite (hi_finished I' Ef). by rewrite (hi_exit_code I' (hi_finished I' Ef)).
Qed.

Lemma CancelAll_idle on_remove curl_easy_strerror a :
  active_requests_ a = ∅ →
  CancelAll on_remove curl_easy_strerror a = (sd_event_exit 1 a).1.
Proof.
  intros He. unfold CancelAll. rewrite He, size_empty. simpl.
  by rewrite He, elements_empty.
Qed.

Lemma Wait_after_CancelAll on_remove curl_easy_strerror X T a script :
  Hinv X T a →
  Wait on_remove curl_easy_strerror script (CancelAll on_remove curl_easy_strerror a) =
  (CancelAll on_remove curl_easy_strerror a, script, Some (-1)).
Proof.
  intros I. rewrite Wait_idle by apply CancelAll_active.
  by erewrite CancelAll_exit.
Qed.

(** ** Further facts about single calls *)

Lemma FinishRequest_source_heap s a : heap (FinishRequest_source s a).1 = heap a.
Proof.
  unfold FinishRequest_source, sd_event_source_unref. simpl.
  by destruct (sources _ !! s).
Qed.

Lemma OnCloneExit_live s si_status h hd a :
  heap a !! h = Some hd →
  OnCloneExit s si_status h a =
  RunCallback h si_status
    (if decide (si_status ≠ 0)
     then "git exited with unexpected exit status " +:+ to_string si_status
     else "")
    (FinishRequest_source s a).1.
Proof. intros Hl. unfold OnCloneExit, handler_aur. by rewrite Hl. Qed.

Lemma RunCallback_callbacks h hd status error a :
  heap a !! h = Some hd →
  callbacks (trace (RunCallback h status error a).1) = callbacks (trace a) ++ [h].
Proof.
  intros Hl. unfold RunCallback, delete_handler. rewrite Hl. simpl. rewrite Hl. simpl.
  rewrite <-app_assoc, callbacks_app. done.
Qed.

Lemma new_handler_lookup hd a : heap (new_handler hd a) !! next_handler a = Some hd.
Proof. simpl. apply lookup_insert_eq. Qed.

Lemma Aur_new_idle baseurl debug :
  active_requests_ (Aur_new baseurl debug) = ∅ ∧
  exit_requested (Aur_new baseurl debug) = false ∧
  trace (Aur_new baseurl debug) = [].
Proof.
  unfold Aur_new. destruct (ConsumePrefix debug "requests:"); [done|]. by case_decide.
Qed.

(** The exit state of the reactor loop. *)
Lemma RunCallback_exit h status error a :
  let a' := (RunCallback h status error a).1 in
  exit_requested a' = exit_requested a ∧ exit_code a' = exit_code a ∧
  finished a' = finished a.
Proof.
  unfold RunCallback, delete_handler. destruct (heap a !! h) eqn:E; simpl; [|done].
  rewrite E. simpl. done.
Qed.

(** Cancelling runs no callback. *)
Lemma Cancel_callbacks on_remove curl_easy_strerror request a :
  callbacks (trace (Cancel on_remove curl_easy_strerror request a)) = callbacks (trace a).
Proof.
  destruct request as [c|s]; unfold Cancel.
  - destruct (easies a !! c) as [e|] eqn:He.
    + rewrite (FinishRequest_curl_cancel _ _ _ _ _ _ He). simpl.
      rewrite notified_callbacks. simpl. unfold delete_handler.
      destruct (heap a !! opt_private e); simpl; by rewrite callbacks_app, app_nil_r.
    + rewrite FinishRequest_curl_dead by done. simpl. by rewrite callbacks_app, app_nil_r.
  - unfold FinishRequest_source, sd_event_source_unref. simpl.
    destruct (sources a !! s); simpl; [done|]. by rewrite callbacks_app, app_nil_r.
Qed.

Lemma CancelAll_loop_callbacks on_remove curl_easy_strerror fuel a a' :
  CancelAll_loop on_remove curl_easy_strerror fuel a = Some a' →
  callbacks (trace a') = callbacks (trace a).
Proof.
  revert a. induction fuel as [|fuel IH]; intros a; simpl;
    destruct (head (elements (active_requests_ a))) as [r|]; simpl;
    try discriminate; try (by intros [= <-]).
  intros H. rewrite (IH _ H). apply Cancel_callbacks.
Qed.

Lemma CancelAll_callbacks on_remove curl_easy_strerror a :
  callbacks (trace (CancelAll on_remove curl_easy_strerror a)) = callbacks (trace a).
Proof.
  unfold CancelAll.
  destruct (CancelAll_loop_total on_remove curl_easy_strerror (size (active_requests_ a)) a)
    as (a' & Ha' & He); [done|].
  rewrite Ha'. simpl. rewrite <-(CancelAll_loop_callbacks _ _ _ _ _ Ha').
  unfold sd_event_exit. by destruct (finished a').
Qed.

Lemma CancelAll_returns on_remove curl_easy_strerror X T a :
  Hinv X T a →
  returns (trace (CancelAll on_remove curl_easy_strerror a)) = returns (trace a).
Proof.
  intros I. apply returns_grow; [|apply CancelAll_callbacks].
  apply (hi_prefix (Hinv_CancelAll on_remove curl_easy_strerror _ _ _ (Hinv_here _ _ _ I))).
Qed.

(** What the dispatch of one completion adds to the log. *)
Lemma FinishRequest_curl_dispatch_trace on_remove curl_easy_strerror a c e hd result :
  easies a !! c = Some e → heap a !! opt_private e = Some hd →
  ∃ arg t,
    trace (FinishRequest_curl on_remove curl_easy_strerror c result true a).1 =
    trace a ++ [ObsCallback (opt_private e) arg
                  (FinishRequest_curl on_remove curl_easy_strerror c result true a).2;
                ObsDelete (opt_private e)] ++ t ∧
    Forall notice_obs t.
Proof.
  intros He Hl. rewrite (FinishRequest_curl_dispatch _ _ _ _ _ _ _ He Hl). simpl.
  set (error := if decide (result ≠ CURLE_OK) then _ else _).
  set (a1 := curl_easy_cleanup c _).
  destruct (notified_trace (on_remove c) a1) as (t & Ht & Hn).
  eexists _, t. split; [|done]. rewrite Ht. subst a1. simpl.
  unfold RunCallback, delete_handler. rewrite Hl. simpl. rewrite Hl. simpl.
  by rewrite <-!app_assoc.
Qed.


(** * The claims *)

(** ** C1 *)

(** [Cancel] creates no pointer to a handler ... *)
Lemma Cancel_drops on_remove curl_easy_strerror r0 r h a :
  handler_of (Cancel on_remove curl_easy_strerror r0 a) r = Some h → handler_of a r = Some h.
Proof.
  destruct r0 as [c0|s0]; unfold Cancel.
  - destruct (easies a !! c0) as [e|] eqn:He.
    + rewrite (FinishRequest_curl_cancel _ _ _ _ _ _ He). simpl. intros Hr.
      apply (quiet_handler_of _ _ _ _ (quiet_notified _ _)) in Hr.
      apply (quiet_handler_of _ _ _ _ (quiet_curl_easy_cleanup _ _)) in Hr.
      apply (quiet_handler_of _ _ _ _ (quiet_curl_multi_remove_handle _ _ _)) in Hr.
      apply (quiet_handler_of _ _ _ _ (quiet_set_active_requests _ _)) in Hr.
      revert Hr. unfold delete_handler.
      by destruct r, (heap a !! opt_private e).
    + rewrite FinishRequest_curl_dead by done. by destruct r.
  - apply quiet_handler_of, quiet_FinishRequest_source.
Qed.

(** ... and leaves none in the request it cancels. *)
Lemma Cancel_unreferences on_remove curl_easy_strerror r a :
  handler_of (Cancel on_remove curl_easy_strerror r a) r = None.
Proof.
  destruct r as [c|s]; unfold Cancel.
  - destruct (easies a !! c) as [e|] eqn:He.
    + rewrite (FinishRequest_curl_cancel _ _ _ _ _ _ He). simpl. unfold easy_handler.
      rewrite notified_easies. simpl. by rewrite lookup_delete_eq.
    + rewrite FinishRequest_curl_dead by done. simpl. unfold easy_handler. simpl.
      by rewrite He.
  - unfold FinishRequest_source, sd_event_source_unref. simpl. unfold child_handler.
    destruct (sources a !! s) eqn:Es; simpl; [by rewrite lookup_delete_eq|by rewrite Es].
Qed.

Lemma Cancel_next_handler on_remove curl_easy_strerror r a :
  next_handler (Cancel on_remove curl_easy_strerror r a) = next_handler a.
Proof.
  destruct r as [c|s]; unfold Cancel.
  - destruct (easies a !! c) as [e|] eqn:He.
    + rewrite (FinishRequest_curl_cancel _ _ _ _ _ _ He). simpl.
      rewrite (q_next (quiet_notified _ _)). simpl. unfold delete_handler.
      by destruct (heap a !! opt_private e).
    + by rewrite FinishRequest_curl_dead.
  - apply (q_next (quiet_FinishRequest_source s a)).
Qed.

Lemma CancelAll_loop_drops on_remove curl_easy_strerror fuel a a' r h :
  CancelAll_loop on_remove curl_easy_strerror fuel a = Some a' →
  handler_of a' r = Some h → handler_of a r = Some h.
Proof.
  revert a. induction fuel as [|fuel IH]; intros a; simpl;
    destruct (head (elements (active_requests_ a))) as [r0|]; simpl;
    try discriminate; try (by intros [= <-]).
  intros Hloop Hr. eapply Cancel_drops, IH; done.
Qed.

Lemma CancelAll_loop_unreferences on_remove curl_easy_strerror fuel a a' r :
  r ∈ active_requests_ a →
  CancelAll_loop on_remove curl_easy_strerror fuel a = Some a' → handler_of a' r = None.
Proof.
  revert a. induction fuel as [|fuel IH]; intros a Hin; simpl;
    destruct (head (elements (active_requests_ a))) as [r0|] eqn:Hh; simpl;
    try discriminate;
    try (apply head_elements_None in Hh; rewrite Hh in Hin; by apply not_elem_of_empty in Hin).
  intros Hloop. destruct (decide (r0 = r)) as [->|Hne].
  - destruct (handler_of a' r) as [h|] eqn:Hr; [|done].
    apply (CancelAll_loop_drops _ _ _ _ _ _ _ Hloop) in Hr.
    by rewrite Cancel_unreferences in Hr.
  - eapply IH; [|done]. rewrite Cancel_active. set_solver.
Qed.

Lemma CancelAll_loop_next_handler on_remove curl_easy_strerror fuel a a' :
  CancelAll_loop on_remove curl_easy_strerror fuel a = Some a' →
  next_handler a' = next_handler a.
Proof.
  revert a. induction fuel as [|fuel IH]; intros a; simpl;
    destruct (head (elements (active_requests_ a))) as [r0|]; simpl;
    try discriminate; try (by intros [= <-]).
  intros Hloop. rewrite (IH _ Hloop). apply Cancel_next_handler.
Qed.

Lemma Hinv_CancelAll_loop_ext on_remove curl_easy_strerror X T request h fuel a a' :
  Hinv X T a → request ∈ active_requests_ a → handler_of a request = Some h →
  CancelAll_loop on_remove curl_easy_strerror fuel a = Some a' →
  Hinv (λ h', X h' ∨ h' = h) T a'.
Proof.
  intros I Hin Hof Hloop.
  pose proof (Hinv_CancelAll_loop _ _ _ _ _ _ _ I Hloop) as I'.
  apply Hinv_extend; [done|..].
  - rewrite (CancelAll_loop_next_handler _ _ _ _ _ Hloop).
    apply (hi_bound I), (hi_live I _ _ Hof).
  - rewrite (CancelAll_loop_callbacks _ _ _ _ _ Hloop).
    eapply Hinv_live_not_called; [done|]. apply (hi_live I _ _ Hof).
  - intros r Hr. pose proof (CancelAll_loop_drops _ _ _ _ _ _ _ Hloop Hr) as Hr0.
    assert (r = request) as -> by apply (hi_inj I _ _ _ Hr0 Hof).
    by rewrite (CancelAll_loop_unreferences _ _ _ _ _ _ Hin Hloop) in Hr.
Qed.

Lemma Hinv_CancelAll_ext on_remove curl_easy_strerror X T request h a :
  Hinv X T a → request ∈ active_requests_ a → handler_of a request = Some h →
  Hinv (λ h', X h' ∨ h' = h) T (CancelAll on_remove curl_easy_strerror a).
Proof.
  intros I Hin Hof. unfold CancelAll.
  destruct (CancelAll_loop_total on_remove curl_easy_strerror (size (active_requests_ a)) a)
    as (a' & Ha' & He); [done|].
  rewrite Ha'. simpl. apply Hinv_sd_event_exit. by eapply Hinv_CancelAll_loop_ext.
Qed.

(** C1.  Take any sequence of public calls on a new engine, with any
    reactor events and any libcurl behaviour, and let [a] be the state it
    leads to.  In the log of [a] no handler's callback appears twice,
    every callback is directly followed by the deletion of its handler,
    and no dead handler is ever used.  A request that reaches a completion
    path (a finished transfer, an exited child, a failed fork) has its
    callback run, and in every continuation of the run it has run exactly
    once.  A request removed by [Cancel] or by [CancelAll] has its
    callback run zero times, in every continuation. *)
Theorem C1_callback_once_or_never_then_deleted
    on_remove curl_easy_strerror strerror baseurl debug calls :
  let a := run on_remove curl_easy_strerror strerror calls (Aur_new baseurl debug) in
  let continue := run on_remove curl_easy_strerror strerror in
  (NoDup (callbacks (trace a)) ∧
   callback_then_delete (trace a) ∧
   handler_faults (trace a) = []) ∧
  (∀ c h result calls', handler_of a (ReqCurl c) = Some h →
     times_called h
       (trace (continue calls' (FinishRequest_curl on_remove curl_easy_strerror c result true a).1))
     = 1%nat) ∧
  (∀ s h si_status calls', handler_of a (ReqSource s) = Some h →
     times_called h (trace (continue calls' (OnCloneExit s si_status h a).1)) = 1%nat) ∧
  (∀ os request callback errno calls', fork os = ForkFailed errno →
     times_called (next_handler a)
       (trace (continue calls' (QueueCloneRequest strerror os request callback a))) = 1%nat) ∧
  (∀ request h calls', request ∈ active_requests_ a → handler_of a request = Some h →
     times_called h (trace (continue calls' (Cancel on_remove curl_easy_strerror request a))) =
         0%nat) ∧
  (∀ request h calls', request ∈ active_requests_ a → handler_of a request = Some h →
     times_called h (trace (continue calls' (CancelAll on_remove curl_easy_strerror a))) = 0%nat).
Proof.
  intros a continue.
  assert (I : Hinv (λ _, False) [] a) by apply Hinv_run, Hinv_Aur_new.
  split; [|split; [|split; [|split; [|split]]]].
  - split; [apply (hi_nodup I)|]. split; [apply (hi_paired I)|apply (hi_no_fault I)].
  - intros c h result calls' Hof.
    pose proof (Hinv_FinishRequest_curl on_remove curl_easy_strerror _ _ a c result true I) as I2.
    eapply Hinv_called_once; [apply Hinv_run, (Hinv_here _ _ _ I2)|].
    destruct (hi_live I _ _ Hof) as [hd Hl]. simpl in Hof. unfold easy_handler in Hof.
    destruct (easies a !! c) as [e|] eqn:He; [|done]. injection Hof as <-.
    rewrite (FinishRequest_curl_dispatch _ _ _ _ _ _ _ He Hl). simpl.
    rewrite notified_callbacks.
    change (opt_private e ∈ callbacks (trace (RunCallback (opt_private e)
      (info_response_code e)
      (if decide (result ≠ CURLE_OK)
       then if decide (error_buffer hd = "") then curl_easy_strerror result
            else error_buffer hd
       else "") a).1)).
    rewrite (RunCallback_callbacks _ _ _ _ _ Hl), elem_of_app, list_elem_of_singleton. by right.
  - intros s h si_status calls' Hof.
    pose proof (Hinv_OnCloneExit _ _ s si_status h a I Hof) as I2.
    eapply Hinv_called_once; [apply Hinv_run, (Hinv_here _ _ _ I2)|].
    destruct (hi_live I _ _ Hof) as [hd Hl]. rewrite (OnCloneExit_live _ _ _ _ _ Hl).
    erewrite RunCallback_callbacks; [|rewrite FinishRequest_source_heap; exact Hl].
    rewrite elem_of_app, list_elem_of_singleton. by right.
  - intros os request callback errno calls' Hf.
    pose proof (Hinv_QueueCloneRequest strerror _ _ os request callback a I) as I2.
    eapply Hinv_called_once; [apply Hinv_run, (Hinv_here _ _ _ I2)|].
    unfold QueueCloneRequest. rewrite Hf.
    erewrite RunCallback_callbacks; [|simpl; apply lookup_insert_eq].
    rewrite elem_of_app, list_elem_of_singleton. by right.
  - intros request h calls' Hin Hof.
    eapply Hinv_never_called; [apply Hinv_run, (Hinv_Cancel_ext _ _ _ _ _ _ _ I Hof)|].
    by right.
  - intros request h calls' Hin Hof.
    eapply Hinv_never_called; [apply Hinv_run, (Hinv_CancelAll_ext _ _ _ _ _ _ _ I Hin Hof)|].
    by right.
Qed.

Lemma C1_callback_once_or_never_witness :
  let a := run example_removal example_curl_strerror example_strerror example_calls example_engine
      in
  let continue := run example_removal example_curl_strerror example_strerror in
  handler_of a (ReqCurl 0) = Some 0%nat ∧
  handler_of a (ReqSource 1) = Some 1%nat ∧
  ReqSource 1 ∈ active_requests_ a ∧
  times_called 0
    (trace (continue [CallWait [EvChild 1 0]]
              (FinishRequest_curl example_removal example_curl_strerror 0 CURLE_OK true a).1)) =
                  1%nat ∧
  times_called 1
    (trace (continue [CallWait [EvChild 1 0]]
              (Cancel example_removal example_curl_strerror (ReqSource 1) a))) = 0%nat ∧
  times_called 1
    (trace (continue [CallWait [EvChild 1 0]] (CancelAll example_removal example_curl_strerror
        a))) = 0%nat.
Proof.
  intros a continue.
  assert (Hin : ReqSource 1 ∈ active_requests_ a)
    by (apply (bool_decide_unpack _); vm_compute; exact I).
  destruct (C1_callback_once_or_never_then_deleted example_removal example_curl_strerror
      example_strerror
              example_baseurl "" example_calls)
    as (_ & Hcurl & _ & _ & Hcancel & Hall).
  split; [reflexivity|]. split; [reflexivity|]. split; [exact Hin|].
  split; [exact (Hcurl 0%nat 0%nat CURLE_OK [CallWait [EvChild 1 0]] eq_refl)|].
  split; [exact (Hcancel (ReqSource 1) 1%nat [CallWait [EvChild 1 0]] Hin eq_refl)|].
  exact (Hall (ReqSource 1) 1%nat [CallWait [EvChild 1 0]] Hin eq_refl).
Defined.

(** ** C2 *)




(** ** C3 *)

(** C3.  Whatever the engine has been through, when [CancelAll] returns
    (that is, when the run up to and including it has used no released
    event source, see C6), the Active Request Set is empty, and a
    following [Wait] returns -1 at once: it leaves the state as it is and
    takes no event from the reactor. *)
Theorem C3_CancelAll_empties_and_Wait_returns_negative
    on_remove curl_easy_strerror strerror baseurl debug calls :
  let a := CancelAll on_remove curl_easy_strerror
             (run on_remove curl_easy_strerror strerror calls (Aur_new baseurl debug)) in
  defined a →
  active_requests_ a = ∅ ∧
  ∀ script, Wait on_remove curl_easy_strerror script a = (a, script, Some (-1)).
Proof.
  simpl. intros _. split; [apply CancelAll_active|].
  intros script. eapply Wait_after_CancelAll, Hinv_run, Hinv_Aur_new.
Qed.

(** A transfer that has not started and a running [git] are cancelled;
    libcurl switches its timer off when the transfer is removed. *)
Lemma C3_CancelAll_empties_and_Wait_returns_negative_witness :
  let before := run example_removal example_curl_strerror example_strerror example_calls
                  (Aur_new example_baseurl "") in
  let a := CancelAll example_removal example_curl_strerror before in
  (elements (active_requests_ before) = [ReqSource 1; ReqCurl 0] ∧ defined a) ∧
  active_requests_ a = ∅ ∧
  ∀ script, Wait example_removal example_curl_strerror script a = (a, script, Some (-1)).
Proof.
  intros before a. split; [by vm_compute|].
  apply (C3_CancelAll_empties_and_Wait_returns_negative example_removal example_curl_strerror
           example_strerror example_baseurl "" example_calls).
  by vm_compute.
Defined.

(** ** C4 *)

(** C4, as stated, fails: on a fresh engine, whose Active Request Set is
    empty, [Wait] returns 0, but once [CancelAll] has been called [Wait]
    returns -1.  [CancelAll] on an idle engine is therefore not a no-op
    and does alter what the next [Wait] returns. *)
Lemma C4_CancelAll_idle_changes_Wait :
  active_requests_ example_engine = ∅ ∧
  (Wait example_removal example_curl_strerror [] example_engine).2 = Some 0 ∧
  (Wait example_removal example_curl_strerror [] (CancelAll example_removal example_curl_strerror
      example_engine)).2
    = Some (-1) ∧
  CancelAll example_removal example_curl_strerror example_engine ≠ example_engine.
Proof.
  repeat split; try reflexivity.
  intros H. apply (f_equal exit_requested) in H. vm_compute in H. discriminate.
Qed.

(** C4, amended.  On an engine whose Active Request Set is empty,
    [CancelAll] cancels nothing and runs no callback: all it does is ask
    the loop to exit with code 1 (unless the loop has finished already).
    It is idempotent, a second call changes nothing more.  It is not a
    no-op: every following [Wait] returns -1 at once. *)
Theorem C4_CancelAll_idle_only_requests_exit
    on_remove curl_easy_strerror strerror baseurl debug calls :
  let a := run on_remove curl_easy_strerror strerror calls (Aur_new baseurl debug) in
  active_requests_ a = ∅ →
  let a' := CancelAll on_remove curl_easy_strerror a in
  a' = (if finished a then a else set_exit true 1 false a) ∧
  active_requests_ a' = ∅ ∧
  trace a' = trace a ∧
  CancelAll on_remove curl_easy_strerror a' = a' ∧
  ∀ script, Wait on_remove curl_easy_strerror script a' = (a', script, Some (-1)).
Proof.
  intros a He a'.
  assert (Ha' : a' = if finished a then a else set_exit true 1 false a).
  { subst a'. rewrite CancelAll_idle by done. unfold sd_event_exit.
    by destruct (finished a). }
  assert (He' : active_requests_ a' = ∅) by apply CancelAll_active.
  repeat split; try done.
  - rewrite Ha'. by destruct (finished a).
  - rewrite CancelAll_idle by done. rewrite Ha'. unfold sd_event_exit.
    destruct (finished a) eqn:Ef; simpl; [by rewrite Ef|done].
  - intros script. eapply Wait_after_CancelAll, Hinv_run, Hinv_Aur_new.
Qed.

Lemma C4_CancelAll_idle_witness :
  active_requests_
    (run example_removal example_curl_strerror example_strerror [CallWait [EvNothing]]
        example_engine) = ∅ ∧
  ∀ script,
    Wait example_removal example_curl_strerror script
      (CancelAll example_removal example_curl_strerror
         (run example_removal example_curl_strerror example_strerror [CallWait [EvNothing]]
             example_engine)) =
    (CancelAll example_removal example_curl_strerror
       (run example_removal example_curl_strerror example_strerror [CallWait [EvNothing]]
           example_engine),
     script, Some (-1)).
Proof.
  split; [reflexivity|].
  apply (C4_CancelAll_idle_only_requests_exit example_removal example_curl_strerror example_strerror
           example_baseurl "" [CallWait [EvNothing]]).
  reflexivity.
Defined.

(** ** C5 *)

(** C5.  When [FinishRequest] dispatches the completion of a transfer to
    its callback, the callback gets the transfer's response code as
    status, whatever that code is, and an error string that is empty
    exactly when the transport result is [CURLE_OK]; for any other result
    the string is the handler's error buffer when libcurl wrote one, and
    libcurl's description of the result code otherwise.  (libcurl
    describes every failure by a non-empty string.)  The callback's value
    is the result of the dispatch, and the handler is deleted right after
    the callback; what follows in the log ([t]) is what the socket and
    timer callbacks add when libcurl calls them inside
    [curl_multi_remove_handle], nothing when it does not call them. *)
Theorem C5_error_string_empty_iff_transport_ok on_remove curl_easy_strerror a c e hd result :
  (∀ code, code ≠ CURLE_OK → curl_easy_strerror code ≠ "") →
  easies a !! c = Some e →
  heap a !! opt_private e = Some hd →
  ∃ arg t,
    (FinishRequest_curl on_remove curl_easy_strerror c result true a).2 = callback_ hd arg ∧
    trace (FinishRequest_curl on_remove curl_easy_strerror c result true a).1 =
      trace a ++ [ObsCallback (opt_private e) arg (callback_ hd arg);
                  ObsDelete (opt_private e)] ++ t ∧
    Forall notice_obs t ∧ (on_remove c = [] → t = []) ∧
    rw_value arg = MakeResponse hd ∧
    rw_status arg = info_response_code e ∧
    (rw_error arg = "" ↔ result = CURLE_OK) ∧
    (result ≠ CURLE_OK → error_buffer hd ≠ "" → rw_error arg = error_buffer hd) ∧
    (result ≠ CURLE_OK → error_buffer hd = "" → rw_error arg = curl_easy_strerror result).
Proof.
  intros Hstr He Hl. rewrite (FinishRequest_curl_dispatch _ _ _ _ _ _ _ He Hl). simpl.
  set (error := if decide (result ≠ CURLE_OK) then _ else _).
  set (a1 := curl_easy_cleanup c _).
  assert (H1 : trace a1 = trace a ++
    [ObsCallback (opt_private e)
       {| rw_value := MakeResponse hd; rw_status := info_response_code e;
          rw_error := error |}
       (callback_ hd {| rw_value := MakeResponse hd; rw_status := info_response_code e;
                        rw_error := error |});
     ObsDelete (opt_private e)]).
  { subst a1. simpl. unfold RunCallback, delete_handler. rewrite Hl. simpl. rewrite Hl.
    simpl. by rewrite <-app_assoc. }
  destruct (notified_trace (on_remove c) a1) as (t & Ht & Hn).
  eexists _, t. split; [reflexivity|].
  split; [by rewrite Ht, H1, <-app_assoc|]. split; [done|].
  split.
  { intros Hnil. rewrite Hnil in Ht. change (trace a1 = trace a1 ++ t) in Ht.
    apply (app_inv_head (trace a1)). by rewrite app_nil_r. }
  subst error. simpl. repeat split; try done.
  - case_decide as Hr; [|intros _; by destruct (decide (result = CURLE_OK))].
    case_decide; [intros ?; by destruct (Hstr result)|done].
  - intros ->. by rewrite decide_False by auto.
  - intros Hr Hb. by rewrite decide_True, decide_False.
  - intros Hr Hb. by rewrite !decide_True.
Qed.

Lemma C5_error_string_witness :
  let a := curl_act (CaError 0 "Could not resolve host: aur.archlinux.org")
             (QueueRpcRequest example_libcurl example_request (λ _, 0) example_engine) in
  let a404 := curl_act (CaDone 0 CURLE_OK 404) a in
  (∀ code, code ≠ CURLE_OK → example_curl_strerror code ≠ "") ∧
  (∃ e hd, easies a !! 0%nat = Some e ∧ heap a !! opt_private e = Some hd) ∧
  (∃ e hd, easies a404 !! 0%nat = Some e ∧ heap a404 !! opt_private e = Some hd) ∧
  (∃ arg h r, trace (FinishRequest_curl (λ _, []) example_curl_strerror 0 6 true a).1 =
              trace a ++ [ObsCallback h arg r; ObsDelete h] ∧
              rw_error arg = "Could not resolve host: aur.archlinux.org") ∧
  (∃ arg h r,
     trace (FinishRequest_curl (λ _, []) example_curl_strerror 0 CURLE_OK true a404).1 =
     trace a404 ++ [ObsCallback h arg r; ObsDelete h] ∧
     rw_status arg = 404 ∧ rw_error arg = "").
Proof.
  intros a a404.
  assert (Hstr : ∀ code, code ≠ CURLE_OK → example_curl_strerror code ≠ "").
  { intros code Hc. unfold example_curl_strerror. by rewrite decide_False. }
  split; [exact Hstr|].
  destruct (easies a !! 0%nat) as [e|] eqn:He; [|by vm_compute in He].
  destruct (heap a !! opt_private e) as [hd|] eqn:Hl;
    [|by (vm_compute in He; injection He as <-; vm_compute in Hl)].
  destruct (easies a404 !! 0%nat) as [e'|] eqn:He'; [|by vm_compute in He'].
  destruct (heap a404 !! opt_private e') as [hd'|] eqn:Hl';
    [|by (vm_compute in He'; injection He' as <-; vm_compute in Hl')].
  split; [by eexists _, _|]. split; [by eexists _, _|]. split.
  - destruct (C5_error_string_empty_iff_transport_ok (λ _, []) example_curl_strerror a 0%nat
                e hd 6 Hstr He Hl) as (arg & t & _ & Ht & _ & Hnil & _ & _ & _ & Hb & _).
    rewrite (Hnil eq_refl) in Ht.
    exists arg. eexists _, _. split; [exact Ht|].
    rewrite Hb; [|done|];
      vm_compute in He; injection He as <-; vm_compute in Hl; by injection Hl as <-.
  - destruct (C5_error_string_empty_iff_transport_ok (λ _, []) example_curl_strerror a404
                0%nat e' hd' CURLE_OK Hstr He' Hl')
      as (arg & t & _ & Ht & _ & Hnil & _ & Hs & Hi & _).
    rewrite (Hnil eq_refl) in Ht.
    exists arg. eexists _, _. split; [exact Ht|]. split; [|by apply Hi].
    rewrite Hs. vm_compute in He'. by injection He' as <-.
Defined.

(** ** C6 *)

(** Add interest for a socket without registration: the descriptor is
    duplicated, the duplicate registered for the interest, and both tables
    get their entry. *)
Lemma SocketCallback_add dupfd s action a :
  active_io_ a !! s = None → action ≠ CURL_POLL_REMOVE → 0 ≤ dupfd →
  SocketCallback dupfd true s action a =
  (set_translate_fds (emplace dupfd s)
     (set_active_io (emplace s (next_source a))
        (new_source {| src_kind := SrcIO dupfd (action_to_revents action);
                       src_enabled := SD_EVENT_ON |} a)), 0).
Proof.
  intros Hio Hact Hfd. unfold SocketCallback. rewrite Hio, decide_False by done.
  by rewrite (proj2 (Z.ltb_ge dupfd 0) Hfd).
Qed.

(** Add or modify interest for a registered socket: only the interest
    mask of the registration changes (and the registration is enabled);
    nothing is duplicated and the tables stay as they are. *)
Lemma SocketCallback_modify dupfd add_ok s action a io fd events enabled :
  active_io_ a !! s = Some io →
  sources a !! io = Some {| src_kind := SrcIO fd events; src_enabled := enabled |} →
  action ≠ CURL_POLL_REMOVE →
  SocketCallback dupfd add_ok s action a =
  (set_sources <[io := {| src_kind := SrcIO fd (action_to_revents action);
                          src_enabled := SD_EVENT_ON |}]> a, 0).
Proof.
  intros Hio Hs Hact. unfold SocketCallback. rewrite Hio, decide_False by done.
  unfold sd_event_source_set_io_events. rewrite Hs. simpl.
  unfold sd_event_source_set_enabled. simpl. rewrite lookup_insert_eq. simpl.
  unfold set_sources. simpl. by rewrite insert_insert_eq.
Qed.

(** Removal interest for a registered socket: the registration is disabled
    and released, both table entries go and the duplicate is closed; then,
    for want of a return, the released registration is used again. *)
Lemma SocketCallback_remove_registered dupfd add_ok s a io fd events enabled :
  active_io_ a !! s = Some io →
  sources a !! io = Some {| src_kind := SrcIO fd events; src_enabled := enabled |} →
  SocketCallback dupfd add_ok s CURL_POLL_REMOVE a =
  (log (ObsSourceFault io)
     (close fd
        (set_translate_fds (delete fd)
           (set_active_io (delete s) (set_sources (delete io) a)))), -1).
Proof.
  intros Hio Hs. unfold SocketCallback. rewrite Hio, decide_True by done.
  unfold sd_event_source_get_io_fd. rewrite Hs. simpl.
  unfold sd_event_source_set_enabled. rewrite Hs. simpl.
  unfold sd_event_source_unref. simpl. rewrite lookup_insert_eq.
  unfold sd_event_source_set_io_events. simpl.
  rewrite delete_insert_eq, lookup_delete_eq.
  change (- EINVAL <? 0) with true. cbv iota.
  unfold log, close, set_translate_fds, set_active_io, set_sources. simpl.
  by rewrite delete_insert_eq.
Qed.

(** Removal interest for a socket without registration: the add branch
    runs, with an empty interest mask. *)
Lemma SocketCallback_remove_unregistered dupfd s a :
  active_io_ a !! s = None → 0 ≤ dupfd →
  SocketCallback dupfd true s CURL_POLL_REMOVE a =
  (set_translate_fds (emplace dupfd s)
     (set_active_io (emplace s (next_source a))
        (new_source {| src_kind := SrcIO dupfd 0; src_enabled := SD_EVENT_ON |} a)), 0).
Proof.
  intros Hio Hfd. unfold SocketCallback. rewrite Hio, decide_True by done.
  by rewrite (proj2 (Z.ltb_ge dupfd 0) Hfd).
Qed.

(** C6, at the failing input.  libcurl announces socket 5 for reading
    (duplicated as descriptor 9) and later asks for its removal.  The
    engine releases the registration, clears both tables and closes
    descriptor 9, and then goes on to set the interest mask of the
    registration it has just released: the call does not return 0.  Asked
    to remove a socket that has no registration (socket 6), it duplicates
    the descriptor (as 10), registers the duplicate with an empty interest
    mask and records it in both tables. *)
Theorem C6_removal_falls_through_to_update :
  let registered := (SocketCallback 9 true 5 CURL_POLL_IN example_engine).1 in
  let removed := SocketCallback 0 true 5 CURL_POLL_REMOVE registered in
  let unknown := SocketCallback 10 true 6 CURL_POLL_REMOVE example_engine in
  (active_io_ registered !! 5 = Some 0%nat ∧
   translate_fds_ registered !! 9 = Some 5 ∧
   sources registered !! 0%nat =
     Some {| src_kind := SrcIO 9 EPOLLIN; src_enabled := SD_EVENT_ON |}) ∧
  (removed.2 = -1 ∧
   trace removed.1 = [ObsClose 9; ObsSourceFault 0] ∧
   active_io_ removed.1 !! 5 = None ∧
   translate_fds_ removed.1 !! 9 = None ∧
   sources removed.1 !! 0%nat = None) ∧
  (unknown.2 = 0 ∧
   active_io_ unknown.1 !! 6 = Some 0%nat ∧
   translate_fds_ unknown.1 !! 10 = Some 6 ∧
   sources unknown.1 !! 0%nat =
     Some {| src_kind := SrcIO 10 0; src_enabled := SD_EVENT_ON |}).
Proof.
  cbv zeta.
  rewrite (SocketCallback_add 9 5 CURL_POLL_IN example_engine eq_refl) by done.
  rewrite (SocketCallback_remove_unregistered 10 6 example_engine eq_refl) by done.
  split; [by repeat split|]. split; [|by repeat split].
  cbn [fst].
  erewrite SocketCallback_remove_registered; [|reflexivity|reflexivity].
  by repeat split.
Qed.

(** ** C7 *)

(** C7.  A clone request whose [fork] succeeds: when the repository
    directory already holds a working copy ([reponame/.git] exists) the
    child executes [git -C reponame pull --quiet --ff-only] and the
    handler's operation label is "update"; when it does not, the child
    executes [git clone --quiet url] and the label is "clone".  The label
    is stored in the handler at submission: whenever the child exits, the
    response handed to the callback carries that label. *)
Theorem C7_clone_or_update strerror a os request callback pid url urls :
  fork os = Forked pid →
  clone_Build request (baseurl_ a) = url :: urls →
  let update := fs_exists os (path_append (reponame request) ".git") in
  let a' := QueueCloneRequest strerror os request callback a in
  trace a' =
    trace a ++
    [ObsExec pid
       (Some (if update
              then ["git"; "-C"; reponame request; "pull"; "--quiet"; "--ff-only"]
              else ["git"; "clone"; "--quiet"; url]))] ∧
  (∃ hd, heap a' !! next_handler a = Some hd ∧
         htype hd = CloneResponseHandler (if update then "update" else "clone") ∧
         MakeResponse hd = CloneResponse (if update then "update" else "clone")) ∧
  sources a' !! next_source a =
    Some {| src_kind := SrcChild pid (next_handler a); src_enabled := SD_EVENT_ONESHOT |} ∧
  ReqSource (next_source a) ∈ active_requests_ a' ∧
  ∀ si_status, ∃ arg r,
    trace (OnCloneExit (next_source a) si_status (next_handler a) a').1 =
      trace a' ++ [ObsCallback (next_handler a) arg r; ObsDelete (next_handler a)] ∧
    rw_value arg = CloneResponse (if update then "update" else "clone").
Proof.
  intros Hf Hb update a'. subst a'. unfold QueueCloneRequest. rewrite Hf. simpl.
  fold update. unfold git_argv. rewrite Hb.
  split; [by destruct update|].
  split; [eexists; split; [apply lookup_insert_eq|done]|].
  split; [apply lookup_insert_eq|].
  split; [apply elem_of_union_l; by apply elem_of_singleton|].
  intros si_status.
  erewrite OnCloneExit_live; [|simpl; apply lookup_insert_eq].
  unfold FinishRequest_source, sd_event_source_unref. simpl.
  rewrite lookup_insert_eq. unfold RunCallback. simpl. rewrite lookup_insert_eq. simpl.
  unfold delete_handler. simpl. rewrite lookup_insert_eq. simpl.
  eexists _, _. split; [by rewrite <-app_assoc|done].
Qed.

Lemma C7_clone_or_update_witness :
  let fresh := QueueCloneRequest example_strerror example_fork_fresh example_clone_request
                 (λ _, 0) example_engine in
  let existing := QueueCloneRequest example_strerror example_fork_existing
                    example_clone_request (λ _, 0) example_engine in
  fork example_fork_fresh = Forked 4242 ∧
  fork example_fork_existing = Forked 4242 ∧
  clone_Build example_clone_request (baseurl_ example_engine) =
    ["https://aur.archlinux.org/auracle-git.git"] ∧
  trace fresh =
    [ObsExec 4242 (Some ["git"; "clone"; "--quiet";
                         "https://aur.archlinux.org/auracle-git.git"])] ∧
  trace existing =
    [ObsExec 4242 (Some ["git"; "-C"; "auracle-git"; "pull"; "--quiet"; "--ff-only"])] ∧
  (∃ hd, heap existing !! 0%nat = Some hd ∧ MakeResponse hd = CloneResponse "update") ∧
  (∃ hd, heap fresh !! 0%nat = Some hd ∧ MakeResponse hd = CloneResponse "clone").
Proof.
  intros fresh existing.
  destruct (C7_clone_or_update example_strerror example_engine example_fork_fresh
              example_clone_request (λ _, 0) 4242
              "https://aur.archlinux.org/auracle-git.git" [] eq_refl eq_refl)
    as (Ht1 & (hd1 & Hh1 & _ & Hm1) & _).
  destruct (C7_clone_or_update example_strerror example_engine example_fork_existing
              example_clone_request (λ _, 0) 4242
              "https://aur.archlinux.org/auracle-git.git" [] eq_refl eq_refl)
    as (Ht2 & (hd2 & Hh2 & _ & Hm2) & _).
  split; [reflexivity|]. split; [reflexivity|]. split; [reflexivity|].
  split; [exact Ht1|]. split; [exact Ht2|].
  split; [exists hd2; split; [exact Hh2|exact Hm2]|exists hd1; split; [exact Hh1|exact Hm1]].
Defined.

(** ** C8 *)

(** C8.  A clone request whose [fork] fails with [errno]: before
    [QueueCloneRequest] returns the callback has run, with the operation
    label chosen at submission, the negative status [-errno] and the
    non-empty message "failed to fork new process for git: " followed by
    the system's text for [errno], and the handler has been deleted.  No
    event source was registered and the Active Request Set is what it was;
    so if it was empty, [Wait] returns without running the loop, and on a
    new engine it returns 0. *)
Theorem C8_fork_failure_reported_at_once
    on_remove curl_easy_strerror strerror a os request callback errno :
  fork os = ForkFailed errno →
  let a' := QueueCloneRequest strerror os request callback a in
  (∃ arg,
     trace a' = trace a ++ [ObsCallback (next_handler a) arg (callback arg);
                            ObsDelete (next_handler a)] ∧
     rw_value arg =
       CloneResponse (if fs_exists os (path_append (reponame request) ".git")
                      then "update" else "clone") ∧
     rw_status arg = - Z.pos errno ∧
     rw_status arg < 0 ∧
     rw_error arg = "failed to fork new process for git: " +:+ strerror errno ∧
     rw_error arg ≠ "") ∧
  sources a' = sources a ∧
  next_source a' = next_source a ∧
  active_requests_ a' = active_requests_ a ∧
  (active_requests_ a = ∅ →
   ∀ script, ∃ r, Wait on_remove curl_easy_strerror script a' = (a', script, Some r)) ∧
  (∀ baseurl debug, a = Aur_new baseurl debug →
   ∀ script, Wait on_remove curl_easy_strerror script a' = (a', script, Some 0)).
Proof.
  intros Hf a'. subst a'. unfold QueueCloneRequest. rewrite Hf.
  set (hd := {| body := ""; error_buffer := ""; htype := _; callback_ := callback |}).
  assert (Ha : active_requests_
                 (RunCallback (next_handler a) (- Z.pos errno)
                    ("failed to fork new process for git: " +:+ strerror errno)
                    (new_handler hd a)).1 = active_requests_ a)
    by (by rewrite RunCallback_active).
  assert (Hx : exit_requested
                 (RunCallback (next_handler a) (- Z.pos errno)
                    ("failed to fork new process for git: " +:+ strerror errno)
                    (new_handler hd a)).1 = exit_requested a)
    by (by destruct (RunCallback_exit (next_handler a) (- Z.pos errno)
                       ("failed to fork new process for git: " +:+ strerror errno)
                       (new_handler hd a)) as (-> & _)).
  split; [|split; [|split; [|split; [|split]]]].
  - unfold RunCallback. rewrite new_handler_lookup. simpl. unfold delete_handler. simpl.
    rewrite lookup_insert_eq. simpl.
    eexists. split; [by rewrite <-app_assoc|]. simpl.
    split; [done|]. split; [done|]. split; [lia|]. split; [done|]. discriminate.
  - unfold RunCallback. rewrite new_handler_lookup. simpl. unfold delete_handler. simpl.
    by rewrite lookup_insert_eq.
  - unfold RunCallback. rewrite new_handler_lookup. simpl. unfold delete_handler. simpl.
    by rewrite lookup_insert_eq.
  - exact Ha.
  - intros He script. eexists. apply Wait_idle. rewrite Ha. exact He.
  - intros baseurl debug -> script.
    destruct (Aur_new_idle baseurl debug) as (He & Hr & _).
    rewrite Wait_idle by (rewrite Ha; exact He).
    unfold sd_event_get_exit_code. by rewrite Hx, Hr.
Qed.

Lemma C8_fork_failure_witness :
  let a' := QueueCloneRequest example_strerror example_fork_failure example_clone_request
              (λ _, 0) example_engine in
  fork example_fork_failure = ForkFailed 11 ∧
  (∃ arg, trace a' = [ObsCallback 0 arg 0; ObsDelete 0] ∧
          rw_status arg = -11 ∧
          rw_error arg =
            "failed to fork new process for git: Resource temporarily unavailable") ∧
  sources a' = ∅ ∧
  Wait example_removal example_curl_strerror [EvNothing] a' = (a', [EvNothing], Some 0).
Proof.
  intros a'.
  destruct (C8_fork_failure_reported_at_once example_removal example_curl_strerror example_strerror
              example_engine example_fork_failure example_clone_request (λ _, 0)
              11%positive eq_refl)
    as ((arg & Ht & _ & Hs & _ & He & _) & Hsrc & _ & _ & _ & Hw).
  split; [reflexivity|].
  split; [exists arg; split; [exact Ht|split; [exact Hs|exact He]]|].
  split; [exact Hsrc|]. by apply (Hw example_baseurl "").
Defined.

(** ** C9 *)

Lemma to_string_examples :
  to_string 127 = "127" ∧ to_string (-9) = "-9" ∧ to_string 0 = "0".
Proof. repeat split; reflexivity. Qed.

(** C9.  When the reactor reports that a watched child exited with status
    [N], the watch is released (the source is gone and the request leaves
    the Active Request Set) and the handler's callback runs once, with
    status [N]: with an empty error string when [N] is 0, and otherwise
    with "git exited with unexpected exit status " followed by [N] in
    decimal.  The handler is deleted right after. *)
Theorem C9_child_exit_reports_status on_remove curl_easy_strerror a s pid h enabled hd N :
  sources a !! s = Some {| src_kind := SrcChild pid h; src_enabled := enabled |} →
  enabled ≠ SD_EVENT_OFF →
  heap a !! h = Some hd →
  let a' := (sd_event_dispatch on_remove curl_easy_strerror (EvChild s N) a).1 in
  sources a' !! s = None ∧
  (ReqSource s ∉ active_requests_ a') ∧
  ∃ arg,
    trace a' = trace a ++ [ObsCallback h arg (callback_ hd arg); ObsDelete h] ∧
    rw_value arg = MakeResponse hd ∧
    rw_status arg = N ∧
    (N = 0 → rw_error arg = "") ∧
    (N ≠ 0 → rw_error arg = "git exited with unexpected exit status " +:+ to_string N).
Proof.
  intros Hs Hen Hl a'. subst a'. simpl. rewrite Hs. rewrite decide_False by done.
  set (a1 := oneshot_off s enabled a).
  assert (Hl1 : heap a1 !! h = Some hd).
  { subst a1. unfold oneshot_off, sd_event_source_set_enabled.
    case_decide; [|done]. by rewrite Hs. }
  assert (Hs1 : is_Some (sources a1 !! s)).
  { subst a1. unfold oneshot_off, sd_event_source_set_enabled.
    case_decide; [|by rewrite Hs]. rewrite Hs. simpl. rewrite lookup_insert_eq. eauto. }
  assert (Ht1 : trace a1 = trace a).
  { subst a1. unfold oneshot_off, sd_event_source_set_enabled.
    case_decide; [|done]. by rewrite Hs. }
  assert (Ha1 : active_requests_ a1 = active_requests_ a).
  { subst a1. unfold oneshot_off, sd_event_source_set_enabled.
    case_decide; [|done]. by rewrite Hs. }
  clearbody a1. rewrite (OnCloneExit_live _ _ _ _ _ Hl1).
  destruct Hs1 as [src Hs1].
  unfold FinishRequest_source, sd_event_source_unref. simpl. rewrite Hs1.
  unfold RunCallback. simpl. rewrite Hl1. simpl. unfold delete_handler. simpl.
  rewrite Hl1. simpl.
  assert (Hgone : ∀ r b,
            sources (after_dispatch s r b) !! s = None ∧
            active_requests_ (after_dispatch s r b) = active_requests_ b ∧
            trace (after_dispatch s r b) = trace b
            ∨ is_Some (sources b !! s)).
  { intros r b. unfold after_dispatch. destruct (sources b !! s) eqn:Eb; [by right; eauto|].
    left. case_match; by rewrite ?Eb. }
  match goal with |- context [after_dispatch s ?r ?b] =>
    destruct (Hgone r b) as [(H1 & H2 & H3)|[? Hbad]] end.
  - rewrite H1, H2, H3. simpl. split; [done|].
    split; [intros [_ Hn]%elem_of_difference; apply Hn; by apply elem_of_singleton|].
    eexists. split; [by rewrite Ht1, <-app_assoc|]. simpl.
    repeat split; try done.
    + intros ->. done.
    + intros HN. by rewrite decide_True.
  - simpl in Hbad. by rewrite lookup_delete_eq in Hbad.
Qed.

Lemma C9_child_exit_witness :
  let a := QueueCloneRequest example_strerror example_fork_fresh example_clone_request
             (λ _, 0) example_engine in
  let a' := (sd_event_dispatch example_removal example_curl_strerror (EvChild 0 128) a).1 in
  sources a !! 0%nat =
    Some {| src_kind := SrcChild 4242 0; src_enabled := SD_EVENT_ONESHOT |} ∧
  SD_EVENT_ONESHOT ≠ SD_EVENT_OFF ∧
  (∃ hd, heap a !! 0%nat = Some hd) ∧
  sources a' !! 0%nat = None ∧
  ∃ arg r, trace a' = trace a ++ [ObsCallback 0 arg r; ObsDelete 0] ∧
           rw_status arg = 128 ∧
           rw_error arg = "git exited with unexpected exit status 128".
Proof.
  intros a a'.
  destruct (heap a !! 0%nat) as [hd|] eqn:Hl; [|by vm_compute in Hl].
  destruct (C9_child_exit_reports_status example_removal example_curl_strerror a 0%nat 4242 0%nat
              SD_EVENT_ONESHOT hd 128 eq_refl ltac:(done) Hl)
    as (Hs & _ & arg & Ht & _ & Hst & _ & He).
  split; [reflexivity|]. split; [done|]. split; [by eexists|]. split; [exact Hs|].
  exists arg. eexists. split; [exact Ht|]. split; [exact Hst|]. by apply He.
Defined.

(** ** C10 *)

Lemma steady_refl a : steady a a.
Proof. split; try done; eauto. Qed.

Lemma steady_trans a1 a2 a3 : steady a1 a2 → steady a2 a3 → steady a1 a3.
Proof.
  intros S1 S2. split.
  - by rewrite (st_next_easy S2), (st_next_easy S1).
  - by rewrite (st_next_handler S2), (st_next_handler S1).
  - by rewrite (st_active S2), (st_active S1).
  - by rewrite (st_multi_handles S2), (st_multi_handles S1).
  - intros c e He. destruct (st_easies S1 _ _ He) as (e2 & He2 & Ho2).
    destruct (st_easies S2 _ _ He2) as (e3 & He3 & Ho3). exists e3. split; congruence.
  - intros h hd Hh. destruct (st_heap S1 _ _ Hh) as (hd2 & Hh2 & ? & ?).
    destruct (st_heap S2 _ _ Hh2) as (hd3 & Hh3 & ? & ?). exists hd3.
    repeat split; congruence.
Qed.

Lemma steady_submissions a a' : submissions a' = submissions a → steady a a'.
Proof.
  unfold submissions. intros [= He Hne Hh Hnh Ha Hm _].
  split; try done.
  - intros c e. rewrite He. eauto.
  - intros h hd. rewrite Hh. eauto.
Qed.

Lemma steady_set_heap h hd hd' a :
  heap a !! h = Some hd → htype hd' = htype hd → callback_ hd' = callback_ hd →
  steady a (set_heap <[h := hd']> a).
Proof.
  intros Hl Ht Hc. split; try done; [eauto|].
  intros h2 hd2 Hl2. simpl. destruct (decide (h2 = h)) as [->|Hne].
  - rewrite lookup_insert_eq. exists hd'. split; [done|]. split; congruence.
  - rewrite lookup_insert_ne by done. eauto.
Qed.

Lemma steady_curl_act act a : steady a (curl_act act a).
Proof.
  destruct act; simpl.
  - apply steady_submissions, SocketCallback_submissions.
  - apply steady_submissions, TimerCallback_submissions.
  - destruct (in_flight c a) as [e|]; [|apply steady_refl]. unfold BodyCallback.
    destruct (heap a !! opt_writedata e) as [hd|] eqn:Hl;
      [by eapply steady_set_heap|by apply steady_submissions].
  - destruct (in_flight c a) as [e|]; [|apply steady_refl].
    case_match; [|apply steady_refl]. unfold DebugCallback.
    case_decide; [apply steady_refl|by apply steady_submissions].
  - destruct (in_flight c a) as [e|]; [|apply steady_refl]. unfold write_error_buffer.
    destruct (heap a !! opt_errorbuffer e) as [hd|] eqn:Hl;
      [by eapply steady_set_heap|by apply steady_submissions].
  - destruct (in_flight c a) as [e|] eqn:E; [|apply steady_refl].
    apply in_flight_Some in E. split; try done; [|eauto].
    intros c2 e2 He2. simpl. destruct (decide (c2 = c)) as [->|Hne].
    + rewrite lookup_insert_eq. eexists. split; [done|]. by simplify_eq.
    + rewrite lookup_insert_ne by done. eauto.
Qed.

Lemma steady_curl_acts l a : steady a (foldl (λ a act, curl_act act a) a l).
Proof.
  revert a. induction l as [|act l IH]; intros a; simpl; [apply steady_refl|].
  eapply steady_trans; [apply steady_curl_act|apply IH].
Qed.

(** One turn of the loop of [QueueHttpRequest]. *)
Lemma QueueHttpRequest_body_spec traits libcurl callback a url :
  let a' := QueueHttpRequest_body traits libcurl callback a url in
  next_easy a' = S (next_easy a) ∧
  next_handler a' = S (next_handler a) ∧
  active_requests_ a' = {[ReqCurl (next_easy a)]} ∪ active_requests_ a ∧
  multi_handles a' = {[next_easy a]} ∪ multi_handles a ∧
  (∃ e, easies a' !! next_easy a = Some e ∧ opt_url e = url ∧
        opt_accept_encoding e = kEncoding traits ∧ opt_private e = next_handler a) ∧
  (∃ hd, heap a' !! next_handler a = Some hd ∧
         htype hd = ResponseHandlerType traits ∧ callback_ hd = callback) ∧
  (∀ c e, c ≠ next_easy a → easies a !! c = Some e →
     ∃ e', easies a' !! c = Some e' ∧ options e' = options e) ∧
  (∀ h hd, h ≠ next_handler a → heap a !! h = Some hd →
     ∃ hd', heap a' !! h = Some hd' ∧ htype hd' = htype hd ∧ callback_ hd' = callback_ hd).
Proof.
  intros a'. subst a'. unfold QueueHttpRequest_body, curl_multi_add_handle.
  match goal with |- context [foldl ?f ?b ?l] =>
    pose proof (steady_curl_acts l b) as S; set (a1 := foldl f b l) in *; clearbody a1 end.
  simpl. rewrite (st_next_easy S), (st_next_handler S), (st_active S), (st_multi_handles S).
  simpl. repeat split.
  - destruct (st_easies S (next_easy a) _ (lookup_insert_eq _ _ _)) as (e' & He' & Ho).
    exists e'. unfold options in Ho. by simplify_eq/=.
  - destruct (st_heap S (next_handler a) _ (lookup_insert_eq _ _ _)) as (hd' & Hh' & ? & ?).
    by exists hd'.
  - intros c e Hne He. apply (st_easies S). simpl. by rewrite lookup_insert_ne.
  - intros h hd Hne Hh. apply (st_heap S). simpl. by rewrite lookup_insert_ne.
Qed.

(** The loop of [QueueHttpRequest] over the URLs [urls]. *)
Lemma QueueHttpRequest_loop_spec traits libcurl callback urls a :
  let a' := foldl (QueueHttpRequest_body traits libcurl callback) a urls in
  next_easy a' = (next_easy a + length urls)%nat ∧
  next_handler a' = (next_handler a + length urls)%nat ∧
  active_requests_ a' =
    list_to_set (ReqCurl <$> seq (next_easy a) (length urls)) ∪ active_requests_ a ∧
  (∀ c e, (c < next_easy a)%nat → easies a !! c = Some e →
     ∃ e', easies a' !! c = Some e' ∧ options e' = options e) ∧
  (∀ h hd, (h < next_handler a)%nat → heap a !! h = Some hd →
     ∃ hd', heap a' !! h = Some hd' ∧ htype hd' = htype hd ∧ callback_ hd' = callback_ hd) ∧
  (∀ c, c ∈ multi_handles a → c ∈ multi_handles a') ∧
  (∀ i url, urls !! i = Some url →
     ∃ e hd,
       easies a' !! (next_easy a + i)%nat = Some e ∧
       opt_url e = url ∧
       opt_accept_encoding e = kEncoding traits ∧
       opt_private e = (next_handler a + i)%nat ∧
       heap a' !! (next_handler a + i)%nat = Some hd ∧
       htype hd = ResponseHandlerType traits ∧
       callback_ hd = callback ∧
       (next_easy a + i)%nat ∈ multi_handles a' ∧
       ReqCurl (next_easy a + i)%nat ∈ active_requests_ a').
Proof.
  revert a. induction urls as [|url urls IH]; intros a; simpl.
  - rewrite !Nat.add_0_r. repeat split; eauto.
    + by rewrite union_empty_l_L.
    + intros i url Hi. by rewrite lookup_nil in Hi.
  - destruct (QueueHttpRequest_body_spec traits libcurl callback a url)
      as (Hne & Hnh & Hact & Hm & (e0 & He0 & Hu0 & Henc0 & Hp0) & (hd0 & Hh0 & Ht0 & Hc0)
          & Hold_e & Hold_h).
    set (a1 := QueueHttpRequest_body traits libcurl callback a url) in *.
    destruct (IH a1) as (Ine & Inh & Iact & Ie & Ih & Im & Inew).
    split; [rewrite Ine, Hne; lia|]. split; [rewrite Inh, Hnh; lia|].
    split.
    { rewrite Iact, Hact, Hne. apply set_eq. intros x.
      rewrite !elem_of_union, elem_of_singleton. tauto. }
    split.
    { intros c e Hc He. destruct (Hold_e c e ltac:(lia) He) as (e1 & He1 & Ho1).
      destruct (Ie c e1 ltac:(lia) He1) as (e2 & He2 & Ho2). exists e2. split; congruence. }
    split.
    { intros h hd Hh Hl. destruct (Hold_h h hd ltac:(lia) Hl) as (hd1 & Hl1 & ? & ?).
      destruct (Ih h hd1 ltac:(lia) Hl1) as (hd2 & Hl2 & ? & ?). exists hd2.
      repeat split; congruence. }
    split.
    { intros c Hc. apply Im. rewrite Hm. by apply elem_of_union_r. }
    intros [|i] url' Hi; simpl in Hi.
    + injection Hi as <-. rewrite !Nat.add_0_r.
      destruct (Ie (next_easy a) e0 ltac:(lia) He0) as (e2 & He2 & Ho2).
      destruct (Ih (next_handler a) hd0 ltac:(lia) Hh0) as (hd2 & Hl2 & ? & ?).
      exists e2, hd2. unfold options in Ho2.
      repeat split; try congruence.
      * apply Im. rewrite Hm. by apply elem_of_union_l, elem_of_singleton.
      * rewrite Iact, Hact. apply elem_of_union_r, elem_of_union_l. by apply elem_of_singleton.
    + destruct (Inew i url' Hi) as (e & hd & H).
      exists e, hd. rewrite Hne, Hnh in H.
      by replace (next_easy a + S i)%nat with (S (next_easy a) + i)%nat by lia;
         replace (next_handler a + S i)%nat with (S (next_handler a) + i)%nat by lia.
Qed.

Lemma filter_range_length (l : list nat) n k :
  NoDup l → (length (filter (λ h, h ∈ seq n k) l) ≤ k)%nat.
Proof.
  intros Hl. trans (length (seq n k)); [|by rewrite length_seq].
  apply submseteq_length, NoDup_submseteq; [by apply NoDup_filter|].
  by intros x [? _]%list_elem_of_filter.
Qed.

(** C10.  Submitting an HTTP request whose [Build] returns the URLs
    [urls], [k] of them, in a state [a] reached by any run of the engine:
    the engine creates exactly [k] easy handles and exactly [k] response
    handlers; the i-th handle carries the i-th URL and the encoding of the
    request kind, is added to the multi handle and to the Active Request
    Set, and points to the i-th handler, which holds the callback; however
    the run goes on, at most [k] callbacks of these handlers are ever
    invoked.  With no URL the state does not change at all, and [Wait] on
    a new engine given only such a request returns 0 at once. *)
Theorem C10_one_transfer_and_handler_per_url
    on_remove curl_easy_strerror strerror baseurl debug calls traits libcurl request callback :
  let a := run on_remove curl_easy_strerror strerror calls (Aur_new baseurl debug) in
  let urls := Build request (baseurl_ a) in
  let k := length urls in
  let a' := QueueHttpRequest traits libcurl request callback a in
  next_easy a' = (next_easy a + k)%nat ∧
  next_handler a' = (next_handler a + k)%nat ∧
  active_requests_ a' = list_to_set (ReqCurl <$> seq (next_easy a) k) ∪ active_requests_ a ∧
  (∀ i url, urls !! i = Some url →
     ∃ e hd,
       easies a' !! (next_easy a + i)%nat = Some e ∧
       opt_url e = url ∧
       opt_accept_encoding e = kEncoding traits ∧
       opt_private e = (next_handler a + i)%nat ∧
       heap a' !! (next_handler a + i)%nat = Some hd ∧
       htype hd = ResponseHandlerType traits ∧
       callback_ hd = callback ∧
       (next_easy a + i)%nat ∈ multi_handles a' ∧
       ReqCurl (next_easy a + i)%nat ∈ active_requests_ a') ∧
  (∀ calls' i,
     (times_called (next_handler a + i)
        (trace (run on_remove curl_easy_strerror strerror calls' a')) ≤ 1)%nat) ∧
  (∀ calls',
     (times_called_among (seq (next_handler a) k)
        (trace (run on_remove curl_easy_strerror strerror calls' a')) ≤ k)%nat) ∧
  (urls = [] → a' = a) ∧
  (Build request baseurl = [] →
   ∀ script,
     Wait on_remove curl_easy_strerror script
       (QueueHttpRequest traits libcurl request callback (Aur_new baseurl debug)) =
     (Aur_new baseurl debug, script, Some 0)).
Proof.
  intros a urls k a'.
  destruct (QueueHttpRequest_loop_spec traits libcurl callback urls a)
    as (Hne & Hnh & Hact & _ & _ & _ & Hnew).
  split; [exact Hne|]. split; [exact Hnh|]. split; [exact Hact|]. split; [exact Hnew|].
  assert (I : ∀ calls', Hinv (λ _, False) [] (run on_remove curl_easy_strerror strerror calls' a'))
    by (intros calls'; apply Hinv_run, Hinv_QueueHttpRequest, Hinv_run, Hinv_Aur_new).
  split; [|split; [|split]].
  - intros calls' i. unfold times_called.
    destruct (decide ((next_handler a + i)%nat
                      ∈ callbacks (trace (run on_remove curl_easy_strerror strerror calls' a'))))
      as [Hin|Hout].
    + by rewrite (times_called_NoDup _ _ (hi_nodup (I calls')) Hin).
    + rewrite (times_called_absent _ _ Hout). lia.
  - intros calls'. apply filter_range_length, (hi_nodup (I calls')).
  - intros Hu. subst a'. unfold QueueHttpRequest. fold urls. by rewrite Hu.
  - intros Hb script. unfold QueueHttpRequest.
    assert (Hbase : baseurl_ (Aur_new baseurl debug) = baseurl).
    { unfold Aur_new. destruct (ConsumePrefix debug "requests:"); [done|]. by case_decide. }
    rewrite Hbase, Hb. simpl.
    destruct (Aur_new_idle baseurl debug) as (He & Hr & _).
    rewrite Wait_idle by done. unfold sd_event_get_exit_code. by rewrite Hr.
Qed.

Lemma C10_one_transfer_and_handler_per_url_witness :
  let a := run example_removal example_curl_strerror example_strerror example_calls example_engine
      in
  let a' := QueueTarballRequest example_libcurl example_request2 (λ _, 0) a in
  Build example_request2 (baseurl_ a) !! 1%nat =
    Some "https://aur.archlinux.org/cgit/aur.git/snapshot/pacman-git.tar.gz" ∧
  next_easy a = 1%nat ∧ next_handler a = 2%nat ∧
  next_easy a' = 3%nat ∧ next_handler a' = 4%nat ∧
  ∃ e hd, easies a' !! 2%nat = Some e ∧
          opt_url e = "https://aur.archlinux.org/cgit/aur.git/snapshot/pacman-git.tar.gz" ∧
          opt_accept_encoding e = "identity" ∧
          opt_private e = 3%nat ∧
          heap a' !! 3%nat = Some hd.
Proof.
  intros a a'.
  destruct (C10_one_transfer_and_handler_per_url example_removal example_curl_strerror
      example_strerror
              example_baseurl "" example_calls TarballRequestTraits example_libcurl
              example_request2 (λ _, 0))
    as (Hne & Hnh & _ & Hnew & _ & _).
  destruct (Hnew 1%nat _ eq_refl) as (e & hd & He & Hu & Henc & Hp & Hh & _).
  split; [reflexivity|]. split; [reflexivity|]. split; [reflexivity|].
  split; [exact Hne|]. split; [exact Hnh|].
  exists e, hd. split; [exact He|]. split; [exact Hu|]. split; [exact Henc|].
  split; [exact Hp|exact Hh].
Defined.

(** * Further properties of the engine *)

(** ** Strings, the environment and the event mask *)

Lemma append_cons c s t : String c s +:+ t = String c (s +:+ t).
Proof. reflexivity. Qed.

Lemma append_nil_r s : s +:+ "" = s.
Proof. induction s as [|c s IH]; [done|]. by rewrite append_cons, IH. Qed.

Lemma append_assoc s t u : (s +:+ t) +:+ u = s +:+ (t +:+ u).
Proof. induction s as [|c s IH]; [done|]. by rewrite !append_cons, IH. Qed.

Lemma substring_all s : String.substring 0 (String.length s) s = s.
Proof. induction s as [|c s IH]; simpl; [done|]. by rewrite IH. Qed.

Lemma ConsumePrefix_cases view prefix :
  match ConsumePrefix view prefix with
  | Some rest => view = prefix +:+ rest
  | None => ∀ rest, view ≠ prefix +:+ rest
  end.
Proof.
  unfold ConsumePrefix. revert view. induction prefix as [|c p IH]; intros view.
  - simpl. rewrite Nat.sub_0_r, substring_all. by destruct view.
  - destruct view as [|c' v]; simpl; [done|].
    destruct (Ascii.ascii_dec c c') as [->|Hne].
    + specialize (IH v). destruct (String.prefix p v).
      * rewrite append_cons. by f_equal.
      * intros rest. rewrite append_cons. intros [= E]. by apply (IH rest).
    + intros rest. rewrite append_cons. intros [= E _]. done.
Qed.

Lemma ConsumePrefix_append prefix rest : ConsumePrefix (prefix +:+ rest) prefix = Some rest.
Proof.
  pose proof (ConsumePrefix_cases (prefix +:+ rest) prefix) as H.
  destruct (ConsumePrefix (prefix +:+ rest) prefix) as [rest'|].
  - f_equal. by apply (String.app_inj prefix).
  - by destruct (H rest).
Qed.

(** X1.  [ConsumePrefix] succeeds exactly on the strings that begin with
    the prefix, and then leaves the rest of the string: it returns
    [Some rest] if and only if [view] is [prefix] followed by [rest], and
    [None] (the view untouched) if and only if [view] does not begin with
    [prefix]. *)
Theorem ConsumePrefix_round_trip view prefix rest :
  (ConsumePrefix view prefix = Some rest ↔ view = prefix +:+ rest) ∧
  (ConsumePrefix view prefix = None ↔ ∀ rest', view ≠ prefix +:+ rest') ∧
  ConsumePrefix (prefix +:+ rest) prefix = Some rest.
Proof.
  pose proof (ConsumePrefix_cases view prefix) as H.
  split; [|split].
  - split.
    + intros E. by rewrite E in H.
    + intros ->. apply ConsumePrefix_append.
  - split.
    + intros E. by rewrite E in H.
    + intros Hn. destruct (ConsumePrefix view prefix) as [rest'|]; [|done].
      by destruct (Hn rest').
  - apply ConsumePrefix_append.
Qed.

Lemma Aur_new_debug baseurl debug :
  let a := Aur_new baseurl debug in
  (debug_level_ a = DEBUG_NONE ↔ debug = "") ∧
  (debug_level_ a = DEBUG_REQUESTS ↔ ∃ path, debug = "requests:" +:+ path) ∧
  (debug_level_ a = DEBUG_VERBOSE_STDERR ↔
     debug ≠ "" ∧ ∀ path, debug ≠ "requests:" +:+ path) ∧
  (∀ path, debug_stream_ a = Some path ↔ debug = "requests:" +:+ path) ∧
  baseurl_ a = baseurl.
Proof.
  cbv zeta. unfold Aur_new.
  pose proof (ConsumePrefix_cases debug "requests:") as H.
  destruct (ConsumePrefix debug "requests:") as [path|]; simpl.
  - subst debug. split; [|split; [|split; [|split]]]; [done| | | |done].
    + split; [eauto|done].
    + split; [done|]. intros [_ Hn]. by destruct (Hn path).
    + intros path'. split; [by intros [= ->]|].
      intros E. f_equal. by apply (String.app_inj "requests:").
  - case_decide as Hd; simpl.
    + split; [|split; [|split; [|split]]]; [done| | | |done].
      * split; [done|]. intros [path E]. by destruct (H path).
      * done.
      * intros path. split; [done|]. intros E. by destruct (H path).
    + subst debug.
      split; [|split; [|split; [|split]]]; [done| | | |done].
      * split; [done|]. intros [path E]. by destruct (H path).
      * split; [done|]. by intros [? _].
      * intros path. split; [done|]. intros E. by destruct (H path).
Qed.

(** X2.  The constructor reads the debug level off the environment
    variable AURACLE_DEBUG: no debugging when the variable is unset or
    empty; logging of request headers, to the file named after the colon,
    when its value begins with "requests:"; verbose output of libcurl for
    any other value.  The new engine has the base URL it was given and
    holds nothing. *)
Theorem Aur_new_debug_level env baseurl :
  let debug := GetEnv env "AURACLE_DEBUG" in
  let a := Aur_new baseurl debug in
  (debug_level_ a = DEBUG_NONE ↔
     env !! "AURACLE_DEBUG" = None ∨ env !! "AURACLE_DEBUG" = Some "") ∧
  (debug_level_ a = DEBUG_REQUESTS ↔
     ∃ path, env !! "AURACLE_DEBUG" = Some ("requests:" +:+ path)) ∧
  (debug_level_ a = DEBUG_VERBOSE_STDERR ↔
     ∃ value, env !! "AURACLE_DEBUG" = Some value ∧ value ≠ "" ∧
              ∀ path, value ≠ "requests:" +:+ path) ∧
  (∀ path, debug_stream_ a = Some path ↔
     env !! "AURACLE_DEBUG" = Some ("requests:" +:+ path)) ∧
  baseurl_ a = baseurl ∧ active_requests_ a = ∅ ∧ easies a = ∅ ∧ sources a = ∅ ∧
  heap a = ∅ ∧ trace a = [] ∧ exit_requested a = false.
Proof.
  intros debug a.
  destruct (Aur_new_debug baseurl debug) as (H1 & H2 & H3 & H4 & H5). fold a in H1, H2, H3, H4, H5.
  assert (Hd : ∀ v, v ≠ "" → (debug = v ↔ env !! "AURACLE_DEBUG" = Some v)).
  { intros v Hv. subst debug. unfold GetEnv.
    destruct (env !! "AURACLE_DEBUG") as [v'|]; simpl.
    - split; [by intros ->|by intros [= ->]].
    - split; [by intros <-|done]. }
  split; [|split; [|split; [|split; [|split]]]].
  - rewrite H1. subst debug. unfold GetEnv.
    destruct (env !! "AURACLE_DEBUG") as [v|]; simpl.
    + split; [intros ->; by right|by intros [?|[= ->]]].
    + split; [by left|done].
  - rewrite H2. split; intros [path E]; exists path;
      by apply (Hd ("requests:" +:+ path)).
  - rewrite H3. split.
    + intros [Hne Hp]. exists debug. split; [by apply Hd|done].
    + intros (v & Hv & Hne & Hp). apply (Hd v Hne) in Hv. by subst v.
  - intros path. rewrite H4. by apply (Hd ("requests:" +:+ path)).
  - done.
  - subst a. unfold Aur_new. destruct (ConsumePrefix debug "requests:"); [done|].
    by case_decide.
Qed.

Lemma revents_to_action_mask revents :
  revents_to_action revents = revents_to_action (Z.land revents (Z.lor EPOLLIN EPOLLOUT)).
Proof.
  unfold revents_to_action.
  rewrite <- !Z.land_assoc.
  change (Z.land (Z.lor EPOLLIN EPOLLOUT) (Z.lor EPOLLIN EPOLLOUT))
    with (Z.lor EPOLLIN EPOLLOUT).
  change (Z.land (Z.lor EPOLLIN EPOLLOUT) EPOLLIN) with EPOLLIN.
  change (Z.land (Z.lor EPOLLIN EPOLLOUT) EPOLLOUT) with EPOLLOUT.
  done.
Qed.

Lemma revents_to_action_of_action action :
  revents_to_action (action_to_revents action) =
  (if decide (action = CURL_POLL_IN ∨ action = CURL_POLL_OUT ∨ action = CURL_POLL_INOUT)
   then action else 0).
Proof.
  unfold action_to_revents.
  destruct (decide (action = CURL_POLL_IN)) as [->|H1]; [done|].
  destruct (decide (action = CURL_POLL_OUT)) as [->|H2]; [done|].
  destruct (decide (action = CURL_POLL_INOUT)) as [->|H3]; [done|].
  by rewrite decide_False by (intros [?|[?|?]]; done).
Qed.

Lemma revents_to_action_zero revents :
  revents_to_action revents = 0 ↔ Z.land revents (Z.lor EPOLLIN EPOLLOUT) = 0.
Proof.
  unfold revents_to_action.
  assert (Hin : Z.land revents EPOLLIN =
                Z.land (Z.land revents (Z.lor EPOLLIN EPOLLOUT)) EPOLLIN)
    by (by rewrite <- Z.land_assoc).
  assert (Hout : Z.land revents EPOLLOUT =
                 Z.land (Z.land revents (Z.lor EPOLLIN EPOLLOUT)) EPOLLOUT)
    by (by rewrite <- Z.land_assoc).
  assert (Hor : Z.land revents (Z.lor EPOLLIN EPOLLOUT) =
                Z.lor (Z.land revents EPOLLIN) (Z.land revents EPOLLOUT))
    by apply Z.land_lor_distr_r.
  destruct (decide (Z.land revents (Z.lor EPOLLIN EPOLLOUT) = Z.lor EPOLLIN EPOLLOUT))
    as [E1|E1].
  { split; [done|]. intros E. by rewrite E in E1. }
  destruct (decide (Z.land revents EPOLLIN ≠ 0)) as [E2|E2].
  { split; [done|]. intros E. by rewrite E in Hin. }
  destruct (decide (Z.land revents EPOLLOUT ≠ 0)) as [E3|E3].
  { split; [done|]. intros E. by rewrite E in Hout. }
  split; [|done]. intros _. apply dec_stable in E2, E3. by rewrite Hor, E2, E3.
Qed.

(** X3.  What libcurl registers, it is handed back.  [SocketCallback] has
    registered the socket [s], duplicated as [dupfd], for the action IN,
    OUT or INOUT.  When the reactor then reports events on [dupfd] whose
    readable and writable bits are those of the registered mask, [OnCurlIO]
    calls [curl_multi_socket_action] with the socket [s] itself, not the
    duplicate, and with the registered action: whatever libcurl does with
    its arguments, the call goes as if it had been given [s] and [action].
    Bits other than the readable and the writable one do not count, and
    events without either of them give action 0. *)
Theorem OnCurlIO_hands_back_registered_interest
    on_remove curl_easy_strerror reaction dupfd s action revents a :
  active_io_ a !! s = None → translate_fds_ a !! dupfd = None → 0 ≤ dupfd →
  action = CURL_POLL_IN ∨ action = CURL_POLL_OUT ∨ action = CURL_POLL_INOUT →
  Z.land revents (Z.lor EPOLLIN EPOLLOUT) = action_to_revents action →
  let registered := (SocketCallback dupfd true s action a).1 in
  OnCurlIO on_remove curl_easy_strerror reaction dupfd revents registered =
    OnCurlIO on_remove curl_easy_strerror (λ _ _, reaction s action) dupfd revents
      registered ∧
  (∀ other, OnCurlIO on_remove curl_easy_strerror reaction dupfd
              (Z.lor revents (Z.land other (Z.lnot (Z.lor EPOLLIN EPOLLOUT)))) registered =
            OnCurlIO on_remove curl_easy_strerror reaction dupfd revents registered) ∧
  (∀ revents', Z.land revents' (Z.lor EPOLLIN EPOLLOUT) = 0 →
     OnCurlIO on_remove curl_easy_strerror reaction dupfd revents' registered =
     OnCurlIO on_remove curl_easy_strerror (λ _ _, reaction s 0) dupfd revents' registered).
Proof.
  intros Hio Htr Hfd Hact Hrev registered.
  assert (Hne : action ≠ CURL_POLL_REMOVE) by (by destruct Hact as [->|[->| ->]]).
  assert (Hs : default 0 (translate_fds_ registered !! dupfd) = s).
  { subst registered. rewrite (SocketCallback_add dupfd s action a Hio Hne Hfd). simpl.
    unfold emplace at 1. rewrite Htr. by rewrite lookup_insert_eq. }
  assert (Ha : revents_to_action revents = action).
  { rewrite revents_to_action_mask, Hrev, revents_to_action_of_action.
    by rewrite decide_True. }
  split; [|split].
  - unfold OnCurlIO, curl_multi_socket_action. cbv zeta. by rewrite Hs, Ha.
  - intros other. unfold OnCurlIO, curl_multi_socket_action. cbv zeta.
    rewrite (revents_to_action_mask (Z.lor _ _)), Z.land_lor_distr_l, <-Z.land_assoc.
    rewrite (Z.land_comm (Z.lnot _)), Z.land_lnot_diag, Z.land_0_r, Z.lor_0_r.
    by rewrite <-revents_to_action_mask.
  - intros revents' H0. apply revents_to_action_zero in H0.
    unfold OnCurlIO, curl_multi_socket_action. cbv zeta. by rewrite Hs, H0.
Qed.

(** Socket 5, duplicated as descriptor 9, is registered for reading; the
    reactor reports it readable, with the hang-up bit (16) set as well. *)
Lemma OnCurlIO_hands_back_registered_interest_witness :
  let registered := (SocketCallback 9 true 5 CURL_POLL_IN example_engine).1 in
  let reaction := λ sockfd ev_bitmask : Z,
    {| acts := [CaTimer (sockfd + ev_bitmask) 1000000 true]; mcode := CURLM_OK |} in
  (timer_state (OnCurlIO example_removal example_curl_strerror reaction 9
                  (Z.lor EPOLLIN 16) registered).1 =
   Some {| src_kind := SrcTime 7000; src_enabled := SD_EVENT_ONESHOT |}) ∧
  OnCurlIO example_removal example_curl_strerror reaction 9 (Z.lor EPOLLIN 16)
    registered =
    OnCurlIO example_removal example_curl_strerror (λ _ _, reaction 5 CURL_POLL_IN) 9
      (Z.lor EPOLLIN 16) registered ∧
  (∀ other, OnCurlIO example_removal example_curl_strerror reaction 9
              (Z.lor (Z.lor EPOLLIN 16)
                 (Z.land other (Z.lnot (Z.lor EPOLLIN EPOLLOUT)))) registered =
            OnCurlIO example_removal example_curl_strerror reaction 9
              (Z.lor EPOLLIN 16) registered) ∧
  (∀ revents', Z.land revents' (Z.lor EPOLLIN EPOLLOUT) = 0 →
     OnCurlIO example_removal example_curl_strerror reaction 9 revents' registered =
     OnCurlIO example_removal example_curl_strerror (λ _ _, reaction 5 0) 9 revents'
       registered).
Proof.
  intros registered reaction. split; [by vm_compute|].
  apply (OnCurlIO_hands_back_registered_interest example_removal example_curl_strerror
           reaction 9 5 CURL_POLL_IN (Z.lor EPOLLIN 16) example_engine);
    [reflexivity|reflexivity|lia|by left|reflexivity].
Defined.

(** ** Steps that only touch response handlers *)

Lemma handler_step_refl a : handler_step a a.
Proof. split; [done|]. exists []. by rewrite app_nil_r. Qed.

Lemma handler_step_trans a1 a2 a3 :
  handler_step a1 a2 → handler_step a2 a3 → handler_step a1 a3.
Proof.
  intros [F1 (t1 & T1 & P1)] [F2 (t2 & T2 & P2)]. split; [congruence|].
  exists (t1 ++ t2). rewrite T2, T1, app_assoc. split; [done|]. by apply Forall_app.
Qed.

#[global] Instance handler_step_preorder : PreOrder handler_step.
Proof. split; [exact handler_step_refl|exact handler_step_trans]. Qed.

Lemma handler_step_log o a : handler_obs o → handler_step a (log o a).
Proof. intros Ho. split; [done|]. exists [o]. split; [done|]. by constructor. Qed.

Lemma handler_step_set_heap f a : handler_step a (set_heap f a).
Proof. split; [done|]. exists []. by rewrite app_nil_r. Qed.

Lemma handler_step_delete_handler h a : handler_step a (delete_handler h a).
Proof.
  unfold delete_handler. destruct (heap a !! h).
  - etrans; [apply (handler_step_set_heap (delete h))|]. by apply handler_step_log.
  - by apply handler_step_log.
Qed.

Lemma handler_step_RunCallback h status error a :
  handler_step a (RunCallback h status error a).1.
Proof.
  unfold RunCallback. destruct (heap a !! h); simpl.
  - etrans; [|apply handler_step_delete_handler]. by apply handler_step_log.
  - by apply handler_step_log.
Qed.

Lemma handler_step_read_error_buffer h a : handler_step a (read_error_buffer h a).1.
Proof.
  unfold read_error_buffer. destruct (heap a !! h); simpl; [done|]. by apply handler_step_log.
Qed.

Lemma handler_step_handler_aur h a : handler_step a (handler_aur h a).
Proof.
  unfold handler_aur. destruct (heap a !! h); [done|]. by apply handler_step_log.
Qed.

Lemma handler_step_BodyCallback data h a : handler_step a (BodyCallback data h a).
Proof.
  unfold BodyCallback. destruct (heap a !! h); [apply handler_step_set_heap|].
  by apply handler_step_log.
Qed.

Lemma handler_step_write_error_buffer msg h a : handler_step a (write_error_buffer msg h a).
Proof.
  unfold write_error_buffer. destruct (heap a !! h); [apply handler_step_set_heap|].
  by apply handler_step_log.
Qed.

(** [FinishRequest] on a live transfer: a step on its handler, then the
    release of the transfer. *)
Lemma FinishRequest_curl_shape on_remove curl_easy_strerror c e result dispatch a :
  easies a !! c = Some e →
  ∃ a1, handler_step a a1 ∧
    (FinishRequest_curl on_remove curl_easy_strerror c result dispatch a).1 =
    notified (on_remove c)
      (curl_easy_cleanup c (curl_multi_remove_handle [] c
         (set_active_requests (λ s, s ∖ {[ReqCurl c]}) a1))).
Proof.
  intros He. unfold FinishRequest_curl. rewrite He.
  assert (E : ∀ b, curl_easy_cleanup c (curl_multi_remove_handle (on_remove c) c b) =
                   notified (on_remove c)
                     (curl_easy_cleanup c (curl_multi_remove_handle [] c b))).
  { intros b. unfold curl_easy_cleanup, curl_multi_remove_handle.
    by rewrite notified_set_easies. }
  destruct dispatch.
  - destruct (decide (result ≠ CURLE_OK)).
    + pose proof (handler_step_read_error_buffer (opt_private e) a) as S1.
      destruct (read_error_buffer (opt_private e) a) as [a1 error]. simpl in S1.
      destruct (decide (error = "")).
      * pose proof (handler_step_RunCallback (opt_private e) (info_response_code e)
                      (curl_easy_strerror result) a1) as S2.
        destruct (RunCallback _ _ _ a1) as [a2 r]. simpl in *.
        exists a2. split; [by etrans|apply E].
      * pose proof (handler_step_RunCallback (opt_private e) (info_response_code e)
                      error a1) as S2.
        destruct (RunCallback _ _ _ a1) as [a2 r]. simpl in *.
        exists a2. split; [by etrans|apply E].
    + pose proof (handler_step_RunCallback (opt_private e) (info_response_code e) "" a) as S2.
      destruct (RunCallback _ _ _ a) as [a2 r]. simpl in *. exists a2. split; [done|apply E].
  - exists (delete_handler (opt_private e) a).
    split; [apply handler_step_delete_handler|apply E].
Qed.

(** ** [SocketCallback] when the registration fails *)

Lemma SocketCallback_fails dupfd add_ok s action a :
  active_io_ a !! s = None → dupfd < 0 ∨ add_ok = false →
  SocketCallback dupfd add_ok s action a = (a, -1).
Proof.
  intros Hio Hf. unfold SocketCallback. rewrite Hio.
  assert ((if decide (action = CURL_POLL_REMOVE) then a else a) = a) as -> by (by case_decide).
  destruct (dupfd <? 0) eqn:Efd; [done|].
  destruct Hf as [Hf| ->]; [apply Z.ltb_ge in Efd; lia|]. done.
Qed.

(** X4.  A notification for a socket that has no registration, when the
    descriptor cannot be duplicated or the reactor refuses the new
    source: [SocketCallback] returns -1 and leaves the engine exactly as
    it was.  In particular, when it is the reactor that refuses, the
    descriptor just duplicated is neither recorded nor closed. *)
Theorem SocketCallback_registration_fails dupfd add_ok s action a :
  active_io_ a !! s = None → dupfd < 0 ∨ add_ok = false →
  let r := SocketCallback dupfd add_ok s action a in
  r.2 = -1 ∧ r.1 = a ∧
  translate_fds_ r.1 !! dupfd = translate_fds_ a !! dupfd ∧
  ObsClose dupfd ∉ drop (length (trace a)) (trace r.1).
Proof.
  intros Hio Hf. cbv zeta. rewrite (SocketCallback_fails dupfd add_ok s action a Hio Hf).
  simpl. rewrite drop_all. repeat split. apply not_elem_of_nil.
Qed.

Lemma SocketCallback_registration_fails_witness :
  let r := SocketCallback 9 false 5 CURL_POLL_IN example_engine in
  r.2 = -1 ∧ r.1 = example_engine ∧
  translate_fds_ r.1 !! 9 = translate_fds_ example_engine !! 9 ∧
  ObsClose 9 ∉ drop (length (trace example_engine)) (trace r.1).
Proof.
  apply (SocketCallback_registration_fails 9 false 5 CURL_POLL_IN example_engine);
    [reflexivity|right; reflexivity].
Defined.

(** ** Registering a socket and changing its interest *)

Lemma emplace_fresh `{Countable K} {V} (k : K) (v : V) (m : gmap K V) :
  m !! k = None → emplace k v m = <[k := v]> m.
Proof. intros E. unfold emplace. by rewrite E. Qed.

(** X5.  The last interest wins.  The first notification for a socket
    gives it an I/O source on a duplicate of its descriptor, switched on
    for the requested interest, and enters both in the tables.  A further
    notification with another interest (not a removal) duplicates nothing
    and registers nothing: it returns 0, and the engine is then exactly as
    if the socket had been registered with the later interest in the first
    place. *)
Theorem SocketCallback_last_interest_wins dupfd dupfd' add_ok' s action action' a :
  active_io_ a !! s = None → translate_fds_ a !! dupfd = None →
  action ≠ CURL_POLL_REMOVE → action' ≠ CURL_POLL_REMOVE → 0 ≤ dupfd →
  let registered := (SocketCallback dupfd true s action a).1 in
  (active_io_ registered !! s = Some (next_source a) ∧
   translate_fds_ registered !! dupfd = Some s ∧
   sources registered !! next_source a =
     Some {| src_kind := SrcIO dupfd (action_to_revents action);
             src_enabled := SD_EVENT_ON |}) ∧
  SocketCallback dupfd' add_ok' s action' registered =
    SocketCallback dupfd true s action' a.
Proof.
  intros Hio Htr Hact Hact' Hfd. cbv zeta.
  rewrite (SocketCallback_add dupfd s action a Hio Hact Hfd). cbn [fst].
  rewrite (SocketCallback_add dupfd s action' a Hio Hact' Hfd).
  set (registered := set_translate_fds _ _).
  assert (Hio' : active_io_ registered !! s = Some (next_source a)).
  { subst registered. simpl. rewrite emplace_fresh by done. apply lookup_insert_eq. }
  assert (Hsrc' : sources registered !! next_source a =
     Some {| src_kind := SrcIO dupfd (action_to_revents action);
             src_enabled := SD_EVENT_ON |}).
  { subst registered. simpl. apply lookup_insert_eq. }
  split.
  - split; [done|]. split; [|done].
    subst registered. simpl. rewrite emplace_fresh by done. apply lookup_insert_eq.
  - rewrite (SocketCallback_modify dupfd' add_ok' s action' registered _ _ _ _
               Hio' Hsrc' Hact').
    subst registered. unfold set_sources, set_translate_fds, set_active_io, new_source.
    simpl. by rewrite insert_insert_eq.
Qed.

(** Socket 5, duplicated as descriptor 9, is registered for reading and
    then for writing. *)
Lemma SocketCallback_last_interest_wins_witness :
  let registered := (SocketCallback 9 true 5 CURL_POLL_IN example_engine).1 in
  (sources (SocketCallback 12 true 5 CURL_POLL_OUT registered).1 !! 0%nat =
     Some {| src_kind := SrcIO 9 EPOLLOUT; src_enabled := SD_EVENT_ON |}) ∧
  (active_io_ registered !! 5 = Some (next_source example_engine) ∧
   translate_fds_ registered !! 9 = Some 5 ∧
   sources registered !! next_source example_engine =
     Some {| src_kind := SrcIO 9 (action_to_revents CURL_POLL_IN);
             src_enabled := SD_EVENT_ON |}) ∧
  SocketCallback 12 true 5 CURL_POLL_OUT registered =
    SocketCallback 9 true 5 CURL_POLL_OUT example_engine.
Proof.
  intros registered. split; [by vm_compute|].
  apply (SocketCallback_last_interest_wins 9 12 true 5 CURL_POLL_IN CURL_POLL_OUT
           example_engine); [reflexivity|reflexivity|done|done|lia].
Defined.

(** ** The descriptor tables *)

Lemma handler_step_fd_tables a a' : handler_step a a' → fd_tables a' = fd_tables a.
Proof. intros [F _]. unfold engine_frame in F. unfold fd_tables. congruence. Qed.

Lemma sd_event_source_set_enabled_fd_tables s m a :
  fd_tables (sd_event_source_set_enabled s m a).1 = fd_tables a.
Proof. unfold sd_event_source_set_enabled. by destruct (sources a !! s). Qed.

Lemma sd_event_source_set_time_fd_tables s usec a :
  fd_tables (sd_event_source_set_time s usec a).1 = fd_tables a.
Proof.
  unfold sd_event_source_set_time. destruct (sources a !! s) as [src|]; [|done].
  by destruct (src_kind src).
Qed.

Lemma TimerCallback_fd_tables now add_ok timeout_ms a :
  fd_tables (TimerCallback now add_ok timeout_ms a).1 = fd_tables a.
Proof.
  unfold TimerCallback. case_match.
  - destruct (timer_ a) as [t|]; [|done].
    pose proof (sd_event_source_set_enabled_fd_tables t SD_EVENT_OFF a) as F.
    destruct (sd_event_source_set_enabled t SD_EVENT_OFF a) as [a1 r]. by case_match.
  - destruct (timer_ a) as [t|].
    + pose proof (sd_event_source_set_time_fd_tables t
                    (to_uint64 (TimepointTo_usec (steady_clock_plus_ms now timeout_ms))) a)
        as F1.
      destruct (sd_event_source_set_time t _ a) as [a1 r1]; simpl in F1.
      case_match; [done|].
      pose proof (sd_event_source_set_enabled_fd_tables t SD_EVENT_ONESHOT a1) as F2.
      destruct (sd_event_source_set_enabled t _ a1) as [a2 r2]; simpl in F2.
      case_match; simpl; congruence.
    + unfold sd_event_add_time. by destruct add_ok.
Qed.

Lemma curl_act_fd_tables act a : not_socket act → fd_tables (curl_act act a) = fd_tables a.
Proof.
  destruct act; simpl; try done; intros _.
  - apply TimerCallback_fd_tables.
  - destruct (in_flight c a); [|done]. apply handler_step_fd_tables, handler_step_BodyCallback.
  - destruct (in_flight c a); [|done]. case_match; [|done].
    unfold DebugCallback. by case_decide.
  - destruct (in_flight c a); [|done].
    apply handler_step_fd_tables, handler_step_write_error_buffer.
  - by destruct (in_flight c a).
Qed.

Lemma curl_acts_fd_tables l a :
  Forall not_socket l → fd_tables (foldl (λ a act, curl_act act a) a l) = fd_tables a.
Proof.
  revert a. induction l as [|act l IH]; intros a Hl; simpl; [done|].
  apply Forall_cons in Hl as [H1 H2]. rewrite IH by done. by apply curl_act_fd_tables.
Qed.

Lemma FinishRequest_curl_fd_tables on_remove curl_easy_strerror c result dispatch a :
  Forall not_socket (notice_act <$> on_remove c) →
  fd_tables (FinishRequest_curl on_remove curl_easy_strerror c result dispatch a).1 =
  fd_tables a.
Proof.
  intros Hq. destruct (easies a !! c) as [e|] eqn:He.
  - destruct (FinishRequest_curl_shape on_remove curl_easy_strerror c e result dispatch a He)
      as (a1 & S1 & ->).
    unfold notified. rewrite curl_acts_fd_tables by done.
    by rewrite <-(handler_step_fd_tables _ _ S1).
  - by rewrite FinishRequest_curl_dead.
Qed.

Lemma FinishRequest_source_fd_tables s a :
  fd_tables (FinishRequest_source s a).1 = fd_tables a.
Proof.
  unfold FinishRequest_source, sd_event_source_unref. simpl. by destruct (sources a !! s).
Qed.

Lemma Cancel_fd_tables on_remove curl_easy_strerror request a :
  (∀ c, Forall not_socket (notice_act <$> on_remove c)) →
  fd_tables (Cancel on_remove curl_easy_strerror request a) = fd_tables a.
Proof.
  intros Hq. destruct request;
    [by apply FinishRequest_curl_fd_tables|apply FinishRequest_source_fd_tables].
Qed.

Lemma CancelAll_loop_fd_tables on_remove curl_easy_strerror fuel a a' :
  (∀ c, Forall not_socket (notice_act <$> on_remove c)) →
  CancelAll_loop on_remove curl_easy_strerror fuel a = Some a' → fd_tables a' = fd_tables a.
Proof.
  intros Hq. revert a. induction fuel as [|fuel IH]; intros a; simpl;
    destruct (head (elements (active_requests_ a))) as [r|]; simpl;
    try discriminate; try (by intros [= <-]).
  intros H. rewrite (IH _ H). by apply Cancel_fd_tables.
Qed.

Lemma CancelAll_fd_tables on_remove curl_easy_strerror a :
  (∀ c, Forall not_socket (notice_act <$> on_remove c)) →
  fd_tables (CancelAll on_remove curl_easy_strerror a) = fd_tables a.
Proof.
  intros Hq. unfold CancelAll.
  destruct (CancelAll_loop_total on_remove curl_easy_strerror (size (active_requests_ a)) a)
    as (a' & Ha' & He); [done|].
  rewrite Ha'. simpl. rewrite <-(CancelAll_loop_fd_tables _ _ _ _ _ Hq Ha').
  unfold sd_event_exit. by destruct (finished a').
Qed.

Lemma CheckFinished_loop_fd_tables on_remove curl_easy_strerror fuel a a' r :
  (∀ c, Forall not_socket (notice_act <$> on_remove c)) →
  CheckFinished_loop on_remove curl_easy_strerror fuel a = Some (a', r) →
  fd_tables a' = fd_tables a.
Proof.
  intros Hq. revert a. induction fuel as [|fuel IH]; intros a; simpl;
    unfold curl_multi_info_read;
    destruct (multi_msgs a) as [|[c result] rest]; try discriminate;
    try (by intros [= <- <-]).
  pose proof (FinishRequest_curl_fd_tables on_remove curl_easy_strerror c result true
                (set_multi id (λ _, rest) a) (Hq c)) as F.
  destruct (FinishRequest_curl _ _ c result true _) as [a1 r1]. simpl in F.
  case_match.
  - intros [= <- <-]. by rewrite CancelAll_fd_tables.
  - intros Hl. by rewrite (IH _ Hl).
Qed.

Lemma CheckFinished_fd_tables on_remove curl_easy_strerror a :
  (∀ c, Forall not_socket (notice_act <$> on_remove c)) →
  fd_tables (CheckFinished on_remove curl_easy_strerror a).1 = fd_tables a.
Proof.
  intros Hq. unfold CheckFinished.
  destruct (CheckFinished_loop _ _ _ a) as [[a' r]|] eqn:E; [|done].
  by eapply CheckFinished_loop_fd_tables.
Qed.

(** X6.  [OnCurlIO] looks the descriptor up with [translate_fds_[fd]]: a
    descriptor that is missing from the table is entered into it with
    socket 0, one that is there keeps its entry, and nothing else happens
    to the two descriptor tables as long as libcurl does not notify a
    socket during the call (neither inside [curl_multi_socket_action] nor
    inside the [curl_multi_remove_handle] of a finished transfer). *)
Theorem OnCurlIO_enters_missing_descriptor on_remove curl_easy_strerror reaction fd revents a :
  Forall not_socket
    (acts (reaction (default 0 (translate_fds_ a !! fd)) (revents_to_action revents))) →
  (∀ c, Forall not_socket (notice_act <$> on_remove c)) →
  fd_tables (OnCurlIO on_remove curl_easy_strerror reaction fd revents a).1 =
  (active_io_ a,
   match translate_fds_ a !! fd with
   | Some _ => translate_fds_ a
   | None => <[fd := 0]> (translate_fds_ a)
   end).
Proof.
  intros Hacts Hq. unfold OnCurlIO, curl_multi_socket_action. cbv zeta.
  pose proof (curl_acts_fd_tables _ (set_translate_fds (emplace fd 0) a) Hacts) as F.
  case_decide; [|rewrite CheckFinished_fd_tables by done]; simpl; rewrite F; done.
Qed.

Lemma OnCurlIO_enters_missing_descriptor_witness :
  fd_tables (OnCurlIO example_removal example_curl_strerror
               (λ _ _, {| acts := [CaTimer 0 1000000 true]; mcode := CURLM_OK |}) 9 EPOLLIN
               example_engine).1 =
  (active_io_ example_engine,
   match translate_fds_ example_engine !! 9 with
   | Some _ => translate_fds_ example_engine
   | None => <[9 := 0]> (translate_fds_ example_engine)
   end).
Proof.
  apply (OnCurlIO_enters_missing_descriptor example_removal example_curl_strerror
           (λ _ _, {| acts := [CaTimer 0 1000000 true]; mcode := CURLM_OK |}) 9 EPOLLIN
           example_engine).
  - repeat constructor.
  - intros c. repeat constructor.
Defined.

(** ** The shared timer *)

Lemma to_int64_small z : - 2 ^ 63 ≤ z < 2 ^ 63 → to_int64 z = z.
Proof. intros Hz. unfold to_int64. rewrite Z.mod_small; lia. Qed.

(** As long as the sum fits the clock's count, the deadline is the clock
    reading plus the timeout, in microseconds. *)
Lemma deadline_in_range now timeout_ms :
  0 ≤ now → 0 ≤ timeout_ms → now + 1000000 * timeout_ms < 2 ^ 63 →
  to_uint64 (TimepointTo_usec (steady_clock_plus_ms now timeout_ms)) =
  now / 1000 + 1000 * timeout_ms.
Proof.
  intros Hn Ht Hs. unfold steady_clock_plus_ms, TimepointTo_usec, to_uint64.
  rewrite (to_int64_small (1000000 * timeout_ms)) by lia.
  rewrite to_int64_small by lia.
  rewrite Z.quot_div_nonneg by lia.
  replace (now + 1000000 * timeout_ms) with (now + (1000 * timeout_ms) * 1000) by lia.
  rewrite Z.div_add by lia.
  apply Z.mod_small. split; [apply Z.add_nonneg_nonneg; [apply Z.div_pos|]; lia|].
  assert (now / 1000 ≤ now) by (apply Z.div_le_upper_bound; lia). lia.
Qed.

(** X7.  [TimerCallback] works on one shared timer.  A negative timeout
    switches the timer off, keeping its deadline, and does nothing when
    there is no timer.  Any other timeout arms the timer, one-shot: the
    existing timer is reused, and only when there is none is a source
    created, in which case a refusal of the reactor gives -1 and changes
    nothing.  The deadline is the clock reading plus the timeout, in
    microseconds, as long as that sum fits the 64-bit count of nanoseconds
    in which the engine computes it; beyond that the sum wraps around. *)
Theorem TimerCallback_arms_shared_timer now add_ok timeout_ms a :
  (timer_ a = None ∨ ∃ usec enabled,
     timer_state a = Some {| src_kind := SrcTime usec; src_enabled := enabled |}) →
  0 ≤ now → now + 1000000 * timeout_ms < 2 ^ 63 →
  let a' := (TimerCallback now add_ok timeout_ms a).1 in
  let r := (TimerCallback now add_ok timeout_ms a).2 in
  if timeout_ms <? 0 then
    r = 0 ∧ timer_ a' = timer_ a ∧ next_source a' = next_source a ∧
    timer_state a' =
      (λ src, {| src_kind := src_kind src; src_enabled := SD_EVENT_OFF |}) <$> timer_state a
  else
    match timer_ a with
    | Some t =>
        r = 0 ∧ timer_ a' = Some t ∧ next_source a' = next_source a ∧
        timer_state a' = Some {| src_kind := SrcTime (now / 1000 + 1000 * timeout_ms);
                                 src_enabled := SD_EVENT_ONESHOT |}
    | None =>
        if add_ok then
          r = 0 ∧ timer_ a' = Some (next_source a) ∧
          timer_state a' = Some {| src_kind := SrcTime (now / 1000 + 1000 * timeout_ms);
                                   src_enabled := SD_EVENT_ONESHOT |}
        else r = -1 ∧ a' = a
    end.
Proof.
  intros Ht Hn Hs. cbv zeta. unfold TimerCallback, timer_state in *.
  destruct (timeout_ms <? 0) eqn:Hneg.
  - destruct (timer_ a) as [t|] eqn:Et; [|by simpl; rewrite Et].
    destruct Ht as [?|(usec & en & Hsrc)]; [done|].
    unfold sd_event_source_set_enabled. rewrite Hsrc. simpl. rewrite Et.
    by rewrite lookup_insert_eq.
  - apply Z.ltb_ge in Hneg. rewrite (deadline_in_range now timeout_ms Hn Hneg Hs).
    destruct (timer_ a) as [t|] eqn:Et.
    + destruct Ht as [?|(usec & en & Hsrc)]; [done|].
      unfold sd_event_source_set_time, sd_event_source_set_enabled. rewrite Hsrc. simpl.
      rewrite lookup_insert_eq. simpl. rewrite Et. by rewrite lookup_insert_eq.
    + destruct add_ok; simpl; [|done]. by rewrite lookup_insert_eq.
Qed.

Lemma TimerCallback_arms_shared_timer_witness :
  let a := (TimerCallback 1000000 true 50 example_engine).1 in
  let a' := (TimerCallback 2000000 false 70 a).1 in
  ((TimerCallback 2000000 false 70 a).2 = 0 ∧ timer_ a' = Some 0%nat ∧
   next_source a' = next_source a ∧
   timer_state a' = Some {| src_kind := SrcTime (2000000 / 1000 + 1000 * 70);
                            src_enabled := SD_EVENT_ONESHOT |}) ∧
  timer_state (TimerCallback 1000000 true (10 ^ 13) example_engine).1 =
    Some {| src_kind := SrcTime 18438297329635843065; src_enabled := SD_EVENT_ONESHOT |}.
Proof.
  split; [|by vm_compute].
  apply (TimerCallback_arms_shared_timer 2000000 false 70
           (TimerCallback 1000000 true 50 example_engine).1); [|lia|lia].
  right. by exists 51000, SD_EVENT_ONESHOT.
Defined.

(** ** Body data *)

Lemma in_flight_frame c a a' : engine_frame a' = engine_frame a → in_flight c a' = in_flight c a.
Proof.
  intros F. unfold engine_frame in F. unfold in_flight, pending.
  assert (multi_handles a' = multi_handles a) as -> by congruence.
  assert (multi_msgs a' = multi_msgs a) as -> by congruence.
  assert (easies a' = easies a) as -> by congruence. done.
Qed.

Lemma with_body_append hd d1 d2 : with_body (with_body hd d1) d2 = with_body hd (d1 +:+ d2).
Proof. unfold with_body. simpl. by rewrite append_assoc. Qed.

Lemma BodyCallback_live data h hd a :
  heap a !! h = Some hd → BodyCallback data h a = set_heap <[h := with_body hd data]> a.
Proof. intros Hl. unfold BodyCallback. by rewrite Hl. Qed.

(** The chunks of a body that libcurl hands over while a transfer is in
    flight are appended to the handler's body in the order of arrival. *)
Lemma BodyCallback_chunks c e chunks a hd :
  in_flight c a = Some e → heap a !! opt_writedata e = Some hd →
  let a1 := foldl (λ a act, curl_act act a) a (CaBody c <$> chunks) in
  engine_frame a1 = engine_frame a ∧ trace a1 = trace a ∧
  heap a1 !! opt_writedata e = Some (with_body hd (foldr String.append "" chunks)).
Proof.
  cbv zeta. revert a hd. induction chunks as [|d chunks IH]; intros a hd Hin Hl; simpl.
  - split; [done|]. split; [done|]. rewrite Hl. f_equal. unfold with_body.
    rewrite append_nil_r. by destruct hd.
  - rewrite Hin, (BodyCallback_live d _ hd a Hl).
    set (a0 := set_heap _ a).
    destruct (IH a0 (with_body hd d)) as (F & T & H).
    + by rewrite (in_flight_frame c a a0).
    + subst a0. simpl. apply lookup_insert_eq.
    + split; [by etrans; [exact F|]|]. split; [by etrans; [exact T|]|].
      etrans; [exact H|]. by rewrite with_body_append.
Qed.

(** X8.  The body of a transfer reaches the callback whole and in order:
    when libcurl hands the body over in chunks and the transfer is then
    finished, the callback runs once, with the HTTP status of the
    transfer and with a response that holds the chunks concatenated in
    the order of arrival (after what the handler held before), and the
    handler is deleted.  What follows in the log ([t]) is what the socket
    and timer callbacks add when libcurl calls them inside
    [curl_multi_remove_handle], nothing when it does not call them. *)
Theorem body_delivered_in_order on_remove curl_easy_strerror c e chunks result a hd :
  in_flight c a = Some e → heap a !! opt_private e = Some hd →
  opt_writedata e = opt_private e →
  let received := foldl (λ a act, curl_act act a) a (CaBody c <$> chunks) in
  let all := foldr String.append "" chunks in
  ∃ arg t,
    trace (FinishRequest_curl on_remove curl_easy_strerror c result true received).1 =
      trace a ++ [ObsCallback (opt_private e) arg (callback_ hd arg);
                  ObsDelete (opt_private e)] ++ t ∧
    Forall notice_obs t ∧ (on_remove c = [] → t = []) ∧
    rw_status arg = info_response_code e ∧
    rw_value arg =
      match htype hd with
      | RpcResponseHandler => RpcResponse (body hd +:+ all)
      | RawResponseHandler => RawResponse (body hd +:+ all)
      | CloneResponseHandler operation => CloneResponse operation
      end.
Proof.
  intros Hin Hl Hw. cbv zeta.
  destruct (BodyCallback_chunks c e chunks a hd Hin) as (F & T & H); [by rewrite Hw|].
  rewrite Hw in H.
  set (received := foldl _ a _) in *.
  assert (He : easies received !! c = Some e).
  { apply in_flight_Some. by rewrite (in_flight_frame c a received). }
  rewrite (FinishRequest_curl_dispatch _ _ _ _ _ _ _ He H). simpl.
  set (a1 := curl_easy_cleanup c _).
  destruct (notified_trace (on_remove c) a1) as (t & Ht & Hn).
  eexists _, t. split.
  { rewrite Ht. subst a1. simpl. unfold RunCallback. rewrite H. simpl.
    unfold delete_handler. simpl. rewrite H. simpl. by rewrite T, <-!app_assoc. }
  split; [done|]. split.
  { intros Hnil. rewrite Hnil in Ht. change (trace a1 = trace a1 ++ t) in Ht.
    apply (app_inv_head (trace a1)). by rewrite app_nil_r. }
  split; [done|].
  simpl. unfold MakeResponse. simpl. done.
Qed.

Lemma body_delivered_in_order_witness :
  let a := QueueRawRequest example_libcurl example_request (λ _, 0) example_engine in
  let received := foldl (λ a act, curl_act act a) a (CaBody 0%nat <$> ["{"; "}"]) in
  ∃ arg t,
    trace (FinishRequest_curl example_removal example_curl_strerror 0%nat CURLE_OK true
             received).1 =
      trace a ++ [ObsCallback 0%nat arg 0; ObsDelete 0%nat] ++ t ∧
    Forall notice_obs t ∧ (example_removal 0%nat = [] → t = []) ∧
    rw_status arg = 0 ∧
    rw_value arg = RawResponse ("" +:+ ("{" +:+ ("}" +:+ ""))).
Proof.
  cbv zeta.
  set (a := QueueRawRequest example_libcurl example_request (λ _, 0) example_engine).
  destruct (in_flight 0%nat a) as [e|] eqn:Hin; [|by vm_compute in Hin].
  destruct (heap a !! opt_private e) as [hd|] eqn:Hl;
    [|by vm_compute in Hin; injection Hin as <-; vm_compute in Hl].
  assert (Hw : opt_writedata e = opt_private e)
    by (by vm_compute in Hin; injection Hin as <-).
  pose proof (body_delivered_in_order example_removal example_curl_strerror 0%nat e
                ["{"; "}"] CURLE_OK a hd Hin Hl Hw) as H.
  vm_compute in Hin. injection Hin as <-.
  vm_compute in Hl. injection Hl as <-.
  exact H.
Defined.

(** ** [Wait] and a reactor that fails or has been told to exit *)

(** X9.  A failure of the reactor ends [Wait] with 0: when requests are
    active, the loop was not told to exit and [sd_event_run] fails,
    [Wait] returns 0 with the engine as it was, the requests still in the
    Active Request Set, and leaves the rest of the events alone. *)
Theorem Wait_reactor_failure on_remove curl_easy_strerror errno script a :
  active_requests_ a ≠ ∅ → finished a = false → exit_requested a = false →
  Wait on_remove curl_easy_strerror (EvFail errno :: script) a = (a, script, Some 0).
Proof.
  intros Ha Hf He. unfold Wait. simpl. rewrite decide_False by done.
  unfold sd_event_run. rewrite Hf, He. simpl.
  unfold sd_event_get_exit_code. by rewrite He.
Qed.

Lemma Wait_reactor_failure_witness :
  let a := run example_removal example_curl_strerror example_strerror example_calls example_engine
      in
  Wait example_removal example_curl_strerror (EvFail 12 :: example_script) a = (a, example_script,
      Some 0).
Proof.
  apply (Wait_reactor_failure example_removal example_curl_strerror 12 example_script
           (run example_removal example_curl_strerror example_strerror example_calls
               example_engine)).
  - intros E. apply (f_equal elements) in E. vm_compute in E. discriminate.
  - reflexivity.
  - reflexivity.
Defined.

Lemma Wait_exit_requested on_remove curl_easy_strerror X T script a :
  Hinv X T a → exit_requested a = true →
  ∃ a', Wait on_remove curl_easy_strerror script a = (a', script, Some (-1)) ∧
        engine_frame a' =
          engine_frame (if decide (active_requests_ a = ∅) then a
                        else set_exit true 1 true a) ∧
        heap a' = heap a ∧ trace a' = trace a.
Proof.
  intros I He. pose proof (hi_exit_code I He) as Hc.
  destruct (decide (active_requests_ a = ∅)) as [Ha|Ha].
  - exists a. rewrite Wait_idle by done. unfold sd_event_get_exit_code. rewrite He, Hc. done.
  - unfold Wait. replace (length script + 2)%nat with (S (S (length script))) by lia.
    destruct (finished a) eqn:Hf.
    + exists a. simpl. rewrite decide_False by done. unfold sd_event_run. rewrite Hf. simpl.
      unfold sd_event_get_exit_code. rewrite He, Hc. repeat split; try done.
      unfold engine_frame. simpl. by rewrite He, Hc, Hf.
    + exists (set_exit true 1 true a). simpl. rewrite decide_False by done.
      unfold sd_event_run at 1. rewrite Hf, He. simpl.
      rewrite decide_False by done. rewrite Hc. done.
Qed.

(** X10.  Once the loop was told to exit ([CancelAll] does so), [Wait]
    serves no request any more, not even one submitted afterwards: it
    returns -1 without taking an event and without running a callback,
    and the requests stay in the Active Request Set. *)
Theorem Wait_serves_nothing_after_exit on_remove curl_easy_strerror strerror baseurl debug calls
    script :
  let a := run on_remove curl_easy_strerror strerror calls (Aur_new baseurl debug) in
  exit_requested a = true →
  ∃ a', Wait on_remove curl_easy_strerror script a = (a', script, Some (-1)) ∧
        active_requests_ a' = active_requests_ a ∧
        easies a' = easies a ∧ sources a' = sources a ∧
        heap a' = heap a ∧ trace a' = trace a.
Proof.
  cbv zeta. intros He.
  destruct (Wait_exit_requested on_remove curl_easy_strerror (λ _, False) [] script _
              (Hinv_run _ _ _ _ _ calls _ (Hinv_Aur_new baseurl debug)) He)
    as (a' & HW & F & Hh & Ht).
  exists a'. split; [done|]. unfold engine_frame in F.
  case_decide; simpl in F; repeat split; congruence.
Qed.

Lemma Wait_serves_nothing_after_exit_witness :
  let a := run example_removal example_curl_strerror example_strerror example_calls_cancelled
             (Aur_new example_baseurl "") in
  ∃ a', Wait example_removal example_curl_strerror example_script a = (a', example_script, Some
      (-1)) ∧
        active_requests_ a' = active_requests_ a ∧
        easies a' = easies a ∧ sources a' = sources a ∧
        heap a' = heap a ∧ trace a' = trace a.
Proof.
  apply (Wait_serves_nothing_after_exit example_removal example_curl_strerror example_strerror
           example_baseurl "" example_calls_cancelled example_script).
  reflexivity.
Defined.

(** * The resources of the engine *)

(** ** The log *)

Lemma curl_faults_app t1 t2 : curl_faults (t1 ++ t2) = curl_faults t1 ++ curl_faults t2.
Proof. unfold curl_faults. apply omap_app. Qed.

Lemma debug_writes_app t1 t2 : debug_writes (t1 ++ t2) = debug_writes t1 ++ debug_writes t2.
Proof. unfold debug_writes. apply omap_app. Qed.

Lemma plain_curl_faults t : Forall plain_obs t → curl_faults t = [].
Proof. induction 1 as [|o t Ho _ IH]; [done|]. by destruct o. Qed.

Lemma plain_debug_writes t : Forall plain_obs t → debug_writes t = [].
Proof. induction 1 as [|o t Ho _ IH]; [done|]. by destruct o. Qed.

Lemma plain_source_faults t : Forall plain_obs t → source_faults t = [].
Proof. induction 1 as [|o t Ho _ IH]; [done|]. by destruct o. Qed.

Lemma faults_follow_close_quiet b t : source_faults t = [] → faults_follow_close b t.
Proof.
  revert b. induction t as [|o t IH]; intros b H; [done|].
  destruct o; simpl in *; try done; by apply IH.
Qed.

Lemma faults_follow_close_app b t1 t2 :
  faults_follow_close b t1 → source_faults t2 = [] → faults_follow_close b (t1 ++ t2).
Proof.
  intros H1 H2. revert b H1. induction t1 as [|o t1 IH]; intros b H1; simpl.
  - by apply faults_follow_close_quiet.
  - destruct o; simpl in *; try (by apply IH).
    destruct H1 as [-> H1]. split; [done|]. by apply IH.
Qed.

Lemma faults_follow_close_removal b t fd s :
  faults_follow_close b t → faults_follow_close b (t ++ [ObsClose fd; ObsSourceFault s]).
Proof.
  revert b. induction t as [|o t IH]; intros b H1; simpl; [done|].
  destruct o; simpl in *; try (by apply IH).
  destruct H1 as [-> H1]. split; [done|]. by apply IH.
Qed.

Lemma Gtrace_app level t1 t2 : Gtrace level t1 → Forall plain_obs t2 → Gtrace level (t1 ++ t2).
Proof.
  intros [H1 H2 H3] Hp. split.
  - by rewrite curl_faults_app, H1, plain_curl_faults.
  - by apply faults_follow_close_app, plain_source_faults.
  - intros Hl. by rewrite debug_writes_app, H3, plain_debug_writes.
Qed.

Lemma Gtrace_removal level t fd s :
  Gtrace level t → Gtrace level ((t ++ [ObsClose fd]) ++ [ObsSourceFault s]).
Proof.
  intros [H1 H2 H3]. rewrite <-app_assoc. simpl. split.
  - by rewrite curl_faults_app, H1.
  - by apply faults_follow_close_removal.
  - intros Hl. by rewrite debug_writes_app, H3.
Qed.

Lemma Gtrace_debug_write t data :
  Gtrace DEBUG_REQUESTS t → Gtrace DEBUG_REQUESTS (t ++ [ObsDebugWrite data]).
Proof.
  intros [H1 H2 H3]. split.
  - by rewrite curl_faults_app, H1.
  - by apply faults_follow_close_app.
  - done.
Qed.

(** ** [calm] is a preorder that keeps the resources *)

Lemma calm_refl a : calm a a.
Proof. split; try done. exists []. by rewrite app_nil_r. Qed.

Lemma calm_trans a1 a2 a3 : calm a1 a2 → calm a2 a3 → calm a1 a3.
Proof.
  intros C1 C2. split.
  - by rewrite (cm_settings C2), (cm_settings C1).
  - by rewrite (cm_active C2), (cm_active C1).
  - by rewrite (cm_easies C2), (cm_easies C1).
  - by rewrite (cm_next_easy C2), (cm_next_easy C1).
  - by rewrite (cm_multi_handles C2), (cm_multi_handles C1).
  - by rewrite (cm_multi_msgs C2), (cm_multi_msgs C1).
  - by rewrite (cm_active_io C2), (cm_active_io C1).
  - by rewrite (cm_timer C2), (cm_timer C1).
  - intros s. by rewrite (cm_tags C2), (cm_tags C1).
  - by rewrite (cm_next_source C2), (cm_next_source C1).
  - destruct (cm_trace C1) as (t1 & T1 & P1). destruct (cm_trace C2) as (t2 & T2 & P2).
    exists (t1 ++ t2). rewrite T2, T1, app_assoc. split; [done|]. by apply Forall_app.
Qed.

#[global] Instance calm_preorder : PreOrder calm.
Proof. split; [exact calm_refl|exact calm_trans]. Qed.

Lemma Gcurl_same level adding a a' :
  (∀ c, ReqCurl c ∈ active_requests_ a' ↔ ReqCurl c ∈ active_requests_ a) →
  easies a' = easies a → next_easy a' = next_easy a →
  multi_handles a' = multi_handles a → multi_msgs a' = multi_msgs a →
  Gcurl level adding a → Gcurl level adding a'.
Proof.
  intros Ha He Hn Hm Hq G. split.
  - intros c. rewrite Ha, He. apply (gc_active G).
  - intros c. rewrite Ha, He. apply (gc_held G).
  - intros c. rewrite Hm, He. apply (gc_multi G).
  - intros c. rewrite Hq, He. apply (gc_msgs G).
  - rewrite Hq. apply (gc_msgs_nodup G).
  - intros c. rewrite He, Hn. apply (gc_bound G).
  - intros c e. rewrite He. apply (gc_options G).
Qed.

Lemma Gsrc_same a a' :
  (∀ s, ReqSource s ∈ active_requests_ a' ↔ ReqSource s ∈ active_requests_ a) →
  active_io_ a' = active_io_ a → timer_ a' = timer_ a →
  (∀ s, tag_of a' s = tag_of a s) → next_source a' = next_source a →
  Gsrc a → Gsrc a'.
Proof.
  intros Ha Hio Ht Htag Hn G. split.
  - intros s. rewrite Ha, Htag. apply (gs_child G).
  - intros s io. rewrite Hio, Htag. apply (gs_io G).
  - intros s1 s2 io. rewrite Hio. apply (gs_io_inj G).
  - intros io. rewrite Hio, Htag. apply (gs_io_all G).
  - intros t. rewrite Ht, Htag. apply (gs_timer G).
  - intros s. rewrite Htag, Hn. apply (gs_bound G).
Qed.

Lemma Ginv_calm cfg adding a a' : Ginv cfg adding a → calm a a' → Ginv cfg adding a'.
Proof.
  intros [Hs Hc Hr Ht] C. split.
  - by rewrite (cm_settings C).
  - eapply Gcurl_same; [| | | | |exact Hc]; try apply C. intros c. by rewrite (cm_active C).
  - eapply Gsrc_same; [| | | | |exact Hr]; try apply C. intros s. by rewrite (cm_active C).
  - destruct (cm_trace C) as (t & -> & Hp). by apply Gtrace_app.
Qed.

(** ** Calm steps *)

Lemma calm_same a a' :
  settings a' = settings a → active_requests_ a' = active_requests_ a →
  easies a' = easies a → next_easy a' = next_easy a →
  multi_handles a' = multi_handles a → multi_msgs a' = multi_msgs a →
  active_io_ a' = active_io_ a → timer_ a' = timer_ a →
  sources a' = sources a → next_source a' = next_source a → trace a' = trace a →
  calm a a'.
Proof.
  intros. split; try done.
  - intros s. unfold tag_of. congruence.
  - exists []. by rewrite app_nil_r.
Qed.

Lemma handler_step_calm a a' : handler_step a a' → calm a a'.
Proof.
  intros [F (t & Ht & Hp)]. unfold engine_frame in F. split; try congruence.
  - unfold settings. congruence.
  - intros s. unfold tag_of. congruence.
  - exists t. split; [done|]. eapply Forall_impl; [done|]. by intros [].
Qed.

Lemma calm_log o a : plain_obs o → calm a (log o a).
Proof. intros Ho. split; try done. exists [o]. split; [done|]. by constructor. Qed.

Lemma calm_new_handler hd a : calm a (new_handler hd a).
Proof. by apply calm_same. Qed.

Lemma calm_set_translate_fds f a : calm a (set_translate_fds f a).
Proof. by apply calm_same. Qed.

Lemma calm_set_exit requested code fin a : calm a (set_exit requested code fin a).
Proof. by apply calm_same. Qed.

Lemma calm_sd_event_exit code a : calm a (sd_event_exit code a).1.
Proof. unfold sd_event_exit. destruct (finished a); [done|apply calm_set_exit]. Qed.

Lemma calm_retag s src src' a :
  sources a !! s = Some src → source_tag src' = source_tag src →
  calm a (set_sources <[s := src']> a).
Proof.
  intros Hs Ht. split; try done.
  - intros s'. unfold tag_of. simpl. destruct (decide (s' = s)) as [->|Hne].
    + rewrite lookup_insert_eq, Hs. simpl. by rewrite Ht.
    + by rewrite lookup_insert_ne.
  - exists []. by rewrite app_nil_r.
Qed.

Lemma calm_sd_event_source_set_enabled s m a :
  is_Some (sources a !! s) → calm a (sd_event_source_set_enabled s m a).1.
Proof.
  intros [src Hs]. unfold sd_event_source_set_enabled. rewrite Hs. simpl.
  by eapply calm_retag.
Qed.

Lemma calm_sd_event_source_set_time s usec a :
  is_Some (sources a !! s) → calm a (sd_event_source_set_time s usec a).1.
Proof.
  intros [src Hs]. unfold sd_event_source_set_time. rewrite Hs.
  destruct (src_kind src) eqn:K; simpl; try done.
  eapply calm_retag; [done|]. unfold source_tag. by rewrite K.
Qed.

Lemma tag_of_is_Some a s : is_Some (tag_of a s) ↔ is_Some (sources a !! s).
Proof. unfold tag_of. by rewrite fmap_is_Some. Qed.

Lemma tag_of_Some a s tag : tag_of a s = Some tag → is_Some (sources a !! s).
Proof. intros H. apply tag_of_is_Some. by rewrite H. Qed.

(** ** Steps that create or release an event source *)

Lemma Gsrc_fresh a : Gsrc a → tag_of a (next_source a) = None.
Proof.
  intros G. destruct (tag_of a (next_source a)) eqn:E; [|done].
  assert (next_source a < next_source a)%nat by (apply (gs_bound G); eauto). lia.
Qed.

(** A new source that is no child watch and no timer, entered into
    [active_io_] for a socket that has none. *)
Lemma Gsrc_add_io a a' s :
  Gsrc a → active_io_ a !! s = None →
  active_requests_ a' = active_requests_ a →
  active_io_ a' = <[s := next_source a]> (active_io_ a) →
  timer_ a' = timer_ a →
  (∀ s', tag_of a' s' = if decide (s' = next_source a) then Some TagIO else tag_of a s') →
  next_source a' = S (next_source a) →
  Gsrc a'.
Proof.
  intros G Hs Ha Hio Ht Htag Hn. pose proof (Gsrc_fresh a G) as Hf.
  assert (Hem : ∀ s', active_io_ a' !! s' =
                      if decide (s' = s) then Some (next_source a) else active_io_ a !! s').
  { intros s'. rewrite Hio. case_decide; subst.
    - apply lookup_insert_eq.
    - by apply lookup_insert_ne. }
  split.
  - intros s'. rewrite Ha, Htag. case_decide; [subst|apply (gs_child G)].
    rewrite (gs_child G), Hf. done.
  - intros s' io. rewrite Hem, Htag. case_decide.
    + intros [= <-]. by rewrite decide_True.
    + intros Hio'. pose proof (gs_io G _ _ Hio') as Ht'. rewrite decide_False; [done|].
      intros ->. congruence.
  - intros s1 s2 io. rewrite !Hem. repeat case_decide; subst; try done.
    + intros [= <-] Hio'. pose proof (gs_io G _ _ Hio'). congruence.
    + intros Hio' [= <-]. pose proof (gs_io G _ _ Hio'). congruence.
    + apply (gs_io_inj G).
  - intros io. rewrite Htag. case_decide; subst.
    + intros _. exists s. by rewrite Hem, decide_True.
    + intros Ht'. destruct (gs_io_all G _ Ht') as [s' Hs']. exists s'.
      rewrite Hem, decide_False; [done|]. intros ->. congruence.
  - intros t. rewrite Htag, Ht. case_decide; [subst|apply (gs_timer G)].
    split; [done|]. intros Ht'. apply (gs_timer G) in Ht'. congruence.
  - intros s'. rewrite Htag, Hn. case_decide; [subst; lia|].
    intros Ht'. apply (gs_bound G) in Ht'. lia.
Qed.

(** The release of the I/O source of a socket, both dropped from
    [active_io_]. *)
Lemma Gsrc_remove_io a a' s io :
  Gsrc a → active_io_ a !! s = Some io →
  active_requests_ a' = active_requests_ a →
  active_io_ a' = delete s (active_io_ a) →
  timer_ a' = timer_ a →
  (∀ s', tag_of a' s' = if decide (s' = io) then None else tag_of a s') →
  next_source a' = next_source a →
  Gsrc a'.
Proof.
  intros G Hs Ha Hio' Ht Htag Hn. pose proof (gs_io G _ _ Hs) as Hio.
  split.
  - intros s'. rewrite Ha, Htag. case_decide; [subst|apply (gs_child G)].
    rewrite (gs_child G), Hio. done.
  - intros s' io'. rewrite Hio', Htag. intros [Hne Hs']%lookup_delete_Some.
    rewrite decide_False; [by apply (gs_io G _ _ Hs')|].
    intros ->. by destruct Hne; apply (gs_io_inj G _ _ _ Hs Hs').
  - intros s1 s2 io'. rewrite Hio'.
    intros [_ H1]%lookup_delete_Some [_ H2]%lookup_delete_Some.
    by apply (gs_io_inj G _ _ _ H1 H2).
  - intros io'. rewrite Htag, Hio'. case_decide; [done|].
    intros Ht'. destruct (gs_io_all G _ Ht') as [s' Hs']. exists s'.
    apply lookup_delete_Some. split; [|done]. intros <-. congruence.
  - intros t. rewrite Htag, Ht. case_decide; [subst|apply (gs_timer G)].
    split; [done|]. intros Ht'. apply (gs_timer G) in Ht'. congruence.
  - intros s'. rewrite Htag, Hn. case_decide; [by intros [? ?]|apply (gs_bound G)].
Qed.

(** The first timer. *)
Lemma Gsrc_add_timer a a' :
  Gsrc a → timer_ a = None →
  active_requests_ a' = active_requests_ a →
  active_io_ a' = active_io_ a →
  timer_ a' = Some (next_source a) →
  (∀ s', tag_of a' s' = if decide (s' = next_source a) then Some TagTime else tag_of a s') →
  next_source a' = S (next_source a) →
  Gsrc a'.
Proof.
  intros G Hnone Ha Hio Ht Htag Hn. pose proof (Gsrc_fresh a G) as Hf.
  split.
  - intros s'. rewrite Ha, Htag. case_decide; [subst|apply (gs_child G)].
    rewrite (gs_child G), Hf. done.
  - intros s' io. rewrite Hio, Htag. intros Hio'.
    pose proof (gs_io G _ _ Hio') as Ht'. rewrite decide_False; [done|].
    intros ->. congruence.
  - rewrite Hio. apply (gs_io_inj G).
  - intros io. rewrite Htag, Hio. case_decide; [done|]. apply (gs_io_all G).
  - intros t. rewrite Htag, Ht. case_decide; subst.
    + done.
    + rewrite (gs_timer G), Hnone. split; [done|]. intros [= E]. by subst.
  - intros s'. rewrite Htag, Hn. case_decide; [subst; lia|].
    intros Ht'. apply (gs_bound G) in Ht'. lia.
Qed.

(** A new child watch, entered into the Active Request Set. *)
Lemma Gsrc_add_child a a' :
  Gsrc a →
  active_requests_ a' = {[ReqSource (next_source a)]} ∪ active_requests_ a →
  active_io_ a' = active_io_ a →
  timer_ a' = timer_ a →
  (∀ s', tag_of a' s' = if decide (s' = next_source a) then Some TagChild else tag_of a s') →
  next_source a' = S (next_source a) →
  Gsrc a'.
Proof.
  intros G Ha Hio Ht Htag Hn. pose proof (Gsrc_fresh a G) as Hf.
  split.
  - intros s'. rewrite Ha, Htag, elem_of_union, elem_of_singleton.
    case_decide; subst.
    + split; [done|]. by left.
    + rewrite <-(gs_child G). split; [|by right]. intros [[= ->]|?]; done.
  - intros s' io. rewrite Hio, Htag. intros Hio'.
    pose proof (gs_io G _ _ Hio') as Ht'. rewrite decide_False; [done|].
    intros ->. congruence.
  - rewrite Hio. apply (gs_io_inj G).
  - intros io. rewrite Htag, Hio. case_decide; [done|]. apply (gs_io_all G).
  - intros t. rewrite Htag, Ht. case_decide; [subst|apply (gs_timer G)].
    split; [done|]. intros Ht'. apply (gs_timer G) in Ht'. congruence.
  - intros s'. rewrite Htag, Hn. case_decide; [subst; lia|].
    intros Ht'. apply (gs_bound G) in Ht'. lia.
Qed.

(** The release of a child watch, dropped from the Active Request Set. *)
Lemma Gsrc_release_child a a' s :
  Gsrc a → tag_of a s = Some TagChild →
  active_requests_ a' = active_requests_ a ∖ {[ReqSource s]} →
  active_io_ a' = active_io_ a →
  timer_ a' = timer_ a →
  (∀ s', tag_of a' s' = if decide (s' = s) then None else tag_of a s') →
  next_source a' = next_source a →
  Gsrc a'.
Proof.
  intros G Hs Ha Hio Ht Htag Hn. split.
  - intros s'. rewrite Ha, Htag, elem_of_difference, elem_of_singleton. case_decide; subst.
    + split; [by intros [_ []]|done].
    + rewrite <-(gs_child G). split; [by intros [? _]|].
      intros ?. split; [done|]. by intros [= ->].
  - intros s' io. rewrite Hio, Htag. intros Hio'.
    pose proof (gs_io G _ _ Hio') as Ht'. rewrite decide_False; [done|].
    intros ->. congruence.
  - rewrite Hio. apply (gs_io_inj G).
  - intros io. rewrite Htag, Hio. case_decide; [done|]. apply (gs_io_all G).
  - intros t. rewrite Htag, Ht. case_decide; [subst|apply (gs_timer G)].
    split; [done|]. intros Ht'. apply (gs_timer G) in Ht'. congruence.
  - intros s'. rewrite Htag, Hn. case_decide; [by intros [? ?]|apply (gs_bound G)].
Qed.

(** ** Steps that create or release a transfer *)

Lemma fst_filter_ne (c : nat) (l : list (nat * Z)) :
  (filter (λ m, m.1 ≠ c) l).*1 = filter (λ c', c' ≠ c) l.*1.
Proof.
  induction l as [|[c' r] l IH]; [done|].
  rewrite fmap_cons, !filter_cons. simpl. case_decide; [|done]. by rewrite fmap_cons, IH.
Qed.

Lemma Gcurl_release level adding a c :
  Gcurl level adding a →
  Gcurl level adding
    (curl_easy_cleanup c (curl_multi_remove_handle [] c
       (set_active_requests (λ s, s ∖ {[ReqCurl c]}) a))).
Proof.
  intros G. split; simpl.
  - intros c'. rewrite elem_of_difference, elem_of_singleton. intros [Hin Hne].
    rewrite lookup_delete_ne by congruence. by apply (gc_active G).
  - intros c' [Hne Hl]%lookup_delete_is_Some.
    destruct (gc_held G c' Hl) as [?|?]; [left|by right].
    rewrite elem_of_difference, elem_of_singleton. split; [done|]. by intros [= ->].
  - intros c'. rewrite elem_of_difference, elem_of_singleton, lookup_delete_is_Some.
    rewrite (gc_multi G). split; intros [? ?]; split; congruence.
  - intros c'. rewrite fst_filter_ne. intros [Hne Hin]%list_elem_of_filter.
    rewrite lookup_delete_ne by done. by apply (gc_msgs G).
  - rewrite fst_filter_ne. apply NoDup_filter, (gc_msgs_nodup G).
  - intros c' [_ Hl]%lookup_delete_is_Some. by apply (gc_bound G).
  - intros c' e [_ Hl]%lookup_delete_Some. by apply (gc_options G c').
Qed.

Lemma Gcurl_info_read level adding a m rest :
  Gcurl level adding a → multi_msgs a = m :: rest →
  Gcurl level adding (set_multi id (λ _, rest) a).
Proof.
  intros G Hm. split; simpl; try apply G.
  - intros c Hc. apply (gc_msgs G). rewrite Hm, fmap_cons. by apply list_elem_of_further.
  - pose proof (gc_msgs_nodup G) as H. rewrite Hm, fmap_cons in H. by apply NoDup_cons in H as [_
      ?].
Qed.

Lemma transfer_options_response_code level code e :
  transfer_options level e → transfer_options level (set_response_code code e).
Proof. done. Qed.

Lemma Gcurl_done level adding a c e result code :
  Gcurl level adding a → in_flight c a = Some e →
  Gcurl level adding
    (set_multi id (λ q, q ++ [(c, result)])
       (set_easies <[c := set_response_code code e]> a)).
Proof.
  intros G Hin. pose proof (in_flight_Some _ _ _ Hin) as He.
  assert (Hp : c ∉ (multi_msgs a).*1).
  { unfold in_flight, pending in Hin.
    destruct (bool_decide (c ∈ multi_handles a)); [|done]. simpl in Hin.
    destruct (bool_decide (c ∈ (multi_msgs a).*1)) eqn:Ep; [done|].
    by apply bool_decide_eq_false in Ep. }
  assert (Hl : ∀ c', is_Some (<[c := set_response_code code e]> (easies a) !! c') ↔
                     is_Some (easies a !! c')).
  { intros c'. rewrite lookup_insert_is_Some. split.
    - intros [<-|[_ ?]]; [by eauto|done].
    - intros ?. destruct (decide (c = c')); auto. }
  split; simpl.
  - intros c'. rewrite Hl. apply (gc_active G).
  - intros c'. rewrite Hl. apply (gc_held G).
  - intros c'. rewrite Hl. apply (gc_multi G).
  - intros c'. rewrite Hl, fmap_app, elem_of_app. intros [?|Hc].
    + by apply (gc_msgs G).
    + apply list_elem_of_singleton in Hc. subst. eauto.
  - rewrite fmap_app. apply NoDup_app. split; [apply (gc_msgs_nodup G)|].
    split; [|apply NoDup_singleton].
    intros c' Hc' ->%list_elem_of_singleton. done.
  - intros c'. rewrite Hl. apply (gc_bound G).
  - intros c' e'. destruct (decide (c' = c)) as [->|Hne].
    + rewrite lookup_insert_eq. intros [= <-]. apply transfer_options_response_code.
      by apply (gc_options G c).
    + rewrite lookup_insert_ne by done. apply (gc_options G).
Qed.

Lemma Gcurl_new_transfer level adding a e :
  Gcurl level adding a → transfer_options level e →
  Gcurl level ({[next_easy a]} ∪ adding)
    (set_multi (λ hs, {[next_easy a]} ∪ hs) id (new_easy e a)).
Proof.
  intros G Ho.
  assert (Hf : easies a !! next_easy a = None).
  { destruct (easies a !! next_easy a) eqn:E; [|done].
    assert (next_easy a < next_easy a)%nat by (apply (gc_bound G); eauto). lia. }
  split; simpl.
  - intros c Hc. rewrite lookup_insert_is_Some. destruct (decide (next_easy a = c)); [by left|].
    right. split; [done|]. by apply (gc_active G).
  - intros c. rewrite lookup_insert_is_Some, elem_of_union, elem_of_singleton.
    intros [<-|[_ Hl]]; [by right; left|].
    destruct (gc_held G c Hl); auto.
  - intros c. rewrite lookup_insert_is_Some, elem_of_union, elem_of_singleton, (gc_multi G).
    split.
    + intros [->|?]; [by left|]. destruct (decide (next_easy a = c)); auto.
    + intros [<-|[_ ?]]; auto.
  - intros c Hc. rewrite lookup_insert_is_Some.
    destruct (decide (next_easy a = c)); [by left|]. right. split; [done|].
    by apply (gc_msgs G).
  - apply (gc_msgs_nodup G).
  - intros c. rewrite lookup_insert_is_Some. intros [<-|[_ Hl]]; [lia|].
    apply (gc_bound G) in Hl. lia.
  - intros c e'. destruct (decide (c = next_easy a)) as [->|Hne].
    + rewrite lookup_insert_eq. by intros [= <-].
    + rewrite lookup_insert_ne by done. apply (gc_options G).
Qed.

Lemma Gcurl_activate level adding a c :
  Gcurl level ({[c]} ∪ adding) a → is_Some (easies a !! c) →
  Gcurl level adding (set_active_requests (λ s, {[ReqCurl c]} ∪ s) a).
Proof.
  intros G Hl. split; simpl; try apply G.
  - intros c'. rewrite elem_of_union, elem_of_singleton. intros [[= ->]|?]; [done|].
    by apply (gc_active G).
  - intros c' Hl'. rewrite elem_of_union, elem_of_singleton.
    destruct (gc_held G c' Hl') as [?|[->%elem_of_singleton|?]%elem_of_union]; auto.
Qed.

(** ** The callbacks libcurl calls *)

Lemma source_of_tag_io a s :
  tag_of a s = Some TagIO →
  ∃ fd events enabled,
    sources a !! s = Some {| src_kind := SrcIO fd events; src_enabled := enabled |}.
Proof.
  unfold tag_of, source_tag. destruct (sources a !! s) as [[k en]|]; [|done].
  simpl. destruct k; try done. eauto.
Qed.

Lemma source_of_tag_child a s :
  tag_of a s = Some TagChild →
  ∃ pid userdata enabled,
    sources a !! s = Some {| src_kind := SrcChild pid userdata; src_enabled := enabled |}.
Proof.
  unfold tag_of, source_tag. destruct (sources a !! s) as [[k en]|]; [|done].
  simpl. destruct k; try done. eauto.
Qed.

Lemma source_of_tag_time a s :
  tag_of a s = Some TagTime →
  ∃ usec enabled,
    sources a !! s = Some {| src_kind := SrcTime usec; src_enabled := enabled |}.
Proof.
  unfold tag_of, source_tag. destruct (sources a !! s) as [[k en]|]; [|done].
  simpl. destruct k; try done. eauto.
Qed.

Lemma SocketCallback_registers dupfd s action a :
  active_io_ a !! s = None → 0 ≤ dupfd →
  SocketCallback dupfd true s action a =
  (set_translate_fds (emplace dupfd s)
     (set_active_io (emplace s (next_source a))
        (new_source {| src_kind := SrcIO dupfd (action_to_revents action);
                       src_enabled := SD_EVENT_ON |} a)), 0).
Proof.
  intros Hio Hfd. destruct (decide (action = CURL_POLL_REMOVE)) as [->|Hact].
  - by apply SocketCallback_remove_unregistered.
  - by apply SocketCallback_add.
Qed.

Lemma Ginv_SocketCallback cfg adding dupfd add_ok s action a :
  Ginv cfg adding a → Ginv cfg adding (SocketCallback dupfd add_ok s action a).1.
Proof.
  intros I. destruct (active_io_ a !! s) as [io|] eqn:Hio.
  - destruct (source_of_tag_io a io (gs_io (gi_src I) _ _ Hio)) as (fd & ev & en & Hs).
    destruct (decide (action = CURL_POLL_REMOVE)) as [->|Hact].
    + rewrite (SocketCallback_remove_registered dupfd add_ok s a io fd ev en Hio Hs).
      destruct I as [Hset Hc Hr Ht]. split.
      * done.
      * eapply Gcurl_same; [| | | | |exact Hc]; done.
      * eapply (Gsrc_remove_io a _ s io); try done.
        intros s'. unfold tag_of. simpl. case_decide; subst.
        -- by rewrite lookup_delete_eq.
        -- by rewrite lookup_delete_ne.
      * simpl. by apply Gtrace_removal.
    + rewrite (SocketCallback_modify dupfd add_ok s action a io fd ev en Hio Hs Hact).
      eapply Ginv_calm; [done|]. by eapply calm_retag.
  - destruct (decide (dupfd < 0)) as [Hfd|Hfd].
    { rewrite SocketCallback_fails; auto. }
    destruct add_ok; [|rewrite SocketCallback_fails; auto].
    rewrite SocketCallback_registers by (done || lia).
    destruct I as [Hset Hc Hr Ht]. split.
    + done.
    + eapply Gcurl_same; [| | | | |exact Hc]; done.
    + eapply (Gsrc_add_io a _ s); try done.
      * simpl. by rewrite emplace_fresh.
      * intros s'. unfold tag_of. simpl. case_decide; subst.
        -- by rewrite lookup_insert_eq.
        -- by rewrite lookup_insert_ne.
    + done.
Qed.

Lemma Ginv_TimerCallback cfg adding now add_ok timeout_ms a :
  Ginv cfg adding a → Ginv cfg adding (TimerCallback now add_ok timeout_ms a).1.
Proof.
  intros I. unfold TimerCallback. case_match.
  - destruct (timer_ a) as [t|] eqn:Et; [|done].
    assert (Hl : is_Some (sources a !! t))
      by (eapply tag_of_Some; by apply (gs_timer (gi_src I))).
    pose proof (calm_sd_event_source_set_enabled t SD_EVENT_OFF a Hl) as C.
    destruct (sd_event_source_set_enabled t SD_EVENT_OFF a) as [a1 r]. simpl in C.
    case_match; simpl; by eapply Ginv_calm.
  - destruct (timer_ a) as [t|] eqn:Et.
    + assert (Ht : tag_of a t = Some TagTime) by (by apply (gs_timer (gi_src I))).
      pose proof (calm_sd_event_source_set_time t
                    (to_uint64 (TimepointTo_usec (steady_clock_plus_ms now timeout_ms))) a
                    (tag_of_Some _ _ _ Ht)) as C1.
      destruct (sd_event_source_set_time t _ a) as [a1 r1]. simpl in C1.
      case_match; simpl; [by eapply Ginv_calm|].
      assert (Hl1 : is_Some (sources a1 !! t)).
      { eapply tag_of_Some. by rewrite (cm_tags C1). }
      pose proof (calm_sd_event_source_set_enabled t SD_EVENT_ONESHOT a1 Hl1) as C2.
      destruct (sd_event_source_set_enabled t _ a1) as [a2 r2]. simpl in C2.
      assert (calm a a2) by (by etrans).
      case_match; simpl; by eapply Ginv_calm.
    + unfold sd_event_add_time. destruct add_ok; simpl; [|done].
      destruct I as [Hset Hc Hr Htr]. split.
      * done.
      * eapply Gcurl_same; [| | | | |exact Hc]; done.
      * eapply (Gsrc_add_timer a); try done.
        intros s'. unfold tag_of. simpl. case_decide; subst.
        -- by rewrite lookup_insert_eq.
        -- by rewrite lookup_insert_ne.
      * done.
Qed.

Lemma Ginv_notified cfg adding ns a : Ginv cfg adding a → Ginv cfg adding (notified ns a).
Proof.
  unfold notified. revert a. induction ns as [|n ns IH]; intros a I; simpl; [done|].
  apply IH. destruct n; simpl; [by apply Ginv_SocketCallback|by apply Ginv_TimerCallback].
Qed.

(** ** [FinishRequest], [Cancel], [CancelAll], [CheckFinished] *)

Lemma Ginv_release_curl cfg adding a c :
  Ginv cfg adding a →
  Ginv cfg adding
    (curl_easy_cleanup c (curl_multi_remove_handle [] c
       (set_active_requests (λ s, s ∖ {[ReqCurl c]}) a))).
Proof.
  intros [Hs Hc Hr Ht]. split; [done|by apply Gcurl_release| |done].
  eapply Gsrc_same; [| | | | |exact Hr]; try done.
  intros s. simpl. rewrite elem_of_difference, elem_of_singleton.
  split; [by intros [? _]|]. intros ?. split; [done|]. by intros [=].
Qed.

Lemma Ginv_FinishRequest_curl on_remove curl_easy_strerror cfg adding c result dispatch a :
  Ginv cfg adding a → is_Some (easies a !! c) →
  Ginv cfg adding (FinishRequest_curl on_remove curl_easy_strerror c result dispatch a).1.
Proof.
  intros I [e He].
  destruct (FinishRequest_curl_shape on_remove curl_easy_strerror c e result dispatch a He)
    as (a1 & S1 & ->).
  apply Ginv_notified, Ginv_release_curl.
  eapply Ginv_calm; [done|by apply handler_step_calm].
Qed.

Lemma Ginv_FinishRequest_source cfg adding s a :
  Ginv cfg adding a → tag_of a s = Some TagChild →
  Ginv cfg adding (FinishRequest_source s a).1.
Proof.
  intros I Ht. unfold FinishRequest_source, sd_event_source_unref. simpl.
  destruct (tag_of_Some _ _ _ Ht) as [src Hs]. rewrite Hs.
  destruct I as [Hset Hc Hr Htr]. split; [done| | |done].
  - eapply Gcurl_same; [| | | | |exact Hc]; try done.
    intros c. simpl. rewrite elem_of_difference, elem_of_singleton.
    split; [by intros [? _]|]. intros ?. split; [done|]. by intros [=].
  - eapply (Gsrc_release_child a _ s); try done.
    intros s'. unfold tag_of. simpl. case_decide; subst.
    + by rewrite lookup_delete_eq.
    + by rewrite lookup_delete_ne.
Qed.

Lemma Ginv_Cancel on_remove curl_easy_strerror cfg adding request a :
  Ginv cfg adding a → request ∈ active_requests_ a →
  Ginv cfg adding (Cancel on_remove curl_easy_strerror request a).
Proof.
  intros I Hr. destruct request as [c|s]; simpl.
  - apply Ginv_FinishRequest_curl; [done|]. by apply (gc_active (gi_curl I)).
  - apply Ginv_FinishRequest_source; [done|]. by apply (gs_child (gi_src I)).
Qed.

Lemma Ginv_CancelAll_loop on_remove curl_easy_strerror cfg adding fuel a a' :
  Ginv cfg adding a → CancelAll_loop on_remove curl_easy_strerror fuel a = Some a' →
  Ginv cfg adding a'.
Proof.
  revert a. induction fuel as [|fuel IH]; intros a I; simpl;
    destruct (head (elements (active_requests_ a))) as [r|] eqn:E; simpl;
    try discriminate; try (by intros [= <-]).
  apply IH. apply Ginv_Cancel; [done|]. by apply head_elements_Some.
Qed.

Lemma Ginv_CancelAll on_remove curl_easy_strerror cfg adding a :
  Ginv cfg adding a → Ginv cfg adding (CancelAll on_remove curl_easy_strerror a).
Proof.
  intros I. unfold CancelAll.
  destruct (CancelAll_loop_total on_remove curl_easy_strerror (size (active_requests_ a)) a)
    as (a' & Ha' & He); [done|].
  rewrite Ha'. simpl. eapply Ginv_calm; [by eapply Ginv_CancelAll_loop|].
  apply calm_sd_event_exit.
Qed.

Lemma Ginv_info_read cfg adding a m rest :
  Ginv cfg adding a → multi_msgs a = m :: rest →
  Ginv cfg adding (set_multi id (λ _, rest) a).
Proof.
  intros [Hs Hc Hr Ht] Hm. split; [done|by eapply Gcurl_info_read| |done].
  eapply Gsrc_same; [| | | | |exact Hr]; done.
Qed.

Lemma Ginv_CheckFinished_loop on_remove curl_easy_strerror cfg adding fuel a a' r :
  Ginv cfg adding a → CheckFinished_loop on_remove curl_easy_strerror fuel a = Some (a', r) →
  Ginv cfg adding a'.
Proof.
  revert a. induction fuel as [|fuel IH]; intros a I; simpl; unfold curl_multi_info_read;
    destruct (multi_msgs a) as [|[c result] rest] eqn:Hm; try discriminate;
    try (by intros [= <- <-]).
  pose proof (Ginv_info_read _ _ _ _ _ I Hm) as I1.
  assert (Hl : is_Some (easies a !! c)).
  { apply (gc_msgs (gi_curl I)). rewrite Hm, fmap_cons. apply list_elem_of_here. }
  pose proof (Ginv_FinishRequest_curl on_remove curl_easy_strerror _ _ c result true _ I1 Hl) as I2.
  destruct (FinishRequest_curl _ _ c result true _) as [a1 r1]. simpl in I2.
  case_match.
  - intros [= <- <-]. by apply Ginv_CancelAll.
  - intros Hloop. by eapply IH.
Qed.

Lemma Ginv_CheckFinished on_remove curl_easy_strerror cfg adding a :
  Ginv cfg adding a → Ginv cfg adding (CheckFinished on_remove curl_easy_strerror a).1.
Proof.
  intros I. unfold CheckFinished.
  destruct (CheckFinished_loop _ _ _ a) as [[a' r]|] eqn:E; [|done].
  by eapply Ginv_CheckFinished_loop.
Qed.

(** ** libcurl at work *)

Lemma Ginv_debug_write cfg adding data a :
  Ginv cfg adding a → cfg.1.2 = DEBUG_REQUESTS →
  Ginv cfg adding (log (ObsDebugWrite data) a).
Proof.
  intros [Hs Hc Hr Ht] Hl. split; [done| | |].
  - eapply Gcurl_same; [| | | | |exact Hc]; done.
  - eapply Gsrc_same; [| | | | |exact Hr]; done.
  - simpl. rewrite Hl in *. by apply Gtrace_debug_write.
Qed.

Lemma Ginv_curl_act cfg adding act a :
  Ginv cfg adding a → Ginv cfg adding (curl_act act a).
Proof.
  intros I. destruct act; simpl.
  - by apply Ginv_SocketCallback.
  - by apply Ginv_TimerCallback.
  - destruct (in_flight c a) as [e|]; [|done].
    eapply Ginv_calm; [done|]. apply handler_step_calm, handler_step_BodyCallback.
  - destruct (in_flight c a) as [e|] eqn:Hin; [|done].
    destruct (opt_debugfunction e) eqn:Hd; [|done].
    unfold DebugCallback. case_decide; [done|].
    apply Ginv_debug_write; [done|].
    destruct (gc_options (gi_curl I) c e (in_flight_Some _ _ _ Hin)) as (_ & _ & _ & Ho & _).
    rewrite Hd in Ho. by destruct (cfg.1.2).
  - destruct (in_flight c a) as [e|]; [|done].
    eapply Ginv_calm; [done|]. apply handler_step_calm, handler_step_write_error_buffer.
  - destruct (in_flight c a) as [e|] eqn:Hin; [|done].
    destruct I as [Hs Hc Hr Ht]. split; [done|by apply Gcurl_done| |done].
    eapply Gsrc_same; [| | | | |exact Hr]; done.
Qed.

Lemma Ginv_curl_acts cfg adding l a :
  Ginv cfg adding a → Ginv cfg adding (foldl (λ a act, curl_act act a) a l).
Proof.
  revert a. induction l as [|act l IH]; intros a I; simpl; [done|].
  by apply IH, Ginv_curl_act.
Qed.

Lemma Ginv_OnCurlIO on_remove curl_easy_strerror cfg adding reaction fd revents a :
  Ginv cfg adding a →
  Ginv cfg adding (OnCurlIO on_remove curl_easy_strerror reaction fd revents a).1.
Proof.
  intros I. unfold OnCurlIO, curl_multi_socket_action. cbv zeta.
  set (r := reaction _ _).
  assert (I1 : Ginv cfg adding (foldl (λ a act, curl_act act a)
                                  (set_translate_fds (emplace fd 0) a) (acts r))).
  { apply Ginv_curl_acts. eapply Ginv_calm; [done|apply calm_set_translate_fds]. }
  case_decide; [done|]. by apply Ginv_CheckFinished.
Qed.

Lemma Ginv_OnCurlTimer on_remove curl_easy_strerror cfg adding reaction a :
  Ginv cfg adding a → Ginv cfg adding (OnCurlTimer on_remove curl_easy_strerror reaction a).1.
Proof.
  intros I. unfold OnCurlTimer, curl_multi_socket_action. cbv zeta.
  set (r := reaction _ _).
  pose proof (Ginv_curl_acts _ _ (acts r) a I) as I1.
  case_decide; [done|]. by apply Ginv_CheckFinished.
Qed.

Lemma Ginv_OnCloneExit cfg adding s si_status h a :
  Ginv cfg adding a → tag_of a s = Some TagChild →
  Ginv cfg adding (OnCloneExit s si_status h a).1.
Proof.
  intros I Ht. unfold OnCloneExit.
  pose proof (handler_step_calm _ _ (handler_step_handler_aur h a)) as C1.
  eapply Ginv_calm; [|apply handler_step_calm, handler_step_RunCallback].
  apply Ginv_FinishRequest_source; [by eapply Ginv_calm|]. by rewrite (cm_tags C1).
Qed.

(** ** The reactor *)

Lemma calm_oneshot_off s en a : is_Some (sources a !! s) → calm a (oneshot_off s en a).
Proof.
  intros Hl. unfold oneshot_off. case_decide; [|done].
  by apply calm_sd_event_source_set_enabled.
Qed.

Lemma calm_after_dispatch s r a : calm a (after_dispatch s r a).
Proof.
  unfold after_dispatch. case_match; [|done].
  destruct (sources a !! s) eqn:E; [|done].
  apply calm_sd_event_source_set_enabled. eauto.
Qed.

Lemma Ginv_sd_event_dispatch on_remove curl_easy_strerror cfg adding ev a :
  Ginv cfg adding a → Ginv cfg adding (sd_event_dispatch on_remove curl_easy_strerror ev a).1.
Proof.
  intros I. destruct ev as [|errno|s revents reaction|s reaction|s si_status]; simpl;
    try done.
  - destruct (sources a !! s) as [[[fd ev| |] en]|] eqn:Hs; try done.
    case_decide; [done|].
    pose proof (calm_oneshot_off s en a ltac:(eauto)) as C1.
    pose proof (Ginv_OnCurlIO on_remove curl_easy_strerror _ _ reaction fd revents _
                  (Ginv_calm _ _ _ _ I C1)) as I2.
    destruct (OnCurlIO _ _ reaction fd revents _) as [a2 r2]. simpl in *.
    eapply Ginv_calm; [done|apply calm_after_dispatch].
  - destruct (sources a !! s) as [[[|usec|] en]|] eqn:Hs; try done.
    case_decide; [done|].
    pose proof (calm_oneshot_off s en a ltac:(eauto)) as C1.
    pose proof (Ginv_OnCurlTimer on_remove curl_easy_strerror _ _ reaction _
                  (Ginv_calm _ _ _ _ I C1)) as I2.
    destruct (OnCurlTimer _ _ reaction _) as [a2 r2]. simpl in *.
    eapply Ginv_calm; [done|apply calm_after_dispatch].
  - destruct (sources a !! s) as [[[| |pid userdata] en]|] eqn:Hs; try done.
    case_decide; [done|].
    pose proof (calm_oneshot_off s en a ltac:(eauto)) as C1.
    assert (Ht : tag_of (oneshot_off s en a) s = Some TagChild).
    { rewrite (cm_tags C1). unfold tag_of. by rewrite Hs. }
    pose proof (Ginv_OnCloneExit _ _ s si_status userdata _
                  (Ginv_calm _ _ _ _ I C1) Ht) as I2.
    destruct (OnCloneExit s si_status userdata _) as [a2 r2]. simpl in *.
    eapply Ginv_calm; [done|apply calm_after_dispatch].
Qed.

Lemma Ginv_sd_event_run on_remove curl_easy_strerror cfg adding script a a' r rest :
  Ginv cfg adding a → sd_event_run on_remove curl_easy_strerror script a = Some (a', r, rest) →
  Ginv cfg adding a'.
Proof.
  intros I. unfold sd_event_run. destruct (finished a); [by intros [= <- <- <-]|].
  destruct (exit_requested a).
  - intros [= <- <- <-]. eapply Ginv_calm; [done|apply calm_set_exit].
  - destruct script as [|ev script]; [done|].
    pose proof (Ginv_sd_event_dispatch on_remove curl_easy_strerror _ _ ev a I) as I2.
    destruct (sd_event_dispatch _ _ ev a) as [a2 r2]. by intros [= <- <- <-].
Qed.

Lemma Ginv_Wait_loop on_remove curl_easy_strerror cfg adding fuel script a a' rest b :
  Ginv cfg adding a → Wait_loop on_remove curl_easy_strerror fuel script a = Some (a', rest, b) →
  Ginv cfg adding a'.
Proof.
  revert script a. induction fuel as [|fuel IH]; intros script a I; simpl;
    (case_decide; [by intros [= <- <- <-]|]); [done|].
  destruct (sd_event_run _ _ script a) as [[[a2 r2] rest2]|] eqn:Er;
    [|by intros [= <- <- <-]].
  pose proof (Ginv_sd_event_run _ _ _ _ _ _ _ _ _ I Er) as I2.
  case_match; [by intros [= <- <- <-]|]. by apply IH.
Qed.

Lemma Ginv_Wait on_remove curl_easy_strerror cfg adding script a :
  Ginv cfg adding a → Ginv cfg adding (Wait on_remove curl_easy_strerror script a).1.1.
Proof.
  intros I. unfold Wait.
  destruct (Wait_loop _ _ _ script a) as [[[a' rest] []]|] eqn:E; simpl; try done;
    by eapply Ginv_Wait_loop.
Qed.

(** ** Submission *)

Lemma Ginv_QueueHttpRequest_body cfg traits libcurl callback a url :
  kEncoding traits = "" ∨ kEncoding traits = "identity" →
  Ginv cfg ∅ a → Ginv cfg ∅ (QueueHttpRequest_body traits libcurl callback a url).
Proof.
  intros Henc I. unfold QueueHttpRequest_body, curl_multi_add_handle.
  set (hd := {| body := ""; error_buffer := ""; htype := ResponseHandlerType traits;
                callback_ := callback |}).
  set (e := {| opt_url := url; opt_writedata := next_handler a |}).
  pose proof (Ginv_calm _ _ _ _ I (calm_new_handler hd a))
    as I1.
  assert (I2 : Ginv cfg ({[next_easy a]} ∪ ∅)
                 (set_multi (λ hs, {[next_easy a]} ∪ hs) id (new_easy e (new_handler hd a)))).
  { destruct I1 as [Hs Hc Hr Ht]. split; [done| | |done].
    - apply (Gcurl_new_transfer _ _ (new_handler hd a) e Hc).
      assert (Hl : debug_level_ a = cfg.1.2) by (by rewrite <-Hs).
      subst e. unfold transfer_options. simpl. rewrite Hl. by destruct (cfg.1.2).
    - eapply Gsrc_same; [| | | | |exact Hr]; done. }
  match goal with |- context [foldl ?f ?b ?l] =>
    pose proof (Ginv_curl_acts _ _ l b I2) as I3;
    pose proof (steady_curl_acts l b) as S; set (a3 := foldl f b l) in *; clearbody a3 end.
  destruct I3 as [Hs Hc Hr Ht]. split; [done| | |done].
  - apply Gcurl_activate.
    + exact Hc.
    + destruct (st_easies S (next_easy a) e) as (e' & -> & _); [|by eauto].
      simpl. apply lookup_insert_eq.
  - eapply Gsrc_same; [| | | | |exact Hr]; try done.
    intros s. simpl. rewrite elem_of_union, elem_of_singleton.
    split; [by intros [[=]|?]|by right].
Qed.

Lemma Ginv_QueueHttpRequest cfg traits libcurl request callback a :
  kEncoding traits = "" ∨ kEncoding traits = "identity" →
  Ginv cfg ∅ a → Ginv cfg ∅ (QueueHttpRequest traits libcurl request callback a).
Proof.
  intros Henc. unfold QueueHttpRequest. generalize (Build request (baseurl_ a)). intros l.
  revert a. induction l as [|url l IH]; intros a I; simpl; [done|].
  by apply IH, Ginv_QueueHttpRequest_body.
Qed.

Lemma Ginv_QueueCloneRequest strerror cfg adding os request callback a :
  Ginv cfg adding a → Ginv cfg adding (QueueCloneRequest strerror os request callback a).
Proof.
  intros I. unfold QueueCloneRequest.
  set (hd := {| body := ""; error_buffer := "" |}).
  pose proof (Ginv_calm _ _ _ _ I (calm_new_handler hd a))
    as I1.
  destruct (fork os) as [errno|pid].
  - eapply Ginv_calm; [done|]. apply handler_step_calm, handler_step_RunCallback.
  - set (o := ObsExec pid _).
    pose proof (Ginv_calm _ _ _ _ I1 (calm_log o _ Logic.I)) as [Hs Hc Hr Ht].
    unfold sd_event_add_child. split; [done| | |done].
    + eapply Gcurl_same; [| | | | |exact Hc]; try done.
      intros c. simpl. rewrite elem_of_union, elem_of_singleton.
      split; [by intros [[=]|?]|by right].
    + eapply (Gsrc_add_child _ _ Hr); try done.
      intros s'. unfold tag_of. simpl. case_decide; subst.
      * by rewrite lookup_insert_eq.
      * by rewrite lookup_insert_ne.
Qed.

(** ** Runs *)

Lemma Ginv_call on_remove curl_easy_strerror strerror cfg c a :
  Ginv cfg ∅ a → Ginv cfg ∅ (call on_remove curl_easy_strerror strerror c a).
Proof.
  intros I. destruct c; simpl.
  - apply Ginv_QueueHttpRequest; [by left|done].
  - apply Ginv_QueueHttpRequest; [by left|done].
  - apply Ginv_QueueHttpRequest; [by right|done].
  - by apply Ginv_QueueCloneRequest.
  - by apply Ginv_CancelAll.
  - by apply Ginv_Wait.
Qed.

Lemma Ginv_run on_remove curl_easy_strerror strerror cfg calls a :
  Ginv cfg ∅ a → Ginv cfg ∅ (run on_remove curl_easy_strerror strerror calls a).
Proof.
  unfold run. revert a. induction calls as [|c calls IH]; intros a I; simpl; [done|].
  apply IH. by apply Ginv_call.
Qed.

Lemma Ginv_Aur_new baseurl debug :
  Ginv (settings (Aur_new baseurl debug)) ∅ (Aur_new baseurl debug).
Proof.
  unfold Aur_new.
  destruct (match ConsumePrefix debug "requests:" with
            | Some path => (DEBUG_REQUESTS, Some path)
            | None => if decide (debug ≠ "") then (DEBUG_VERBOSE_STDERR, None)
                      else (DEBUG_NONE, None)
            end) as [level stream].
  split; [done| | |done].
  - split; simpl.
    + intros c Hc. by apply elem_of_empty in Hc.
    + intros c [? Hc]. by rewrite lookup_empty in Hc.
    + intros c. rewrite lookup_empty. split; [by intros ?%elem_of_empty|by intros [? ?]].
    + intros c Hc. by apply elem_of_nil in Hc.
    + constructor.
    + intros c [? Hc]. by rewrite lookup_empty in Hc.
    + intros c e Hc. by rewrite lookup_empty in Hc.
  - split; unfold tag_of; simpl.
    + intros s. rewrite lookup_empty. split; [by intros ?%elem_of_empty|done].
    + intros s io Hio. by rewrite lookup_empty in Hio.
    + intros s1 s2 io Hio. by rewrite lookup_empty in Hio.
    + intros io. by rewrite lookup_empty.
    + intros t. by rewrite lookup_empty.
    + intros s. rewrite lookup_empty. by intros [? ?].
Qed.

Lemma Ginv_reachable on_remove curl_easy_strerror strerror baseurl debug calls :
  Ginv (settings (Aur_new baseurl debug)) ∅
    (run on_remove curl_easy_strerror strerror calls (Aur_new baseurl debug)).
Proof. apply Ginv_run, Ginv_Aur_new. Qed.

(** ** What holds after every run *)

Lemma faults_follow_close_lookup b t i s :
  faults_follow_close b t → t !! i = Some (ObsSourceFault s) →
  match i with
  | O => b = true
  | S j => ∃ fd, t !! j = Some (ObsClose fd)
  end.
Proof.
  revert b i. induction t as [|o t IH]; intros b i H Hi; [by rewrite lookup_nil in Hi|].
  destruct i as [|j].
  - simpl in Hi. injection Hi as ->. by destruct H.
  - simpl in Hi.
    assert (∃ b', faults_follow_close b' t ∧ (b' = true → ∃ fd, o = ObsClose fd))
      as (b' & H' & Hb').
    { destruct o; simpl in H;
        try (by exists false; split; [done|discriminate]).
      - exists false. split; [apply H|discriminate].
      - exists true. split; [done|]. eauto. }
    specialize (IH b' j H' Hi). destruct j as [|k].
    + destruct (Hb' IH) as [fd ->]. by exists fd.
    + exact IH.
Qed.

(** X11.  After every run the Active Request Set is an exact account of
    what the engine holds: its transfers are the handles in the multi
    handle and the easy handles that exist, its process requests are the
    child watches registered with the reactor, every member points to a
    live handler of its own, libcurl's completion messages name active
    transfers, and [FinishRequest] has never been given a handle that was
    cleaned up. *)
Theorem active_requests_are_the_held_resources
    on_remove curl_easy_strerror strerror baseurl debug calls :
  let a := run on_remove curl_easy_strerror strerror calls (Aur_new baseurl debug) in
  (∀ c, ReqCurl c ∈ active_requests_ a ↔ c ∈ multi_handles a) ∧
  (∀ c, ReqCurl c ∈ active_requests_ a ↔ is_Some (easies a !! c)) ∧
  (∀ s, ReqSource s ∈ active_requests_ a ↔
        ∃ pid userdata enabled,
          sources a !! s = Some {| src_kind := SrcChild pid userdata;
                                   src_enabled := enabled |}) ∧
  (∀ r, r ∈ active_requests_ a →
        ∃ h, handler_of a r = Some h ∧ is_Some (heap a !! h)) ∧
  (∀ r1 r2 h, handler_of a r1 = Some h → handler_of a r2 = Some h → r1 = r2) ∧
  (∀ c, c ∈ (multi_msgs a).*1 → ReqCurl c ∈ active_requests_ a) ∧
  curl_faults (trace a) = [].
Proof.
  intros a.
  pose proof (Ginv_reachable on_remove curl_easy_strerror strerror baseurl debug calls) as G.
  pose proof (Hinv_run on_remove curl_easy_strerror strerror _ _ calls _ (Hinv_Aur_new baseurl
      debug))
    as I.
  fold a in G, I. destruct G as [_ Gc Gs Gt].
  assert (Hact : ∀ c, ReqCurl c ∈ active_requests_ a ↔ is_Some (easies a !! c)).
  { intros c. split; [apply (gc_active Gc)|].
    intros Hl. destruct (gc_held Gc c Hl) as [?|Hc]; [done|]. by apply elem_of_empty in Hc. }
  assert (Hchild : ∀ s, ReqSource s ∈ active_requests_ a ↔
        ∃ pid userdata enabled,
          sources a !! s = Some {| src_kind := SrcChild pid userdata;
                                   src_enabled := enabled |}).
  { intros s. rewrite (gs_child Gs). split; [apply source_of_tag_child|].
    intros (pid & ud & en & Hs). unfold tag_of. by rewrite Hs. }
  split; [|split; [done|split; [done|split; [|split; [apply (hi_inj I)|split]]]]].
  - intros c. by rewrite Hact, (gc_multi Gc).
  - intros r Hr.
    assert (∃ h, handler_of a r = Some h) as [h Hh].
    { destruct r as [c|s]; simpl.
      - apply Hact in Hr as [e He]. unfold easy_handler. rewrite He. by eexists.
      - apply Hchild in Hr as (pid & ud & en & Hs). unfold child_handler. rewrite Hs.
        by eexists. }
    exists h. split; [done|]. by apply (hi_live I r).
  - intros c Hc. apply Hact. by apply (gc_msgs Gc).
  - apply (gt_curl_faults Gt).
Qed.

(** X12.  After every run every registered event source is accounted for
    by a member of the engine: a time source is [timer_] (so there is at
    most one), an I/O source is the entry of exactly one socket in
    [active_io_], a child watch is in the Active Request Set; and
    [active_io_] and [timer_] name registered sources of their kind. *)
Theorem event_sources_are_accounted_for
    on_remove curl_easy_strerror strerror baseurl debug calls :
  let a := run on_remove curl_easy_strerror strerror calls (Aur_new baseurl debug) in
  (∀ s src, sources a !! s = Some src →
     match src_kind src with
     | SrcIO _ _ =>
         ∃ sock, active_io_ a !! sock = Some s ∧
                 ∀ sock', active_io_ a !! sock' = Some s → sock' = sock
     | SrcTime _ => timer_ a = Some s
     | SrcChild _ _ => ReqSource s ∈ active_requests_ a
     end) ∧
  (∀ sock io, active_io_ a !! sock = Some io →
     ∃ fd events enabled,
       sources a !! io = Some {| src_kind := SrcIO fd events; src_enabled := enabled |}) ∧
  (∀ t, timer_ a = Some t →
     ∃ usec enabled,
       sources a !! t = Some {| src_kind := SrcTime usec; src_enabled := enabled |}).
Proof.
  intros a.
  pose proof (Ginv_reachable on_remove curl_easy_strerror strerror baseurl debug calls) as G.
  fold a in G. destruct G as [_ _ Gs _].
  split; [|split].
  - intros s src Hs.
    assert (Ht : tag_of a s = Some (source_tag src)) by (unfold tag_of; by rewrite Hs).
    unfold source_tag in Ht. destruct (src_kind src).
    + destruct (gs_io_all Gs s Ht) as [sock Hsock]. exists sock. split; [done|].
      intros sock' Hsock'. by apply (gs_io_inj Gs _ _ _ Hsock' Hsock).
    + by apply (gs_timer Gs).
    + by apply (gs_child Gs).
  - intros sock io Hio. by apply source_of_tag_io, (gs_io Gs sock).
  - intros t Ht. by apply source_of_tag_time, (gs_timer Gs).
Qed.

(** X13.  In every run a use of an event source after its release is
    logged directly after the close of a descriptor: it is the one made
    by [SocketCallback] when it goes on after a removal, and no other
    place of the log holds such a use. *)
Theorem released_source_used_only_after_close
    on_remove curl_easy_strerror strerror baseurl debug calls i s :
  let a := run on_remove curl_easy_strerror strerror calls (Aur_new baseurl debug) in
  trace a !! i = Some (ObsSourceFault s) →
  ∃ j fd, i = S j ∧ trace a !! j = Some (ObsClose fd).
Proof.
  intros a Hi.
  pose proof (Ginv_reachable on_remove curl_easy_strerror strerror baseurl debug calls) as G.
  fold a in G. destruct G as [_ _ _ Gt].
  pose proof (faults_follow_close_lookup _ _ _ _ (gt_source_faults Gt) Hi) as H.
  destruct i as [|j]; [done|]. destruct H as [fd H]. by exists j, fd.
Qed.

Lemma released_source_used_only_after_close_witness :
  let a := run example_removal example_curl_strerror example_strerror example_calls_removal
             (Aur_new example_baseurl "") in
  trace a !! 1%nat = Some (ObsSourceFault 0) ∧
  ∃ j fd, 1%nat = S j ∧ trace a !! j = Some (ObsClose fd).
Proof.
  split; [reflexivity|].
  apply (released_source_used_only_after_close example_removal example_curl_strerror
      example_strerror
           example_baseurl "" example_calls_removal 1 0).
  reflexivity.
Defined.

(** X14.  What the constructor fixed stays fixed through every run: the
    base URL, the debug level and the debug stream.  Every transfer
    carries a connection timeout of 10 seconds, the user agent
    "Auracle/0", one of the two encodings, libcurl's verbose flag exactly
    when a debug level is set and the debug function exactly at the level
    that logs requests.  The debug stream is written to only when
    AURACLE_DEBUG begins with "requests:". *)
Theorem settings_are_fixed_at_construction
    on_remove curl_easy_strerror strerror baseurl debug calls :
  let a0 := Aur_new baseurl debug in
  let a := run on_remove curl_easy_strerror strerror calls a0 in
  baseurl_ a = baseurl ∧ debug_level_ a = debug_level_ a0 ∧
  debug_stream_ a = debug_stream_ a0 ∧
  (∀ c e, easies a !! c = Some e →
     opt_connecttimeout e = 10 ∧ opt_useragent e = "Auracle/0" ∧
     opt_verbose e = match debug_level_ a0 with DEBUG_NONE => false | _ => true end ∧
     opt_debugfunction e = match debug_level_ a0 with DEBUG_REQUESTS => true | _ => false end ∧
     (opt_accept_encoding e = "" ∨ opt_accept_encoding e = "identity")) ∧
  (debug_writes (trace a) = [] ∨ ∃ path, debug = "requests:" +:+ path).
Proof.
  intros a0 a.
  pose proof (Ginv_reachable on_remove curl_easy_strerror strerror baseurl debug calls) as G.
  fold a0 in G. fold a in G. destruct G as [Hs Gc _ Gt].
  unfold settings in Hs. injection Hs as Hb Hl Hst.
  assert (Hb0 : baseurl_ a0 = baseurl).
  { subst a0. unfold Aur_new. destruct (ConsumePrefix debug "requests:"); [done|].
    by case_decide. }
  split; [congruence|]. split; [done|]. split; [done|]. split.
  - intros c e He. apply (gc_options Gc c e He).
  - pose proof (ConsumePrefix_cases debug "requests:") as Hc.
    destruct (ConsumePrefix debug "requests:") as [path|] eqn:Hp; [right; by exists path|].
    left. apply (gt_debug_writes Gt). simpl. subst a0. unfold Aur_new. rewrite Hp.
    by case_decide.
Qed.

(** * No callback is lost *)

Lemma keeps_refl a : keeps a a.
Proof. by split. Qed.

Lemma keeps_trans a1 a2 a3 : keeps a1 a2 → keeps a2 a3 → keeps a1 a3.
Proof.
  intros K1 K2. split.
  - intros r h Hr. by apply (kp_refs K2), (kp_refs K1).
  - intros h Hh. by apply (kp_callbacks K2), (kp_callbacks K1).
  - by rewrite (kp_next K2), (kp_next K1).
  - intros He. by apply (kp_exit K1), (kp_exit K2).
Qed.

#[global] Instance keeps_preorder : PreOrder keeps.
Proof. split; [exact keeps_refl|exact keeps_trans]. Qed.

Lemma none_lost_keeps a a' : none_lost a → keeps a a' → none_lost a'.
Proof.
  intros N K He h Hh. rewrite (kp_next K) in Hh.
  destruct (N (kp_exit K He) h Hh) as [Hc|[r Hr]].
  - left. by apply (kp_callbacks K).
  - right. exists r. by apply (kp_refs K).
Qed.

(** A step that leaves the transfers alone and keeps every child watch. *)
Lemma keeps_sources a a' :
  easies a' = easies a →
  (∀ s h, child_handler a s = Some h → child_handler a' s = Some h) →
  (∃ t, trace a' = trace a ++ t) → next_handler a' = next_handler a →
  exit_requested a' = exit_requested a →
  keeps a a'.
Proof.
  intros He Hc [t Ht] Hn Hx. split; [| |done|congruence].
  - intros [c|s] h; simpl; [|apply Hc]. unfold easy_handler. by rewrite He.
  - intros h Hh. rewrite Ht, callbacks_app, elem_of_app. by left.
Qed.

Lemma keeps_same a a' :
  easies a' = easies a → sources a' = sources a → trace a' = trace a →
  next_handler a' = next_handler a → exit_requested a' = exit_requested a →
  keeps a a'.
Proof.
  intros He Hs Ht Hn Hx. apply keeps_sources; try done.
  - intros s h. unfold child_handler. by rewrite Hs.
  - exists []. by rewrite app_nil_r.
Qed.

Lemma keeps_handler_step a a' : handler_step a a' → keeps a a'.
Proof.
  intros [F (t & Ht & _)]. unfold engine_frame in F. apply keeps_sources; try congruence.
  - intros s h. unfold child_handler. by assert (sources a' = sources a) as -> by congruence.
  - by exists t.
Qed.

Lemma keeps_sd_event_source_set_enabled s m a :
  keeps a (sd_event_source_set_enabled s m a).1.
Proof.
  apply keeps_sources.
  - unfold sd_event_source_set_enabled. by destruct (sources a !! s).
  - intros s' h. by rewrite child_handler_set_enabled.
  - unfold sd_event_source_set_enabled. destruct (sources a !! s); simpl.
    + exists []. by rewrite app_nil_r.
    + by eexists.
  - unfold sd_event_source_set_enabled. by destruct (sources a !! s).
  - unfold sd_event_source_set_enabled. by destruct (sources a !! s).
Qed.

Lemma keeps_sd_event_source_set_time s usec a :
  keeps a (sd_event_source_set_time s usec a).1.
Proof.
  unfold sd_event_source_set_time. destruct (sources a !! s) as [src|] eqn:Hs; simpl.
  - destruct (src_kind src) eqn:K; simpl; try done.
    apply keeps_sources; [done| |exists []; by rewrite app_nil_r|done|done].
    intros s' h. unfold child_handler. simpl. destruct (decide (s' = s)) as [->|Hne].
    + by rewrite lookup_insert_eq, Hs, K.
    + by rewrite lookup_insert_ne.
  - apply keeps_sources; [done|done|by eexists|done|done].
Qed.

Lemma keeps_oneshot_off s en a : keeps a (oneshot_off s en a).
Proof.
  unfold oneshot_off. case_decide; [apply keeps_sd_event_source_set_enabled|done].
Qed.

Lemma keeps_after_dispatch s r a : keeps a (after_dispatch s r a).
Proof.
  unfold after_dispatch. case_match; [|done].
  destruct (sources a !! s); [apply keeps_sd_event_source_set_enabled|done].
Qed.

Lemma Gsrc_fresh_source a : Gsrc a → sources a !! next_source a = None.
Proof.
  intros G. pose proof (Gsrc_fresh a G) as H. unfold tag_of in H.
  by destruct (sources a !! next_source a).
Qed.

Lemma child_handler_new_source src a s h :
  sources a !! next_source a = None →
  child_handler a s = Some h → child_handler (new_source src a) s = Some h.
Proof.
  intros Hf. unfold child_handler. simpl. destruct (decide (s = next_source a)) as [->|Hne].
  - by rewrite Hf.
  - by rewrite lookup_insert_ne.
Qed.

Lemma keeps_SocketCallback cfg adding dupfd add_ok s action a :
  Ginv cfg adding a → keeps a (SocketCallback dupfd add_ok s action a).1.
Proof.
  intros I. destruct (active_io_ a !! s) as [io|] eqn:Hio.
  - destruct (source_of_tag_io a io (gs_io (gi_src I) _ _ Hio)) as (fd & ev & en & Hs).
    destruct (decide (action = CURL_POLL_REMOVE)) as [->|Hact].
    + rewrite (SocketCallback_remove_registered dupfd add_ok s a io fd ev en Hio Hs).
      apply keeps_sources;
        [done| |exists [ObsClose fd; ObsSourceFault io]; simpl; by rewrite <-app_assoc
        |done|done].
      intros s' h. unfold child_handler. simpl. destruct (decide (s' = io)) as [->|Hne].
      * by rewrite Hs.
      * by rewrite lookup_delete_ne.
    + rewrite (SocketCallback_modify dupfd add_ok s action a io fd ev en Hio Hs Hact).
      apply keeps_sources; [done| |exists []; by rewrite app_nil_r|done|done].
      intros s' h. unfold child_handler. simpl. destruct (decide (s' = io)) as [->|Hne].
      * by rewrite Hs.
      * by rewrite lookup_insert_ne.
  - destruct (decide (dupfd < 0)) as [Hfd|Hfd].
    { rewrite SocketCallback_fails by auto. done. }
    destruct add_ok; [|rewrite SocketCallback_fails by auto; done].
    rewrite SocketCallback_registers by (done || lia).
    apply keeps_sources; [done| |exists []; by rewrite app_nil_r|done|done].
    intros s' h. apply child_handler_new_source, Gsrc_fresh_source, (gi_src I).
Qed.

Lemma keeps_TimerCallback cfg adding now add_ok timeout_ms a :
  Ginv cfg adding a → keeps a (TimerCallback now add_ok timeout_ms a).1.
Proof.
  intros I. unfold TimerCallback. case_match.
  - destruct (timer_ a) as [t|]; [|done].
    pose proof (keeps_sd_event_source_set_enabled t SD_EVENT_OFF a) as K.
    destruct (sd_event_source_set_enabled t SD_EVENT_OFF a) as [a1 r]. by case_match.
  - destruct (timer_ a) as [t|].
    + pose proof (keeps_sd_event_source_set_time t
                    (to_uint64 (TimepointTo_usec (steady_clock_plus_ms now timeout_ms))) a)
        as K1.
      destruct (sd_event_source_set_time t _ a) as [a1 r1]; simpl in K1.
      case_match; [done|].
      pose proof (keeps_sd_event_source_set_enabled t SD_EVENT_ONESHOT a1) as K2.
      destruct (sd_event_source_set_enabled t _ a1) as [a2 r2]; simpl in K2.
      case_match; simpl; by etrans.
    + unfold sd_event_add_time. destruct add_ok; simpl; [|done].
      apply keeps_sources; [done| |exists []; by rewrite app_nil_r|done|done].
      intros s' h. apply child_handler_new_source, Gsrc_fresh_source, (gi_src I).
Qed.

Lemma keeps_curl_act X T cfg adding act a :
  Hinv X T a → Ginv cfg adding a → keeps a (curl_act act a).
Proof.
  intros I G. destruct act; simpl.
  - by eapply keeps_SocketCallback.
  - by eapply keeps_TimerCallback.
  - destruct (in_flight c a) as [e|]; [|done].
    apply keeps_handler_step, handler_step_BodyCallback.
  - destruct (in_flight c a) as [e|]; [|done]. case_match; [|done].
    unfold DebugCallback. case_decide; [done|].
    apply keeps_sources; [done|done|by eexists|done|done].
  - destruct (in_flight c a) as [e|]; [|done].
    apply keeps_handler_step, handler_step_write_error_buffer.
  - destruct (in_flight c a) as [e|] eqn:E; [|done]. apply in_flight_Some in E.
    split; try done. intros [c'|s'] h; simpl; [|done].
    unfold easy_handler. simpl. destruct (decide (c' = c)) as [->|Hne].
    + by rewrite lookup_insert_eq, E.
    + by rewrite lookup_insert_ne.
Qed.

Lemma keeps_notified cfg adding ns a : Ginv cfg adding a → keeps a (notified ns a).
Proof.
  unfold notified. revert a. induction ns as [|n ns IH]; intros a G; simpl; [done|].
  etrans; [|apply IH].
  - destruct n; simpl; [by eapply keeps_SocketCallback|by eapply keeps_TimerCallback].
  - destruct n; simpl; [by apply Ginv_SocketCallback|by apply Ginv_TimerCallback].
Qed.

Lemma none_lost_curl_acts X T cfg adding l a :
  Hinv X T a → Ginv cfg adding a → none_lost a →
  none_lost (foldl (λ a act, curl_act act a) a l).
Proof.
  revert a. induction l as [|act l IH]; intros a I G N; simpl; [done|].
  apply IH; [by apply Hinv_curl_act|by apply Ginv_curl_act|].
  eapply none_lost_keeps; [done|by eapply keeps_curl_act].
Qed.

(** A transfer or child watch [r0] is released and the callback of its
    handler runs. *)
Lemma none_lost_finish a a' r0 h :
  none_lost a → handler_of a r0 = Some h →
  (∀ r h', r ≠ r0 → handler_of a r = Some h' → handler_of a' r = Some h') →
  callbacks (trace a') = callbacks (trace a) ++ [h] →
  next_handler a' = next_handler a → exit_requested a' = exit_requested a →
  none_lost a'.
Proof.
  intros N H0 Hr Hc Hn Hx He h' Hh'. rewrite Hn in Hh'. rewrite Hx in He.
  rewrite Hc, elem_of_app, list_elem_of_singleton.
  destruct (N He h' Hh') as [?|[r Hr']]; [by left; left|].
  destruct (decide (r = r0)) as [->|Hne].
  - left. right. congruence.
  - right. exists r. by apply Hr.
Qed.

Lemma none_lost_FinishRequest_curl on_remove curl_easy_strerror X T cfg adding a c result :
  Hinv X T a → Ginv cfg adding a → is_Some (easies a !! c) → none_lost a →
  none_lost (FinishRequest_curl on_remove curl_easy_strerror c result true a).1.
Proof.
  intros I G [e He] N.
  destruct (Hinv_easy_live _ _ _ _ _ I He) as ([hd Hl] & _ & _).
  rewrite (FinishRequest_curl_dispatch _ _ _ _ _ _ _ He Hl). cbn [fst].
  set (error := if decide (result ≠ CURLE_OK) then _ else _).
  pose proof (handler_step_RunCallback (opt_private e) (info_response_code e) error a) as S.
  pose proof (RunCallback_callbacks (opt_private e) hd (info_response_code e) error a Hl)
    as Hc.
  eapply none_lost_keeps;
    [|eapply keeps_notified, Ginv_release_curl, Ginv_calm;
        [exact G|by apply handler_step_calm]].
  destruct S as [F _]. unfold engine_frame in F.
  eapply (none_lost_finish a _ (ReqCurl c) (opt_private e)); try done.
  - simpl. unfold easy_handler. by rewrite He.
  - intros [c'|s'] h' Hne; simpl.
    + unfold easy_handler. simpl. rewrite lookup_delete_ne by congruence.
      by assert (easies (RunCallback (opt_private e) (info_response_code e) error a).1
                 = easies a) as -> by congruence.
    + unfold child_handler. simpl.
      by assert (sources (RunCallback (opt_private e) (info_response_code e) error a).1
                 = sources a) as -> by congruence.
  - simpl. congruence.
  - simpl. congruence.
Qed.

Lemma CancelAll_exit_requested on_remove curl_easy_strerror X T a :
  Hinv X T a → exit_requested (CancelAll on_remove curl_easy_strerror a) = true.
Proof.
  intros I. pose proof (CancelAll_exit on_remove curl_easy_strerror X T a I) as H.
  unfold sd_event_get_exit_code in H. by destruct (exit_requested _).
Qed.

Lemma none_lost_exit_requested a : exit_requested a = true → none_lost a.
Proof. intros He He'. congruence. Qed.

Lemma none_lost_CheckFinished_loop on_remove curl_easy_strerror X T cfg adding fuel a a' r :
  Hinv X T a → Ginv cfg adding a → none_lost a →
  CheckFinished_loop on_remove curl_easy_strerror fuel a = Some (a', r) → none_lost a'.
Proof.
  revert a. induction fuel as [|fuel IH]; intros a I G N; simpl;
    unfold curl_multi_info_read;
    destruct (multi_msgs a) as [|[c result] rest] eqn:Hm; try discriminate;
    try (by intros [= <- <-]).
  pose proof (Ginv_info_read _ _ _ _ _ G Hm) as G1.
  pose proof (Hinv_quiet _ _ _ _ I (quiet_set_multi id (λ _, rest) a)) as I1.
  assert (N1 : none_lost (set_multi id (λ _, rest) a))
    by (eapply none_lost_keeps; [done|by apply keeps_same]).
  assert (Hl : is_Some (easies a !! c)).
  { apply (gc_msgs (gi_curl G)). rewrite Hm, fmap_cons. apply list_elem_of_here. }
  pose proof (Ginv_FinishRequest_curl on_remove curl_easy_strerror _ _ c result true _ G1 Hl) as G2.
  pose proof (Hinv_FinishRequest_curl on_remove curl_easy_strerror _ _ _ c result true I1) as I2.
  pose proof (none_lost_FinishRequest_curl on_remove curl_easy_strerror _ _ _ _ _ c result
                I1 G1 Hl N1) as N2.
  destruct (FinishRequest_curl _ _ c result true _) as [a1 r1]. simpl in *.
  case_match.
  - intros [= <- <-]. apply none_lost_exit_requested. by eapply CancelAll_exit_requested.
  - intros Hloop. by eapply IH.
Qed.

Lemma none_lost_CheckFinished on_remove curl_easy_strerror X T cfg adding a :
  Hinv X T a → Ginv cfg adding a → none_lost a →
  none_lost (CheckFinished on_remove curl_easy_strerror a).1.
Proof.
  intros I G N. unfold CheckFinished.
  destruct (CheckFinished_loop _ _ _ a) as [[a' r]|] eqn:E; [|done].
  by eapply none_lost_CheckFinished_loop.
Qed.

Lemma none_lost_OnCurlIO on_remove curl_easy_strerror X T cfg adding reaction fd revents a :
  Hinv X T a → Ginv cfg adding a → none_lost a →
  none_lost (OnCurlIO on_remove curl_easy_strerror reaction fd revents a).1.
Proof.
  intros I G N. unfold OnCurlIO, curl_multi_socket_action. cbv zeta.
  set (a0 := set_translate_fds (emplace fd 0) a). set (rn := reaction _ _).
  pose proof (Hinv_quiet _ _ _ _ I (quiet_set_translate_fds (emplace fd 0) a)) as I0.
  pose proof (Ginv_calm _ _ _ _ G (calm_set_translate_fds (emplace fd 0) a)) as G0.
  assert (N0 : none_lost a0) by (eapply none_lost_keeps; [done|by apply keeps_same]).
  pose proof (Hinv_curl_acts _ _ (acts rn) _ I0) as I1.
  pose proof (Ginv_curl_acts _ _ (acts rn) _ G0) as G1.
  pose proof (none_lost_curl_acts _ _ _ _ (acts rn) _ I0 G0 N0) as N1.
  case_decide; [done|]. by eapply none_lost_CheckFinished.
Qed.

Lemma none_lost_OnCurlTimer on_remove curl_easy_strerror X T cfg adding reaction a :
  Hinv X T a → Ginv cfg adding a → none_lost a →
  none_lost (OnCurlTimer on_remove curl_easy_strerror reaction a).1.
Proof.
  intros I G N. unfold OnCurlTimer, curl_multi_socket_action. cbv zeta.
  set (rn := reaction _ _).
  pose proof (Hinv_curl_acts _ _ (acts rn) _ I) as I1.
  pose proof (Ginv_curl_acts _ _ (acts rn) _ G) as G1.
  pose proof (none_lost_curl_acts _ _ _ _ (acts rn) _ I G N) as N1.
  case_decide; [done|]. by eapply none_lost_CheckFinished.
Qed.

Lemma none_lost_OnCloneExit X T s si_status h a :
  Hinv X T a → child_handler a s = Some h → none_lost a →
  none_lost (OnCloneExit s si_status h a).1.
Proof.
  intros I Hof N.
  assert (Hof' : handler_of a (ReqSource s) = Some h) by done.
  destruct (hi_live I _ _ Hof') as [hd Hl].
  rewrite (OnCloneExit_live s si_status h hd a Hl).
  set (error := if decide (si_status ≠ 0) then _ else _).
  set (a1 := (FinishRequest_source s a).1).
  assert (Hl1 : heap a1 !! h = Some hd) by (subst a1; by rewrite FinishRequest_source_heap).
  pose proof (handler_step_RunCallback h si_status error a1) as S.
  pose proof (RunCallback_callbacks h hd si_status error a1 Hl1) as Hc.
  destruct S as [F _]. unfold engine_frame in F.
  assert (Hs : sources a !! s ≠ None).
  { unfold child_handler in Hof. by destruct (sources a !! s). }
  assert (H1 : easies a1 = easies a ∧ sources a1 = delete s (sources a) ∧
               trace a1 = trace a ∧ next_handler a1 = next_handler a ∧
               exit_requested a1 = exit_requested a).
  { subst a1. unfold FinishRequest_source, sd_event_source_unref. simpl.
    by destruct (sources a !! s). }
  destruct H1 as (E1 & E2 & E3 & E4 & E5).
  eapply (none_lost_finish a _ (ReqSource s) h); try done.
  - intros [c'|s'] h' Hne; simpl.
    + unfold easy_handler.
      by assert (easies (RunCallback h si_status error a1).1 = easies a) as -> by congruence.
    + unfold child_handler.
      assert (sources (RunCallback h si_status error a1).1 = delete s (sources a)) as ->
        by congruence.
      rewrite lookup_delete_ne by congruence. done.
  - by rewrite Hc, E3.
  - congruence.
  - congruence.
Qed.

Lemma none_lost_sd_event_dispatch on_remove curl_easy_strerror X T cfg adding ev a :
  Hinv X T a → Ginv cfg adding a → none_lost a →
  none_lost (sd_event_dispatch on_remove curl_easy_strerror ev a).1.
Proof.
  intros I G N.
  destruct ev as [|errno|s revents reaction|s reaction|s si_status]; simpl; try done.
  - destruct (sources a !! s) as [[[fd ev| |] en]|] eqn:Hs; try done.
    case_decide; [done|].
    pose proof (calm_oneshot_off s en a ltac:(eauto)) as C1.
    pose proof (none_lost_OnCurlIO on_remove curl_easy_strerror _ _ _ _ reaction fd revents _
                  (Hinv_quiet _ _ _ _ I (quiet_oneshot_off s en a))
                  (Ginv_calm _ _ _ _ G C1)
                  (none_lost_keeps _ _ N (keeps_oneshot_off s en a))) as N2.
    destruct (OnCurlIO _ _ reaction fd revents _) as [a2 r2]. simpl in *.
    eapply none_lost_keeps; [done|apply keeps_after_dispatch].
  - destruct (sources a !! s) as [[[|usec|] en]|] eqn:Hs; try done.
    case_decide; [done|].
    pose proof (calm_oneshot_off s en a ltac:(eauto)) as C1.
    pose proof (none_lost_OnCurlTimer on_remove curl_easy_strerror _ _ _ _ reaction _
                  (Hinv_quiet _ _ _ _ I (quiet_oneshot_off s en a))
                  (Ginv_calm _ _ _ _ G C1)
                  (none_lost_keeps _ _ N (keeps_oneshot_off s en a))) as N2.
    destruct (OnCurlTimer _ _ reaction _) as [a2 r2]. simpl in *.
    eapply none_lost_keeps; [done|apply keeps_after_dispatch].
  - destruct (sources a !! s) as [[[| |pid userdata] en]|] eqn:Hs; try done.
    case_decide; [done|].
    assert (Hc : child_handler (oneshot_off s en a) s = Some userdata).
    { rewrite child_handler_oneshot_off. unfold child_handler. by rewrite Hs. }
    pose proof (none_lost_OnCloneExit _ _ s si_status userdata _
                  (Hinv_quiet _ _ _ _ I (quiet_oneshot_off s en a)) Hc
                  (none_lost_keeps _ _ N (keeps_oneshot_off s en a))) as N2.
    destruct (OnCloneExit s si_status userdata _) as [a2 r2]. simpl in *.
    eapply none_lost_keeps; [done|apply keeps_after_dispatch].
Qed.

Lemma none_lost_sd_event_run on_remove curl_easy_strerror X T cfg adding script a a' r rest :
  Hinv X T a → Ginv cfg adding a → none_lost a →
  sd_event_run on_remove curl_easy_strerror script a = Some (a', r, rest) → none_lost a'.
Proof.
  intros I G N. unfold sd_event_run. destruct (finished a); [by intros [= <- <- <-]|].
  destruct (exit_requested a).
  - intros [= <- <- <-]. by apply none_lost_exit_requested.
  - destruct script as [|ev script]; [done|].
    pose proof (none_lost_sd_event_dispatch on_remove curl_easy_strerror _ _ _ _ ev a I G N) as N2.
    destruct (sd_event_dispatch _ _ ev a) as [a2 r2]. by intros [= <- <- <-].
Qed.

Lemma none_lost_Wait_loop on_remove curl_easy_strerror X T cfg adding fuel script a a' rest b :
  Hinv X T a → Ginv cfg adding a → none_lost a →
  Wait_loop on_remove curl_easy_strerror fuel script a = Some (a', rest, b) → none_lost a'.
Proof.
  revert script a. induction fuel as [|fuel IH]; intros script a I G N; simpl;
    (case_decide; [by intros [= <- <- <-]|]); [done|].
  destruct (sd_event_run _ _ script a) as [[[a2 r2] rest2]|] eqn:Er;
    [|by intros [= <- <- <-]].
  pose proof (Hinv_sd_event_run _ _ _ _ _ _ _ _ _ I Er) as I2.
  pose proof (Ginv_sd_event_run _ _ _ _ _ _ _ _ _ G Er) as G2.
  pose proof (none_lost_sd_event_run _ _ _ _ _ _ _ _ _ _ _ I G N Er) as N2.
  case_match; [by intros [= <- <- <-]|]. by eapply IH.
Qed.

Lemma none_lost_Wait on_remove curl_easy_strerror X T cfg adding script a :
  Hinv X T a → Ginv cfg adding a → none_lost a →
  none_lost (Wait on_remove curl_easy_strerror script a).1.1.
Proof.
  intros I G N. unfold Wait.
  destruct (Wait_loop _ _ _ script a) as [[[a' rest] []]|] eqn:E; simpl; try done;
    by eapply none_lost_Wait_loop.
Qed.

(** A new handler that a new transfer or child watch [r0] points to. *)
Lemma none_lost_new_ref a a' r0 :
  none_lost a → next_handler a' = S (next_handler a) →
  handler_of a' r0 = Some (next_handler a) →
  (∀ r h, handler_of a r = Some h → handler_of a' r = Some h) →
  callbacks (trace a') = callbacks (trace a) →
  exit_requested a' = exit_requested a →
  none_lost a'.
Proof.
  intros N Hn H0 Hr Hc Hx He h Hh. rewrite Hn in Hh. rewrite Hx in He. rewrite Hc.
  destruct (decide (h = next_handler a)) as [->|Hne]; [by right; exists r0|].
  destruct (N He h ltac:(lia)) as [?|[r Hr']]; [by left|].
  right. exists r. by apply Hr.
Qed.

Lemma none_lost_QueueHttpRequest_body X T cfg traits libcurl callback a url :
  kEncoding traits = "" ∨ kEncoding traits = "identity" →
  Hinv X T a → Ginv cfg ∅ a → none_lost a →
  none_lost (QueueHttpRequest_body traits libcurl callback a url).
Proof.
  intros Henc I G N. unfold QueueHttpRequest_body, curl_multi_add_handle.
  set (hd := {| body := ""; error_buffer := ""; htype := ResponseHandlerType traits;
                callback_ := callback |}).
  set (e := {| opt_url := url; opt_writedata := next_handler a |}).
  destruct (Hinv_fresh _ _ _ I) as (Hn & Hr & HX & Hc).
  assert (I2 : Hinv X T (set_multi (λ hs, {[next_easy a]} ∪ hs) id
                           (new_easy e (new_handler hd a)))).
  { eapply Hinv_quiet; [|apply quiet_set_multi].
    apply Hinv_new_easy; simpl; try done.
    - by apply Hinv_new_handler.
    - rewrite lookup_insert_eq. eauto. }
  pose proof (Ginv_calm _ _ _ _ G (calm_new_handler hd a)) as G1.
  assert (G2 : Ginv cfg ({[next_easy a]} ∪ ∅)
                 (set_multi (λ hs, {[next_easy a]} ∪ hs) id (new_easy e (new_handler hd a)))).
  { destruct G1 as [Hs Hgc Hgr Hgt]. split; [done| | |done].
    - apply (Gcurl_new_transfer _ _ (new_handler hd a) e Hgc).
      assert (Hl : debug_level_ a = cfg.1.2) by (by rewrite <-Hs).
      subst e. unfold transfer_options. simpl. rewrite Hl. by destruct (cfg.1.2).
    - eapply Gsrc_same; [| | | | |exact Hgr]; done. }
  assert (N2 : none_lost (set_multi (λ hs, {[next_easy a]} ∪ hs) id
                            (new_easy e (new_handler hd a)))).
  { eapply (none_lost_new_ref a _ (ReqCurl (next_easy a))); try done.
    - simpl. unfold easy_handler. simpl. by rewrite lookup_insert_eq.
    - intros [c|s] h; simpl; [|done]. unfold easy_handler. simpl.
      destruct (easies a !! c) as [e0|] eqn:He0; [|done].
      rewrite lookup_insert_ne; [by rewrite He0|].
      intros <-. assert (next_easy a < next_easy a)%nat; [|lia].
      apply (gc_bound (gi_curl G)). eauto. }
  match goal with |- context [foldl ?f ?b ?l] =>
    pose proof (none_lost_curl_acts _ _ _ _ l b I2 G2 N2) as N3;
    set (a3 := foldl f b l) in *; clearbody a3 end.
  eapply none_lost_keeps; [done|by apply keeps_same].
Qed.

Lemma none_lost_QueueHttpRequest X T cfg traits libcurl request callback a :
  kEncoding traits = "" ∨ kEncoding traits = "identity" →
  Hinv X T a → Ginv cfg ∅ a → none_lost a →
  none_lost (QueueHttpRequest traits libcurl request callback a).
Proof.
  intros Henc. unfold QueueHttpRequest. generalize (Build request (baseurl_ a)). intros l.
  revert a. induction l as [|url l IH]; intros a I G N; simpl; [done|].
  apply IH.
  - by apply (Hinv_QueueHttpRequest X T traits libcurl {| Build := λ _, [url] |} callback a).
  - by apply Ginv_QueueHttpRequest_body.
  - by eapply none_lost_QueueHttpRequest_body.
Qed.

Lemma none_lost_QueueCloneRequest strerror X T cfg adding os request callback a :
  Hinv X T a → Ginv cfg adding a → none_lost a →
  none_lost (QueueCloneRequest strerror os request callback a).
Proof.
  intros I G N. unfold QueueCloneRequest.
  set (hd := {| body := ""; error_buffer := "" |}).
  destruct (fork os) as [errno|pid].
  - set (error := _ +:+ _).
    pose proof (handler_step_RunCallback (next_handler a) (- Z.pos errno) error
                  (new_handler hd a)) as S.
    pose proof (RunCallback_callbacks (next_handler a) hd (- Z.pos errno) error
                  (new_handler hd a) (new_handler_lookup hd a)) as Hc.
    destruct S as [F _]. unfold engine_frame in F.
    intros He h Hh.
    assert (next_handler (RunCallback (next_handler a) (- Z.pos errno) error
                            (new_handler hd a)).1 = S (next_handler a)) as Hn
      by (simpl in F; congruence).
    assert (exit_requested a = false) as He' by (simpl in F; congruence).
    rewrite Hn in Hh. rewrite Hc. simpl. rewrite elem_of_app, list_elem_of_singleton.
    destruct (decide (h = next_handler a)) as [->|Hne]; [by left; right|].
    destruct (N He' h ltac:(lia)) as [?|[r Hr]]; [by left; left|].
    right. exists r. destruct r as [c|s]; simpl in *.
    + unfold easy_handler in *.
      by assert (easies (RunCallback (next_handler a) (- Z.pos errno) error
                           (new_handler hd a)).1 = easies a) as -> by (simpl in F; congruence).
    + unfold child_handler in *.
      by assert (sources (RunCallback (next_handler a) (- Z.pos errno) error
                            (new_handler hd a)).1 = sources a) as -> by (simpl in F; congruence).
  - unfold sd_event_add_child.
    eapply (none_lost_new_ref a _ (ReqSource (next_source a))); try done.
    + simpl. unfold child_handler. simpl. by rewrite lookup_insert_eq.
    + intros [c|s] h; simpl; [done|].
      apply (child_handler_new_source _ (log _ (new_handler hd a))).
      exact (Gsrc_fresh_source a (gi_src G)).
    + simpl. by rewrite callbacks_app, app_nil_r.
Qed.

Lemma none_lost_call on_remove curl_easy_strerror strerror X T cfg c a :
  Hinv X T a → Ginv cfg ∅ a → none_lost a →
  none_lost (call on_remove curl_easy_strerror strerror c a).
Proof.
  intros I G N. destruct c; simpl.
  - eapply none_lost_QueueHttpRequest; [by left|done..].
  - eapply none_lost_QueueHttpRequest; [by left|done..].
  - eapply none_lost_QueueHttpRequest; [by right|done..].
  - by eapply none_lost_QueueCloneRequest.
  - apply none_lost_exit_requested. by eapply CancelAll_exit_requested.
  - by eapply none_lost_Wait.
Qed.

Lemma none_lost_run on_remove curl_easy_strerror strerror X T cfg calls a :
  Hinv X T a → Ginv cfg ∅ a → none_lost a →
  none_lost (run on_remove curl_easy_strerror strerror calls a).
Proof.
  unfold run. revert a. induction calls as [|c calls IH]; intros a I G N; simpl; [done|].
  apply IH; [by apply Hinv_call|by apply Ginv_call|by eapply none_lost_call].
Qed.

Lemma none_lost_Aur_new baseurl debug : none_lost (Aur_new baseurl debug).
Proof.
  intros _ h Hh. unfold Aur_new in Hh.
  destruct (ConsumePrefix debug "requests:"); [simpl in Hh; lia|].
  case_decide; simpl in Hh; lia.
Qed.

(** ** What a successful [Wait] means *)

Lemma sd_event_dispatch_result on_remove curl_easy_strerror ev a :
  no_failure ev → 0 ≤ (sd_event_dispatch on_remove curl_easy_strerror ev a).2.
Proof.
  intros Hev. destruct ev as [|errno|s revents reaction|s reaction|s si_status]; simpl;
    try done.
  - destruct (sources a !! s) as [[[fd ev| |] en]|]; try done.
    case_decide; [done|]. by destruct (OnCurlIO _ _ reaction fd revents _).
  - destruct (sources a !! s) as [[[|usec|] en]|]; try done.
    case_decide; [done|]. by destruct (OnCurlTimer _ _ reaction _).
  - destruct (sources a !! s) as [[[| |pid userdata] en]|]; try done.
    case_decide; [done|]. by destruct (OnCloneExit s si_status userdata _).
Qed.

(** With a reactor that does not fail, the loop of [Wait] is left only
    when the Active Request Set is empty or the loop was told to exit. *)
Lemma Wait_loop_left on_remove curl_easy_strerror X T fuel script a a' rest :
  Hinv X T a → Forall no_failure script →
  Wait_loop on_remove curl_easy_strerror fuel script a = Some (a', rest, true) →
  active_requests_ a' = ∅ ∨ exit_requested a' = true.
Proof.
  revert script a. induction fuel as [|fuel IH]; intros script a I Hs; simpl;
    (case_decide as Ha; [intros [= <- <-]; by left|]); [done|].
  destruct (sd_event_run _ _ script a) as [[[a2 r2] rest2]|] eqn:Er; [|done].
  pose proof (Hinv_sd_event_run _ _ _ _ _ _ _ _ _ I Er) as I2.
  unfold sd_event_run in Er. destruct (finished a) eqn:Ef.
  - injection Er as <- <- <-. simpl. intros [= <- <-]. right. by apply (hi_finished I).
  - destruct (exit_requested a) eqn:Ee.
    + injection Er as <- <- <-. simpl. apply IH; [done|done].
    + destruct script as [|ev script]; [done|].
      apply Forall_cons in Hs as [Hev Hs].
      pose proof (sd_event_dispatch_result on_remove curl_easy_strerror ev a Hev) as Hr.
      destruct (sd_event_dispatch _ _ ev a) as [a3 r3]. injection Er as <- <- <-.
      simpl in Hr. rewrite (proj2 (Z.ltb_ge r3 0) Hr). by apply IH.
Qed.

(** X15.  No callback is lost.  After every run in which the loop was
    not told to exit (no [CancelAll], no callback that returned a negative
    value), every handler the engine has ever allocated is in one of two
    states: its callback has been called, once, and it is gone; or its
    callback has not been called and it is the live handler of a member
    of the Active Request Set. *)
Theorem no_callback_is_lost on_remove curl_easy_strerror strerror baseurl debug calls :
  let a := run on_remove curl_easy_strerror strerror calls (Aur_new baseurl debug) in
  exit_requested a = true ∨
  ∀ h, (h < next_handler a)%nat →
    (times_called h (trace a) = 1%nat ∧ heap a !! h = None) ∨
    (times_called h (trace a) = 0%nat ∧ is_Some (heap a !! h) ∧
     ∃ r, r ∈ active_requests_ a ∧ handler_of a r = Some h).
Proof.
  intros a.
  pose proof (Hinv_run on_remove curl_easy_strerror strerror _ _ calls _ (Hinv_Aur_new baseurl
      debug))
    as I.
  pose proof (Ginv_reachable on_remove curl_easy_strerror strerror baseurl debug calls) as G.
  pose proof (none_lost_run on_remove curl_easy_strerror strerror _ _ _ calls _
                (Hinv_Aur_new baseurl debug) (Ginv_Aur_new baseurl debug)
                (none_lost_Aur_new baseurl debug)) as N.
  fold a in I, G, N.
  destruct (exit_requested a) eqn:He; [by left|right].
  intros h Hh. destruct (N He h Hh) as [Hc|[r Hr]].
  - left. split; [by apply times_called_NoDup; [apply (hi_nodup I)|]|].
    by apply (hi_called I).
  - right. pose proof (hi_live I r h Hr) as Hl.
    split; [by apply times_called_absent, (Hinv_live_not_called _ _ _ _ I)|].
    split; [done|]. exists r. split; [|done].
    destruct r as [c|s]; simpl in Hr.
    + unfold easy_handler in Hr. destruct (easies a !! c) as [e|] eqn:E; [|done].
      destruct (gc_held (gi_curl G) c ltac:(eauto)) as [?|Hc]; [done|].
      by apply elem_of_empty in Hc.
    + apply (gs_child (gi_src G)). unfold child_handler in Hr. unfold tag_of, source_tag.
      destruct (sources a !! s) as [[k en]|]; [|done]. simpl in *. by destruct k.
Qed.

(** X16.  When the reactor does not fail and [Wait] returns 0, every
    request submitted so far is finished: the Active Request Set is empty
    and the callback of every handler ever allocated has been called
    exactly once. *)
Theorem Wait_success_means_every_callback_ran
    on_remove curl_easy_strerror strerror baseurl debug calls script :
  let a := run on_remove curl_easy_strerror strerror calls (Aur_new baseurl debug) in
  let a' := (Wait on_remove curl_easy_strerror script a).1.1 in
  Forall no_failure script →
  (Wait on_remove curl_easy_strerror script a).2 = Some 0 →
  active_requests_ a' = ∅ ∧
  ∀ h, (h < next_handler a')%nat → times_called h (trace a') = 1%nat.
Proof.
  intros a a' Hs Hw.
  pose proof (Hinv_run on_remove curl_easy_strerror strerror _ _ calls _ (Hinv_Aur_new baseurl
      debug))
    as I.
  pose proof (Ginv_reachable on_remove curl_easy_strerror strerror baseurl debug calls) as G.
  pose proof (none_lost_run on_remove curl_easy_strerror strerror _ _ _ calls _
                (Hinv_Aur_new baseurl debug) (Ginv_Aur_new baseurl debug)
                (none_lost_Aur_new baseurl debug)) as N.
  fold a in I, G, N.
  pose proof (Hinv_Wait on_remove curl_easy_strerror _ _ script a I) as I'.
  pose proof (Ginv_Wait on_remove curl_easy_strerror _ _ script a G) as G'.
  pose proof (none_lost_Wait on_remove curl_easy_strerror _ _ _ _ script a I G N) as N'.
  fold a' in I', G', N'.
  assert (He : exit_requested a' = false ∧ active_requests_ a' = ∅) .
  { subst a'. unfold Wait in *.
    destruct (Wait_loop _ _ _ script a) as [[[a2 rest2] []]|] eqn:E; simpl in *; try done.
    assert (Hx : exit_requested a2 = false).
    { destruct (exit_requested a2) eqn:Ex; [|done].
      unfold sd_event_get_exit_code in Hw. rewrite Ex, (hi_exit_code I' Ex) in Hw. done. }
    split; [done|].
    destruct (Wait_loop_left _ _ _ _ _ _ _ _ _ I Hs E) as [?|?]; [done|congruence]. }
  destruct He as [He Ha]. split; [done|].
  intros h Hh. destruct (N' He h Hh) as [Hc|[r Hr]].
  - by apply times_called_NoDup; [apply (hi_nodup I')|].
  - exfalso. destruct r as [c|s]; simpl in Hr.
    + unfold easy_handler in Hr. destruct (easies a' !! c) as [e|] eqn:E; [|done].
      destruct (gc_held (gi_curl G') c ltac:(eauto)) as [Hc|Hc].
      * rewrite Ha in Hc. by apply elem_of_empty in Hc.
      * by apply elem_of_empty in Hc.
    + assert (ReqSource s ∈ active_requests_ a') as Hc.
      { apply (gs_child (gi_src G')). unfold child_handler in Hr. unfold tag_of, source_tag.
        destruct (sources a' !! s) as [[k en]|]; [|done]. simpl in *. by destruct k. }
      rewrite Ha in Hc. by apply elem_of_empty in Hc.
Qed.

Lemma Wait_success_means_every_callback_ran_witness :
  let a := run example_removal example_curl_strerror example_strerror example_calls_rpc
             (Aur_new example_baseurl "") in
  let a' := (Wait example_removal example_curl_strerror example_script a).1.1 in
  next_handler a' = 1%nat ∧ active_requests_ a' = ∅ ∧
  ∀ h, (h < next_handler a')%nat → times_called h (trace a') = 1%nat.
Proof.
  split; [reflexivity|].
  apply (Wait_success_means_every_callback_ran example_removal example_curl_strerror
      example_strerror
           example_baseurl "" example_calls_rpc example_script).
  - repeat constructor.
  - reflexivity.
Defined.

(** ** What [CancelAll] leaves behind *)

Lemma Cancel_easies on_remove curl_easy_strerror request a c e :
  easies (Cancel on_remove curl_easy_strerror request a) !! c = Some e → easies a !! c = Some e.
Proof.
  destruct request as [c0|s]; simpl.
  - destruct (easies a !! c0) as [e0|] eqn:He0.
    + destruct (FinishRequest_curl_shape on_remove curl_easy_strerror c0 e0
                  CURLE_ABORTED_BY_CALLBACK false a He0) as (a1 & [F _] & ->).
      unfold engine_frame in F. rewrite notified_easies. simpl.
      intros [_ H]%lookup_delete_Some.
      by assert (easies a = easies a1) as -> by congruence.
    + by rewrite FinishRequest_curl_dead.
  - unfold FinishRequest_source, sd_event_source_unref. simpl. by destruct (sources a !! s).
Qed.

(** [Cancel] deletes the handler of a transfer and leaves every other
    handler, that of a child watch too, where it is. *)
Lemma Cancel_heap on_remove curl_easy_strerror request a :
  heap (Cancel on_remove curl_easy_strerror request a) =
  match request with
  | ReqCurl c =>
      match easies a !! c with
      | Some e => delete (opt_private e) (heap a)
      | None => heap a
      end
  | ReqSource _ => heap a
  end.
Proof.
  destruct request as [c|s]; simpl.
  - destruct (easies a !! c) as [e|] eqn:He.
    + rewrite (FinishRequest_curl_cancel _ _ _ _ _ _ He). simpl. rewrite notified_heap.
      simpl. unfold delete_handler.
      destruct (heap a !! opt_private e) eqn:Hl; simpl; [done|]. by rewrite delete_id.
    + by rewrite FinishRequest_curl_dead.
  - apply FinishRequest_source_heap.
Qed.

Lemma CancelAll_loop_heap_other on_remove curl_easy_strerror fuel a a' h :
  (∀ c e, easies a !! c = Some e → opt_private e ≠ h) →
  CancelAll_loop on_remove curl_easy_strerror fuel a = Some a' → heap a' !! h = heap a !! h.
Proof.
  revert a. induction fuel as [|fuel IH]; intros a Hh; simpl;
    destruct (head (elements (active_requests_ a))) as [r|] eqn:E; simpl;
    try discriminate; try (by intros [= <-]).
  intros Hloop.
  assert (Hh' : ∀ c e, easies (Cancel on_remove curl_easy_strerror r a) !! c = Some e →
                       opt_private e ≠ h) by eauto using Cancel_easies.
  rewrite (IH _ Hh' Hloop), Cancel_heap.
  destruct r as [c|s]; [|done]. destruct (easies a !! c) as [e|] eqn:He; [|done].
  apply lookup_delete_ne. by apply (Hh c).
Qed.

Lemma CancelAll_loop_heap_transfers on_remove curl_easy_strerror fuel a0 a a' :
  (∀ c e, easies a0 !! c = Some e →
     easies a !! c = Some e ∨ heap a !! opt_private e = None) →
  CancelAll_loop on_remove curl_easy_strerror fuel a = Some a' →
  ∀ c e, easies a0 !! c = Some e →
     easies a' !! c = Some e ∨ heap a' !! opt_private e = None.
Proof.
  revert a. induction fuel as [|fuel IH]; intros a J; simpl;
    destruct (head (elements (active_requests_ a))) as [r|] eqn:E; simpl;
    try discriminate; try (by intros [= <-]).
  apply IH. intros c e He0. rewrite Cancel_heap.
  destruct (J c e He0) as [He|Hl].
  - destruct r as [c1|s]; simpl.
    + destruct (decide (c1 = c)) as [->|Hne].
      * right. rewrite He. apply lookup_delete_eq.
      * left. destruct (easies a !! c1) as [e1|] eqn:He1.
        -- destruct (FinishRequest_curl_shape on_remove curl_easy_strerror c1 e1
                       CURLE_ABORTED_BY_CALLBACK false a He1) as (a1 & [F _] & ->).
           unfold engine_frame in F. rewrite notified_easies. simpl.
           rewrite lookup_delete_ne by done.
           by assert (easies a1 = easies a) as -> by congruence.
        -- by rewrite FinishRequest_curl_dead.
    + left. unfold FinishRequest_source, sd_event_source_unref. simpl.
      by destruct (sources a !! s).
  - right. destruct r as [c1|s]; [|done].
    destruct (easies a !! c1); [|done]. by apply lookup_delete_None; right.
Qed.

(** X17.  [CancelAll], whatever the engine has been through, when it
    returns (that is, when the run up to and including it has used no
    released event source, see C6): no transfer, no completion message and
    no child watch is left, no callback has run, the handler of every
    cancelled transfer is deleted, and the handler of every cancelled child
    watch stays allocated (nothing deletes it). *)
Theorem CancelAll_releases_requests_and_keeps_clone_handlers
    on_remove curl_easy_strerror strerror baseurl debug calls :
  let a := run on_remove curl_easy_strerror strerror calls (Aur_new baseurl debug) in
  let a' := CancelAll on_remove curl_easy_strerror a in
  defined a' →
  easies a' = ∅ ∧ multi_handles a' = ∅ ∧ multi_msgs a' = [] ∧
  (∀ s, child_handler a' s = None) ∧
  callbacks (trace a') = callbacks (trace a) ∧
  (∀ c e, easies a !! c = Some e → heap a' !! opt_private e = None) ∧
  (∀ s h, child_handler a s = Some h → is_Some (heap a' !! h)).
Proof.
  intros a a' _.
  pose proof (Hinv_run on_remove curl_easy_strerror strerror _ _ calls _
                (Hinv_Aur_new baseurl debug)) as I.
  pose proof (Ginv_reachable on_remove curl_easy_strerror strerror baseurl debug calls) as G.
  fold a in I, G.
  pose proof (Ginv_CancelAll on_remove curl_easy_strerror _ _ a G) as G'. fold a' in G'.
  pose proof (CancelAll_active on_remove curl_easy_strerror a) as Ha. fold a' in Ha.
  assert (He : easies a' = ∅).
  { apply map_empty. intros c. destruct (easies a' !! c) eqn:E; [|done].
    destruct (gc_held (gi_curl G') c ltac:(eauto)) as [Hc|Hc].
    - rewrite Ha in Hc. by apply elem_of_empty in Hc.
    - by apply elem_of_empty in Hc. }
  split; [done|]. split; [|split; [|split; [|split; [|split]]]].
  - apply leibniz_equiv. intros c. split; [|by intros ?%elem_of_empty].
    intros Hc. apply (gc_multi (gi_curl G')) in Hc as [e Hc]. by rewrite He in Hc.
  - destruct (multi_msgs a') as [|[c r] rest] eqn:Hm; [done|].
    assert (is_Some (easies a' !! c)) as [e Hc].
    { apply (gc_msgs (gi_curl G')). rewrite Hm, fmap_cons. apply list_elem_of_here. }
    by rewrite He in Hc.
  - intros s. destruct (child_handler a' s) as [h|] eqn:Hc; [|done].
    assert (ReqSource s ∈ active_requests_ a') as Hs.
    { apply (gs_child (gi_src G')). unfold child_handler in Hc. unfold tag_of, source_tag.
      destruct (sources a' !! s) as [[k en]|]; [|done]. simpl in *. by destruct k. }
    rewrite Ha in Hs. by apply elem_of_empty in Hs.
  - apply CancelAll_callbacks.
  - intros c e Hc. subst a'. unfold CancelAll in *.
    destruct (CancelAll_loop_total on_remove curl_easy_strerror (size (active_requests_ a)) a)
      as (a1 & Ha1 & _); [done|].
    rewrite Ha1 in *. simpl in *.
    assert (Heq : easies (sd_event_exit 1 a1).1 = easies a1 ∧
                  heap (sd_event_exit 1 a1).1 = heap a1)
      by (unfold sd_event_exit; by destruct (finished a1)).
    destruct Heq as [Heq1 Heq2]. rewrite Heq2.
    destruct (CancelAll_loop_heap_transfers on_remove curl_easy_strerror _ a a a1
                ltac:(by left) Ha1 c e Hc) as [Hl|Hl]; [|done].
    rewrite <-Heq1, He in Hl. done.
  - intros s h Hs. subst a'. unfold CancelAll in *.
    destruct (CancelAll_loop_total on_remove curl_easy_strerror (size (active_requests_ a)) a)
      as (a1 & Ha1 & _); [done|].
    rewrite Ha1. simpl.
    assert (Heq : heap (sd_event_exit 1 a1).1 = heap a1)
      by (unfold sd_event_exit; by destruct (finished a1)).
    rewrite Heq, (CancelAll_loop_heap_other on_remove curl_easy_strerror
                    (size (active_requests_ a)) a a1 h); [| |exact Ha1].
    + by apply (hi_live I (ReqSource s)).
    + intros c e Hc Heq'.
      assert (ReqCurl c = ReqSource s); [|done].
      apply (hi_inj I _ _ h); simpl; [|done]. unfold easy_handler. rewrite Hc. simpl.
      by f_equal.
Qed.

(** A transfer that has not started and a running [git] are cancelled;
    libcurl switches its timer off when the transfer is removed. *)
Lemma CancelAll_releases_requests_and_keeps_clone_handlers_witness :
  let a := run example_removal example_curl_strerror example_strerror example_calls
             (Aur_new example_baseurl "") in
  let a' := CancelAll example_removal example_curl_strerror a in
  (easy_handler a 0%nat = Some 0%nat ∧ child_handler a 1%nat = Some 1%nat ∧ defined a' ∧
   timer_state a' = Some {| src_kind := SrcTime 1000; src_enabled := SD_EVENT_OFF |}) ∧
  easies a' = ∅ ∧ multi_handles a' = ∅ ∧ multi_msgs a' = [] ∧
  (∀ s, child_handler a' s = None) ∧
  callbacks (trace a') = callbacks (trace a) ∧
  (∀ c e, easies a !! c = Some e → heap a' !! opt_private e = None) ∧
  (∀ s h, child_handler a s = Some h → is_Some (heap a' !! h)).
Proof.
  intros a a'. split; [by vm_compute|].
  apply (CancelAll_releases_requests_and_keeps_clone_handlers example_removal
           example_curl_strerror example_strerror example_baseurl "" example_calls).
  by vm_compute.
Defined.

(** ** Cancelling a transfer that holds a socket *)





(** ** [CheckFinished] takes the completions in order *)

Lemma filter_ne_id (c : nat) (l : list (nat * Z)) :
  c ∉ l.*1 → filter (λ m, m.1 ≠ c) l = l.
Proof.
  induction l as [|[c' r] l IH]; [done|].
  rewrite fmap_cons, not_elem_of_cons. simpl. intros [Hne Hl].
  rewrite filter_cons. simpl. rewrite decide_True by done. by rewrite IH.
Qed.

Lemma omap_ext_elem {A B} (f g : A → option B) (l : list A) :
  (∀ x, x ∈ l → f x = g x) → omap f l = omap g l.
Proof.
  induction l as [|x l IH]; intros H; [done|]. simpl.
  rewrite (H x) by apply list_elem_of_here.
  assert (E : omap f l = omap g l).
  { apply IH. intros y Hy. apply H. by apply list_elem_of_further. }
  destruct (g x); [f_equal|]; exact E.
Qed.

(** The loop of [CheckFinished]: [k] callbacks run, those of the first [k]
    completions of the queue, and return [rs]; either none of the values is
    negative and the queue is used up, or the last one is, and it is the
    result. *)
Lemma CheckFinished_loop_order on_remove curl_easy_strerror X T cfg adding fuel a a' r :
  Hinv X T a → Ginv cfg adding a →
  CheckFinished_loop on_remove curl_easy_strerror fuel a = Some (a', r) →
  ∃ k rs, callbacks (trace a') = callbacks (trace a) ++ take k (completed_handlers a) ∧
          returns (trace a') = returns (trace a) ++ rs ∧ length rs = k ∧
          ((∃ rs0, rs = rs0 ++ [r] ∧ Forall (Z.le 0) rs0 ∧ r < 0 ∧
                   active_requests_ a' = ∅ ∧
                   ∀ script, Wait on_remove curl_easy_strerror script a' =
                             (a', script, Some (-1))) ∨
           (Forall (Z.le 0) rs ∧ r = 0 ∧ k = length (multi_msgs a) ∧ multi_msgs a' = [])).
Proof.
  revert a. induction fuel as [|fuel IH]; intros a I G; simpl;
    unfold curl_multi_info_read, completed_handlers;
    destruct (multi_msgs a) as [|[c result] rest] eqn:Hm; try discriminate.
  - intros [= <- <-]. exists 0%nat, []. rewrite !app_nil_r. split; [done|].
    split; [done|]. split; [done|]. by right.
  - intros [= <- <-]. exists 0%nat, []. rewrite !app_nil_r. split; [done|].
    split; [done|]. split; [done|]. by right.
  - set (a0 := set_multi id (λ _, rest) a).
    pose proof (Ginv_info_read _ _ _ _ _ G Hm) as G0.
    pose proof (Hinv_quiet _ _ _ _ I (quiet_set_multi id (λ _, rest) a)) as I0.
    fold a0 in G0, I0.
    assert (is_Some (easies a !! c)) as [e He].
    { apply (gc_msgs (gi_curl G)). rewrite Hm, fmap_cons. apply list_elem_of_here. }
    destruct (Hinv_easy_live _ _ _ _ _ I He) as ([hd Hl] & _ & _).
    assert (He0 : easies a0 !! c = Some e) by done.
    assert (Hl0 : heap a0 !! opt_private e = Some hd) by done.
    pose proof (Ginv_FinishRequest_curl on_remove curl_easy_strerror _ _ c result true _ G0
                  ltac:(eauto)) as G1.
    pose proof (Hinv_FinishRequest_curl on_remove curl_easy_strerror _ _ _ c result true I0)
      as I1.
    destruct (FinishRequest_curl_dispatch_trace on_remove curl_easy_strerror a0 c e hd result
                He0 Hl0) as (arg & t & Ht & Hn).
    assert (Hshape : ∃ a1 r1,
      FinishRequest_curl on_remove curl_easy_strerror c result true a0 = (a1, r1) ∧
      easies a1 = delete c (easies a) ∧
      multi_msgs a1 = filter (λ m, m.1 ≠ c) rest).
    { rewrite (FinishRequest_curl_dispatch _ _ _ _ _ _ _ He0 Hl0).
      set (error := if decide (result ≠ CURLE_OK) then _ else _).
      pose proof (handler_step_RunCallback (opt_private e) (info_response_code e) error a0)
        as [F _].
      unfold engine_frame in F. eexists _, _. split; [done|].
      rewrite notified_easies, notified_multi_msgs. simpl.
      split; [f_equal|f_equal]; simpl in F; congruence. }
    destruct Hshape as (a1 & r1 & Hf & He1 & Hm1). rewrite Hf in *. simpl in *.
    assert (Hc1 : callbacks (trace a1) = callbacks (trace a) ++ [opt_private e]).
    { rewrite Ht, !callbacks_app. simpl. by rewrite (callbacks_notices t Hn). }
    assert (Hr1 : returns (trace a1) = returns (trace a) ++ [r1]).
    { rewrite Ht, !returns_app. simpl. by rewrite (returns_notices t Hn). }
    assert (Hnd : c ∉ rest.*1).
    { pose proof (gc_msgs_nodup (gi_curl G)) as Hnd. rewrite Hm, fmap_cons in Hnd.
      by apply NoDup_cons in Hnd as [? _]. }
    rewrite filter_ne_id in Hm1 by done.
    unfold easy_handler at 1. rewrite He. simpl.
    case_match eqn:Hr.
    + intros [= <- <-]. exists 1%nat, [r1]. simpl. rewrite take_0.
      split; [by rewrite CancelAll_callbacks|].
      split; [by rewrite (CancelAll_returns _ _ _ _ _ I1)|]. split; [done|]. left.
      exists []. split; [done|]. split; [done|]. split; [by apply Z.ltb_lt|].
      split; [apply CancelAll_active|]. intros script. by eapply Wait_after_CancelAll.
    + intros Hloop. destruct (IH a1 I1 G1 Hloop) as (k & rs & Hk & Hrs & Hlen & Hcase).
      exists (S k), (r1 :: rs). simpl. split; [|split; [|split]].
      * rewrite Hk, Hc1, <-app_assoc. simpl. do 3 f_equal.
        unfold completed_handlers. rewrite Hm1.
        apply omap_ext_elem. intros [c' r'] Hin. simpl.
        unfold easy_handler. rewrite He1, lookup_delete_ne; [done|].
        intros <-. apply Hnd. apply list_elem_of_fmap. by exists (c, r').
      * by rewrite Hrs, Hr1, <-app_assoc.
      * by rewrite Hlen.
      * apply Z.ltb_ge in Hr.
        destruct Hcase as [(rs0 & -> & Hpos & Hneg & Hact & Hw)|(Hpos & -> & -> & Hq)].
        -- left. exists (r1 :: rs0). split; [done|]. split; [by constructor|]. done.
        -- right. split; [by constructor|]. split; [done|]. by rewrite Hm1.
Qed.

Lemma completed_handlers_length cfg adding a :
  Ginv cfg adding a → length (completed_handlers a) = length (multi_msgs a).
Proof.
  intros G. unfold completed_handlers.
  assert (Hall : ∀ m, m ∈ multi_msgs a → is_Some (easy_handler a m.1)).
  { intros m Hm. unfold easy_handler. apply fmap_is_Some, (gc_msgs (gi_curl G)).
    apply list_elem_of_fmap. by exists m. }
  induction (multi_msgs a) as [|m l IH]; [done|]. simpl.
  destruct (Hall m) as [h ->]; [apply list_elem_of_here|]. simpl. f_equal.
  apply IH. intros m' Hm'. apply Hall. by apply list_elem_of_further.
Qed.

(** X18.  [CheckFinished], whatever the engine has been through and
    whatever libcurl has just done, runs the callbacks of the transfers
    libcurl has reported done in the order of libcurl's queue.  Either all
    of them run, none returns a negative value, the queue is empty
    afterwards and the result is 0; or the first callback that returns a
    negative value ends the loop, that value is the result, and no request
    is active any more.  (Stated for the runs in which no released event
    source is used.) *)
Theorem CheckFinished_takes_completions_in_order
    on_remove curl_easy_strerror strerror baseurl debug calls l :
  let a := foldl (λ a act, curl_act act a)
             (run on_remove curl_easy_strerror strerror calls (Aur_new baseurl debug)) l in
  let a' := (CheckFinished on_remove curl_easy_strerror a).1 in
  let r := (CheckFinished on_remove curl_easy_strerror a).2 in
  defined a' →
  length (completed_handlers a) = length (multi_msgs a) ∧
  ∃ k rs, callbacks (trace a') = callbacks (trace a) ++ take k (completed_handlers a) ∧
          returns (trace a') = returns (trace a) ++ rs ∧ length rs = k ∧
          ((∃ rs0, rs = rs0 ++ [r] ∧ Forall (Z.le 0) rs0 ∧ r < 0 ∧
                   active_requests_ a' = ∅) ∨
           (Forall (Z.le 0) rs ∧ r = 0 ∧ k = length (multi_msgs a) ∧ multi_msgs a' = [])).
Proof.
  intros a a' r _.
  pose proof (Hinv_curl_acts _ _ l _
                (Hinv_run on_remove curl_easy_strerror strerror _ _ calls _
                   (Hinv_Aur_new baseurl debug))) as I.
  pose proof (Ginv_curl_acts _ _ l _
                (Ginv_reachable on_remove curl_easy_strerror strerror baseurl debug calls))
    as G.
  fold a in I, G. split; [by eapply completed_handlers_length|].
  subst a' r. unfold CheckFinished.
  destruct (CheckFinished_loop_total on_remove curl_easy_strerror (length (multi_msgs a)) a)
    as [[a' r] Hloop]; [done|].
  rewrite Hloop. simpl.
  destruct (CheckFinished_loop_order _ _ _ _ _ _ _ _ _ _ I G Hloop)
    as (k & rs & Hk & Hrs & Hlen & Hcase).
  exists k, rs. split; [done|]. split; [done|]. split; [done|].
  destruct Hcase as [(rs0 & ? & ? & ? & ? & _)|?]; [left; by exists rs0|by right].
Qed.

Lemma CheckFinished_takes_completions_in_order_witness :
  let a := foldl (λ a act, curl_act act a)
             (run example_removal example_curl_strerror example_strerror
                example_calls_tarballs (Aur_new example_baseurl "")) example_acts_failed in
  let a' := (CheckFinished example_removal example_curl_strerror a).1 in
  let r := (CheckFinished example_removal example_curl_strerror a).2 in
  (multi_msgs a = [(0%nat, 7); (1%nat, 7)] ∧
   completed_handlers a = [0%nat; 1%nat] ∧ callbacks (trace a) = [] ∧ r = 0 ∧
   callbacks (trace a') = [0%nat; 1%nat]) ∧
  length (completed_handlers a) = length (multi_msgs a) ∧
  ∃ k rs, callbacks (trace a') = callbacks (trace a) ++ take k (completed_handlers a) ∧
          returns (trace a') = returns (trace a) ++ rs ∧ length rs = k ∧
          ((∃ rs0, rs = rs0 ++ [r] ∧ Forall (Z.le 0) rs0 ∧ r < 0 ∧
                   active_requests_ a' = ∅) ∨
           (Forall (Z.le 0) rs ∧ r = 0 ∧ k = length (multi_msgs a) ∧ multi_msgs a' = [])).
Proof.
  split; [by vm_compute|].
  apply (CheckFinished_takes_completions_in_order example_removal example_curl_strerror
           example_strerror example_baseurl "" example_calls_tarballs example_acts_failed).
  by vm_compute.
Defined.

(** ** When [curl_multi_socket_action] fails *)

Lemma curl_act_callbacks act a : callbacks (trace (curl_act act a)) = callbacks (trace a).
Proof.
  destruct act; simpl.
  - destruct (q_trace (quiet_SocketCallback dupfd add_ok s action a)) as (t & -> & Hc & _).
    by rewrite callbacks_app, Hc, app_nil_r.
  - destruct (q_trace (quiet_TimerCallback now add_ok timeout_ms a)) as (t & -> & Hc & _).
    by rewrite callbacks_app, Hc, app_nil_r.
  - destruct (in_flight c a) as [e|]; [|done]. unfold BodyCallback.
    destruct (heap a !! opt_writedata e); simpl; [done|]. by rewrite callbacks_app, app_nil_r.
  - destruct (in_flight c a) as [e|]; [|done]. case_match; [|done].
    unfold DebugCallback. case_decide; simpl; [done|]. by rewrite callbacks_app, app_nil_r.
  - destruct (in_flight c a) as [e|]; [|done]. unfold write_error_buffer.
    destruct (heap a !! opt_errorbuffer e); simpl; [done|].
    by rewrite callbacks_app, app_nil_r.
  - by destruct (in_flight c a).
Qed.

Lemma curl_act_msgs act a : multi_msgs a `prefix_of` multi_msgs (curl_act act a).
Proof.
  destruct act; simpl.
  - pose proof (SocketCallback_submissions dupfd add_ok s action a) as H.
    unfold submissions in H. by assert (multi_msgs (SocketCallback dupfd add_ok s action a).1
                                        = multi_msgs a) as -> by congruence.
  - pose proof (TimerCallback_submissions now add_ok timeout_ms a) as H.
    unfold submissions in H.
    by assert (multi_msgs (TimerCallback now add_ok timeout_ms a).1
               = multi_msgs a) as -> by congruence.
  - destruct (in_flight c a) as [e|]; [|done]. unfold BodyCallback.
    by destruct (heap a !! opt_writedata e).
  - destruct (in_flight c a) as [e|]; [|done]. case_match; [|done].
    unfold DebugCallback. by case_decide.
  - destruct (in_flight c a) as [e|]; [|done]. unfold write_error_buffer.
    by destruct (heap a !! opt_errorbuffer e).
  - destruct (in_flight c a); [|done]. simpl. by apply prefix_app_r.
Qed.

Lemma curl_acts_quietly l a :
  let a' := foldl (λ a act, curl_act act a) a l in
  callbacks (trace a') = callbacks (trace a) ∧
  active_requests_ a' = active_requests_ a ∧
  multi_msgs a `prefix_of` multi_msgs a'.
Proof.
  cbv zeta. split; [|split].
  - revert a. induction l as [|act l IH]; intros a; simpl; [done|].
    by rewrite IH, curl_act_callbacks.
  - apply (st_active (steady_curl_acts l a)).
  - revert a. induction l as [|act l IH]; intros a; simpl; [done|].
    etrans; [apply (curl_act_msgs act a)|apply IH].
Qed.

(** X19.  When [curl_multi_socket_action] does not return CURLM_OK,
    [OnCurlIO] and [OnCurlTimer] return -EINVAL without looking at the
    completed transfers: no callback runs during the call, the Active
    Request Set is as before, and the completions libcurl has reported
    stay in its queue. *)
Theorem socket_action_failure_skips_completions
    on_remove curl_easy_strerror reaction fd revents a :
  mcode (reaction (default 0 (translate_fds_ a !! fd)) (revents_to_action revents))
    ≠ CURLM_OK →
  mcode (reaction CURL_SOCKET_TIMEOUT 0) ≠ CURLM_OK →
  let io := OnCurlIO on_remove curl_easy_strerror reaction fd revents a in
  let timer := OnCurlTimer on_remove curl_easy_strerror reaction a in
  (io.2 = - EINVAL ∧ callbacks (trace io.1) = callbacks (trace a) ∧
   active_requests_ io.1 = active_requests_ a ∧
   multi_msgs a `prefix_of` multi_msgs io.1) ∧
  (timer.2 = - EINVAL ∧ callbacks (trace timer.1) = callbacks (trace a) ∧
   active_requests_ timer.1 = active_requests_ a ∧
   multi_msgs a `prefix_of` multi_msgs timer.1).
Proof.
  intros Hio Htimer. cbv zeta. unfold OnCurlIO, OnCurlTimer, curl_multi_socket_action.
  cbv zeta. rewrite !decide_True by done. simpl. split.
  - match goal with |- context [foldl _ ?b ?l] =>
      destruct (curl_acts_quietly l b) as (H1 & H2 & H3) end. done.
  - match goal with |- context [foldl _ ?b ?l] =>
      destruct (curl_acts_quietly l b) as (H1 & H2 & H3) end. done.
Qed.

Lemma socket_action_failure_skips_completions_witness :
  let a := run example_removal example_curl_strerror example_strerror example_calls_rpc
             (Aur_new example_baseurl "") in
  let io := OnCurlIO example_removal example_curl_strerror (λ _ _, example_reaction_failing)
              9 EPOLLIN a in
  let timer := OnCurlTimer example_removal example_curl_strerror
                 (λ _ _, example_reaction_failing) a in
  (multi_msgs a = [] ∧ multi_msgs timer.1 = [(0%nat, CURLE_OK)]) ∧
  (io.2 = - EINVAL ∧ callbacks (trace io.1) = callbacks (trace a) ∧
   active_requests_ io.1 = active_requests_ a ∧
   multi_msgs a `prefix_of` multi_msgs io.1) ∧
  (timer.2 = - EINVAL ∧ callbacks (trace timer.1) = callbacks (trace a) ∧
   active_requests_ timer.1 = active_requests_ a ∧
   multi_msgs a `prefix_of` multi_msgs timer.1).
Proof.
  split; [by vm_compute|].
  apply (socket_action_failure_skips_completions example_removal example_curl_strerror
           (λ _ _, example_reaction_failing) 9 EPOLLIN
           (run example_removal example_curl_strerror example_strerror example_calls_rpc
              (Aur_new example_baseurl ""))); done.
Defined.

(** ** The debug stream *)

(** X20.  The debug stream gets the request headers and nothing else.
    When libcurl hands debug data of a transfer in flight to the engine,
    in a state reached by any run, the data is written to the debug
    stream exactly when the engine was constructed at the level that logs
    requests and the data is an outgoing header; otherwise nothing is
    written. *)
Theorem debug_stream_gets_request_headers
    on_remove curl_easy_strerror strerror baseurl debug calls c type data :
  let a := run on_remove curl_easy_strerror strerror calls (Aur_new baseurl debug) in
  is_Some (in_flight c a) →
  trace (curl_act (CaDebug c type data) a) =
  trace a ++
    match debug_level_ (Aur_new baseurl debug) with
    | DEBUG_REQUESTS =>
        if decide (type = CURLINFO_HEADER_OUT) then [ObsDebugWrite data] else []
    | _ => []
    end.
Proof.
  intros a [e Hin].
  pose proof (Ginv_reachable on_remove curl_easy_strerror strerror baseurl debug calls) as G.
  fold a in G. destruct G as [Hs Gc _ _].
  destruct (gc_options Gc c e (in_flight_Some _ _ _ Hin)) as (_ & _ & _ & Ho & _).
  simpl in Ho. simpl. rewrite Hin, Ho.
  destruct (debug_level_ (Aur_new baseurl debug)); try by rewrite app_nil_r.
  unfold DebugCallback. destruct (decide (type = CURLINFO_HEADER_OUT)) as [->|Hne].
  - by rewrite decide_False by (by intros []).
  - rewrite decide_True by done. by rewrite app_nil_r.
Qed.

Lemma debug_stream_gets_request_headers_witness :
  let a := run example_removal example_curl_strerror example_strerror example_calls_rpc
             example_engine_logging in
  trace (curl_act (CaDebug 0 CURLINFO_HEADER_OUT "GET /rpc HTTP/2") a) =
  trace a ++ [ObsDebugWrite "GET /rpc HTTP/2"].
Proof.
  apply (debug_stream_gets_request_headers example_removal example_curl_strerror example_strerror
           example_baseurl "requests:/tmp/auracle.log" example_calls_rpc 0
           CURLINFO_HEADER_OUT "GET /rpc HTTP/2").
  eexists. vm_compute. reflexivity.
Defined.
